(** * Data structures of the study notes, embedded and verified

    The development embeds the from-scratch containers of the repository:

    - [BST]: [search_bst], [insert_bst], [delete_node], [inorder]
      (data_structures/07_binary_trees.py);
    - [MinHeap]: [push], [pop], [_bubble_up], [_bubble_down]
      (data_structures/08_heaps.py);
    - [UnionFind]: [find], [union] (algorithms/09_misc_algos.py);
    - [LinkedList]: [insert_front], [insert_end], [delete_val], [find],
      [reverse_list], [to_list] (data_structures/06_linked_lists.py);
    - [Stack]: [push], [pop], [peek] (data_structures/04_stacks.py);
      [Queue]: [enqueue], [dequeue], [front]
      (data_structures/05_queues.py).

    and, beside them, [Trees] (the traversals, [level_order],
    [max_depth], [diameter], [is_balanced], [invert], [has_path_sum]),
    [LinkedListMore] ([from_list], [get_length], [middle_node],
    [has_cycle], [merge]) and [MiscAlgos] ([binary_search],
    [lower_bound], [prefix_sum], [max_subarray], [majority_element] of
    algorithms/09_misc_algos.py).

    Python integers are [Z]; a Python list used as an array is a [list]
    read with [!!] and written with [<[i:=x]>], an index out of range
    raising [IndexError]; objects reached through references live in a
    store indexed by locations. Loops and recursions whose termination
    depends on the data carry fuel. The limits of the interpreter (its
    recursion limit, the memory) are not modelled. *)

From Stdlib Require Import ZArith Lia ZifyNat Sorted.
From stdpp Require Import base tactics option list relations gmap sorting.

Local Open Scope Z_scope.

(** ** Outcomes of a call

    A call returns a value, raises an exception, or has no outcome in the
    model: [Stuck] stands for a loop or a recursion that exhausted its fuel
    and for a reference that is not in the store. *)

Inductive exn := IndexError.

Inductive res (A : Type) :=
  | Ok (a : A)
  | Raise (e : exn)
  | Stuck.
Arguments Ok {A} a.
Arguments Raise {A} e.
Arguments Stuck {A}.

#[global] Instance res_ret : MRet res := @Ok.
#[global] Instance res_bind : MBind res := fun A B f m =>
  match m with
  | Ok a => f a
  | Raise e => Raise e
  | Stuck => Stuck
  end.

(** [xs[i]] *)
Definition getitem {A} (xs : list A) (i : nat) : res A :=
  match xs !! i with
  | Some x => Ok x
  | None => Raise IndexError
  end.

(** [xs[i] = x] *)
Definition setitem {A} (xs : list A) (i : nat) (x : A) : res (list A) :=
  if decide (i < length xs)%nat then Ok (<[i:=x]> xs) else Raise IndexError.

(** [xs.pop()]: the last item and the list without it. *)
Definition list_pop {A} (xs : list A) : res (A * list A) :=
  match xs !! (length xs - 1)%nat with
  | Some x => Ok (x, take (length xs - 1) xs)
  | None => Raise IndexError
  end.

(** ** Sequences of values *)

(** [remove_one v xs]: [xs] without its first [v]. *)
Fixpoint remove_one (v : Z) (xs : list Z) : list Z :=
  match xs with
  | [] => []
  | x :: xs' => if decide (x = v) then xs' else x :: remove_one v xs'
  end.

(** The number of times [v] occurs in [xs]. *)
Definition count_occ (v : Z) (xs : list Z) : nat :=
  length (filter (λ x, x = v) xs).

(** ** Binary search tree *)

Module BST.

(** [None] is [Leaf]; [TreeNode(val, left, right)] is [Node left val right]. *)
Inductive tree :=
  | Leaf
  | Node (l : tree) (v : Z) (r : tree).

(** The values [inorder] prints, in the order it prints them. *)
Fixpoint inorder (root : tree) : list Z :=
  match root with
  | Leaf => []
  | Node l v r => inorder l ++ v :: inorder r
  end.

Fixpoint search_bst (root : tree) (target : Z) : bool :=
  match root with
  | Leaf => false
  | Node l v r =>
      if decide (v = target) then true
      else if decide (target < v) then search_bst l target
      else search_bst r target
  end.

Fixpoint insert_bst (root : tree) (val : Z) : tree :=
  match root with
  | Leaf => Node Leaf val Leaf
  | Node l v r =>
      if decide (val < v) then Node (insert_bst l val) v r
      else Node l v (insert_bst r val)
  end.

(** [temp = node; while temp.left: temp = temp.left] and then [temp.val],
    for the node with left subtree [l] and value [v]. *)
Fixpoint leftmost (l : tree) (v : Z) : Z :=
  match l with
  | Leaf => v
  | Node ll lv _ => leftmost ll lv
  end.

Fixpoint delete_node (root : tree) (key : Z) : tree :=
  match root with
  | Leaf => Leaf
  | Node l v r =>
      if decide (key < v) then Node (delete_node l key) v r
      else if decide (key > v) then Node l v (delete_node r key)
      else
        match l, r with
        | Leaf, _ => r
        | _, Leaf => l
        | _, Node rl rv _ =>
            let temp_val := leftmost rl rv in
            Node l temp_val (delete_node r temp_val)
        end
  end.

(** [root = None; for v in vals: root = insert_bst(root, v)] *)
Definition build (vals : list Z) : tree := foldl insert_bst Leaf vals.

(** The ordering invariant: everything on the left is smaller than the
    node, everything on the right is at least the node. *)
Fixpoint all_tree (P : Z → Prop) (t : tree) : Prop :=
  match t with
  | Leaf => True
  | Node l v r => all_tree P l ∧ P v ∧ all_tree P r
  end.

Fixpoint bst (t : tree) : Prop :=
  match t with
  | Leaf => True
  | Node l v r =>
      all_tree (λ x, x < v) l ∧ all_tree (λ x, v ≤ x) r ∧ bst l ∧ bst r
  end.

(** Positions in a tree: a path of left and right turns from the root. *)
Inductive dir := L | R.

Fixpoint subtree (p : list dir) (t : tree) : option tree :=
  match p, t with
  | [], _ => Some t
  | L :: p', Node l _ _ => subtree p' l
  | R :: p', Node _ _ r => subtree p' r
  | _ :: _, Leaf => None
  end.

Definition root_val (t : tree) : option Z :=
  match t with
  | Leaf => None
  | Node _ v _ => Some v
  end.

End BST.

(** ** Binary min-heap *)

Module MinHeap.

(** The heap object is its backing list [self.heap]; a method returns its
    result together with the list it leaves behind. *)

(** [MinHeap()] *)
Definition empty : list Z := [].

Definition parent (i : nat) : nat := ((i - 1) / 2)%nat.

(** [self.heap[i], self.heap[j] = self.heap[j], self.heap[i]] *)
Definition swap (h : list Z) (i j : nat) : res (list Z) :=
  a ← getitem h j;
  b ← getitem h i;
  h1 ← setitem h i a;
  setitem h1 j b.

(** The loop of [_bubble_up]; [i] decreases at every turn. *)
Fixpoint bubble_up_loop (fuel : nat) (h : list Z) (i : nat) : res (list Z) :=
  if decide (0 < i)%nat then
    match fuel with
    | O => Stuck
    | S fuel' =>
        let parent := ((i - 1) / 2)%nat in
        hi ← getitem h i;
        hp ← getitem h parent;
        if decide (hi < hp) then
          h' ← swap h i parent;
          bubble_up_loop fuel' h' parent
        else Ok h
    end
  else Ok h.

Definition _bubble_up (h : list Z) (i : nat) : res (list Z) :=
  bubble_up_loop i h i.

(** The loop of [_bubble_down], with [n = len(self.heap)] read once
    before the loop; [i] increases at every turn and stays below [n]. *)
Fixpoint bubble_down_loop (fuel n : nat) (h : list Z) (i : nat)
    : res (list Z) :=
  if decide (2 * i + 1 < n)%nat then
    match fuel with
    | O => Stuck
    | S fuel' =>
        let left := (2 * i + 1)%nat in
        let right := (2 * i + 2)%nat in
        let smallest := i in
        hl ← getitem h left;
        hs ← getitem h smallest;
        let smallest := if decide (hl < hs) then left else smallest in
        smallest ←
          (if decide (right < n)%nat then
             hr ← getitem h right;
             hs ← getitem h smallest;
             Ok (if decide (hr < hs) then right else smallest)
           else Ok smallest);
        if decide (smallest = i) then Ok h
        else
          h' ← swap h i smallest;
          bubble_down_loop fuel' n h' smallest
    end
  else Ok h.

Definition _bubble_down (h : list Z) (i : nat) : res (list Z) :=
  bubble_down_loop (length h) (length h) h i.

Definition push (h : list Z) (val : Z) : res (list Z) :=
  let h := h ++ [val] in
  _bubble_up h (length h - 1).

Definition pop (h : list Z) : res (Z * list Z) :=
  if decide (length h = 1%nat) then list_pop h
  else
    out ← getitem h 0;
    '(last, h) ← list_pop h;
    h ← setitem h 0 last;
    h ← _bubble_down h 0;
    Ok (out, h).

(** [for v in vals: heap.push(v)] *)
Fixpoint push_all (h : list Z) (vals : list Z) : res (list Z) :=
  match vals with
  | [] => Ok h
  | v :: vals' => h' ← push h v; push_all h' vals'
  end.

(** [k] successive calls of [pop], with the values they return. *)
Fixpoint pops (k : nat) (h : list Z) : res (list Z * list Z) :=
  match k with
  | O => Ok ([], h)
  | S k' =>
      '(x, h') ← pop h;
      '(xs, h'') ← pops k' h';
      Ok (x :: xs, h'')
  end.

(** [while heap.heap: out.append(heap.pop())] *)
Fixpoint pop_until_empty (fuel : nat) (h : list Z) : res (list Z) :=
  match h with
  | [] => Ok []
  | _ :: _ =>
      match fuel with
      | O => Stuck
      | S fuel' =>
          '(x, h') ← pop h;
          xs ← pop_until_empty fuel' h';
          Ok (x :: xs)
      end
  end.

(** The heap ordering: every item is at least the item at its parent
    index. *)
Definition heap_ok (h : list Z) : Prop :=
  ∀ i, (0 < i < length h)%nat → h !!! parent i ≤ h !!! i.

(** [heap_sort] runs on the library module [heapq], which is not part of
    the repository: [heapify] and [heappop] are parameters, with the
    contract of the library as [heapq_contract]. *)
Section heap_sort.
Variable heapify : list Z → list Z.
Variable heappop : list Z → res (Z * list Z).

(** [[heapq.heappop(arr) for _ in range(k)]] *)
Fixpoint heappops (k : nat) (arr : list Z) : res (list Z * list Z) :=
  match k with
  | O => Ok ([], arr)
  | S k' =>
      '(x, arr') ← heappop arr;
      '(xs, arr'') ← heappops k' arr';
      Ok (x :: xs, arr'')
  end.

Definition heap_sort (arr : list Z) : res (list Z) :=
  let arr := heapify arr in
  '(out, _) ← heappops (length arr) arr;
  Ok out.

Definition heapq_contract : Prop :=
  (∀ arr, heap_ok (heapify arr) ∧ heapify arr ≡ₚ arr) ∧
  (∀ arr, heap_ok arr → arr ≠ [] →
     ∃ x arr', heappop arr = Ok (x, arr') ∧ heap_ok arr' ∧
               arr ≡ₚ x :: arr' ∧ Forall (Z.le x) arr').
End heap_sort.

(** An implementation of the two library functions by the class above:
    it shows that the contract can be met. *)
Definition heapify_by_push (arr : list Z) : list Z :=
  match push_all empty arr with
  | Ok h => h
  | _ => arr
  end.

(** The loop invariants of the two sifts: the ordering holds on every
    edge but the ones at [i], and across [i] from its parent to its
    children. *)
Definition up_inv (h : list Z) (i : nat) : Prop :=
  (i < length h)%nat ∧
  (∀ j, (0 < j < length h)%nat → j ≠ i → h !!! parent j ≤ h !!! j) ∧
  (∀ c, (0 < i)%nat → (0 < c < length h)%nat → parent c = i →
        h !!! parent i ≤ h !!! c).

Definition down_inv (h : list Z) (i : nat) : Prop :=
  (∀ j, (0 < j < length h)%nat → parent j ≠ i → h !!! parent j ≤ h !!! j) ∧
  (∀ c, (0 < i)%nat → (0 < c < length h)%nat → parent c = i →
        h !!! parent i ≤ h !!! c).

(** The list with the items at [i] and [j] exchanged. *)
Definition swapped (h : list Z) (i j : nat) : list Z :=
  <[j := h !!! i]> (<[i := h !!! j]> h).

End MinHeap.

(** ** Stack and queue adapters *)

(** The values a container holds or a method returns: [None] or an
    integer. *)
Inductive value :=
  | VNone
  | VInt (z : Z).

Module Stack.

(** The stack object is its list [self.data]. *)
Definition empty : list value := [].

Definition push (data : list value) (val : value) : list value :=
  data ++ [val].

Definition pop (data : list value) : res (value * list value) :=
  list_pop data.


End Stack.

Module Queue.

(** The queue object is its deque [self.data], front first. *)
Definition empty : list value := [].

Definition enqueue (data : list value) (val : value) : list value :=
  data ++ [val].



End Queue.

(** ** Union-find *)

Module UnionFind.

(** The two arrays of the object. Element ids are natural numbers; an id
    outside the arrays raises [IndexError]. (Negative ids, which Python
    reads from the end of a list, are not elements and are left out.) *)
Record uf := { parent : list nat; rank : list nat }.

(** [UnionFind(n)] *)
Definition init (n : nat) : uf :=
  {| parent := seq 0 n; rank := replicate n 0%nat |}.

(** [find], the depth of the recursion bounded by [fuel]. *)
Fixpoint find_loop (fuel : nat) (s : uf) (x : nat) : res (nat * uf) :=
  match fuel with
  | O => Stuck
  | S fuel' =>
      px ← getitem (parent s) x;
      s ←
        (if decide (px ≠ x) then
           '(r, s) ← find_loop fuel' s px;
           p ← setitem (parent s) x r;
           Ok {| parent := p; rank := rank s |}
         else Ok s);
      r ← getitem (parent s) x;
      Ok (r, s)
  end.

(** A chain of parent links through [n] elements without a cycle makes at
    most [n] calls. *)
Definition find (s : uf) (x : nat) : res (nat * uf) :=
  find_loop (S (length (parent s))) s x.

Definition union (s : uf) (x y : nat) : res (bool * uf) :=
  '(px, s) ← find s x;
  '(py, s) ← find s y;
  if decide (px = py) then Ok (false, s)
  else
    rx ← getitem (rank s) px;
    ry ← getitem (rank s) py;
    if decide (rx < ry)%nat then
      p ← setitem (parent s) px py;
      Ok (true, {| parent := p; rank := rank s |})
    else if decide (ry < rx)%nat then
      p ← setitem (parent s) py px;
      Ok (true, {| parent := p; rank := rank s |})
    else
      p ← setitem (parent s) py px;
      rx ← getitem (rank s) px;
      rk ← setitem (rank s) px (rx + 1)%nat;
      Ok (true, {| parent := p; rank := rk |}).

(** [for x, y in pairs: uf.union(x, y)] *)
Fixpoint unions (s : uf) (pairs : list (nat * nat)) : res uf :=
  match pairs with
  | [] => Ok s
  | (x, y) :: pairs' => '(_, s') ← union s x y; unions s' pairs'
  end.

(** [uf.find(a) == uf.find(b)] *)
Definition same_set (s : uf) (a b : nat) : res (bool * uf) :=
  '(ra, s) ← find s a;
  '(rb, s) ← find s b;
  Ok (bool_decide (ra = rb), s).

(** [path p x l r]: following the parent links of [p] from [x] visits the
    elements [l], first [x] and last the root [r]. *)
Inductive path (p : list nat) : nat → list nat → nat → Prop :=
  | path_root x :
      p !! x = Some x → path p x [x] x
  | path_step x y l r :
      p !! x = Some y → y ≠ x → path p y l r → path p x (x :: l) r.

Definition root_of (p : list nat) (x r : nat) : Prop := ∃ l, path p x l r.

Definition same_root (p : list nat) (a b : nat) : Prop :=
  ∃ r, root_of p a r ∧ root_of p b r.

(** The parent array after the elements of [l] were pointed at [r], the
    last element of [l] first. *)
Definition compress (r : nat) (l : list nat) (p : list nat) : list nat :=
  foldr (λ y q, <[y:=r]> q) p l.

(** Well-formed states: both arrays have length [n] and the parent links
    lead from every element to a root. *)
Definition uf_wf (n : nat) (s : uf) : Prop :=
  length (parent s) = n ∧ length (rank s) = n ∧
  ∀ x, (x < n)%nat → ∃ r, root_of (parent s) x r.

(** The states a sequence of [find] and [union] calls leads to. *)
Inductive reachable (n : nat) : uf → Prop :=
  | reachable_init : reachable n (init n)
  | reachable_find s x r s' :
      reachable n s → find s x = Ok (r, s') → reachable n s'
  | reachable_union s x y b s' :
      reachable n s → union s x y = Ok (b, s') → reachable n s'.

(** The pairs are pairs of elements below [n]. *)
Definition in_range (n : nat) (pairs : list (nat * nat)) : Prop :=
  ∀ x y, (x, y) ∈ pairs → (x < n)%nat ∧ (y < n)%nat.

(** Two elements are connected by a list of pairs when a chain of pairs,
    each taken in either direction, leads from one to the other. *)
Definition connected (pairs : list (nat * nat)) : relation nat :=
  rtsc (λ a b, (a, b) ∈ pairs).

End UnionFind.

(** ** Singly linked list *)

Module LinkedList.

(** Nodes are objects in a store: a reference to a node is a location,
    [None] is the null reference. *)
Definition loc := nat.

Record node := ListNode { val : Z; next : option loc }.

Abbreviation store := (gmap loc node).

(** [ListNode(val, next)]: a new object, at a location not in use. *)
Definition alloc (st : store) (nd : node) : loc * store :=
  let l := fresh (dom st) in (l, <[l := nd]> st).

(** Reading the object behind a reference. *)
Definition deref (st : store) (l : loc) : res node :=
  match st !! l with
  | Some nd => Ok nd
  | None => Stuck
  end.

(** The fields of a [LinkedList] object. *)
Record linked_list := { head : option loc; tail : option loc }.

(** [LinkedList()] *)
Definition init : linked_list := {| head := None; tail := None |}.

Definition insert_front (st : store) (ll : linked_list) (v : Z)
    : res (store * linked_list) :=
  let '(n, st) := alloc st (ListNode v None) in
  match head ll with
  | None => Ok (st, {| head := Some n; tail := Some n |})
  | Some h =>
      Ok (<[n := ListNode v (Some h)]> st, {| head := Some n; tail := tail ll |})
  end.

Definition insert_end (st : store) (ll : linked_list) (v : Z)
    : res (store * linked_list) :=
  let '(n, st) := alloc st (ListNode v None) in
  match tail ll with
  | None => Ok (st, {| head := Some n; tail := Some n |})
  | Some t =>
      tn ← deref st t;
      Ok (<[t := ListNode (val tn) (Some n)]> st,
          {| head := head ll; tail := Some n |})
  end.

(** The loop of [delete_val]: [prev] and [cur] walk down the list. *)
Fixpoint delete_loop (fuel : nat) (st : store) (ll : linked_list)
    (prev : loc) (cur : option loc) (v : Z) : res (store * linked_list) :=
  match cur with
  | None => Ok (st, ll)
  | Some c =>
      match fuel with
      | O => Stuck
      | S fuel' =>
          cn ← deref st c;
          if decide (val cn = v) then
            pn ← deref st prev;
            let st := <[prev := ListNode (val pn) (next cn)]> st in
            let ll :=
              if decide (Some c = tail ll)
              then {| head := head ll; tail := Some prev |}
              else ll in
            Ok (st, ll)
          else delete_loop fuel' st ll c (next cn) v
      end
  end.

Definition delete_val (fuel : nat) (st : store) (ll : linked_list) (v : Z)
    : res (store * linked_list) :=
  let '(dummy, st) := alloc st (ListNode 0 (head ll)) in
  '(st, ll) ← delete_loop fuel st ll dummy (head ll) v;
  dn ← deref st dummy;
  Ok (st, {| head := next dn; tail := tail ll |}).

Fixpoint find_loop (fuel : nat) (st : store) (cur : option loc) (v : Z)
    : res bool :=
  match cur with
  | None => Ok false
  | Some c =>
      match fuel with
      | O => Stuck
      | S fuel' =>
          cn ← deref st c;
          if decide (val cn = v) then Ok true
          else find_loop fuel' st (next cn) v
      end
  end.

Definition find (fuel : nat) (st : store) (ll : linked_list) (v : Z)
    : res bool :=
  find_loop fuel st (head ll) v.

(** The loop of [reverse_list]. *)
Fixpoint reverse_loop (fuel : nat) (st : store) (prev hd : option loc)
    : res (store * option loc) :=
  match hd with
  | None => Ok (st, prev)
  | Some h =>
      match fuel with
      | O => Stuck
      | S fuel' =>
          hn ← deref st h;
          let nxt := next hn in
          let st := <[h := ListNode (val hn) prev]> st in
          reverse_loop fuel' st (Some h) nxt
      end
  end.

Definition reverse_list (fuel : nat) (st : store) (hd : option loc)
    : res (store * option loc) :=
  reverse_loop fuel st None hd.

(** The loop of [to_list], with the list [out] built so far. *)
Fixpoint to_list_loop (fuel : nat) (st : store) (hd : option loc)
    (out : list Z) : res (list Z) :=
  match hd with
  | None => Ok out
  | Some h =>
      match fuel with
      | O => Stuck
      | S fuel' =>
          hn ← deref st h;
          to_list_loop fuel' st (next hn) (out ++ [val hn])
      end
  end.

Definition to_list (fuel : nat) (st : store) (hd : option loc)
    : res (list Z) :=
  to_list_loop fuel st hd [].

(** [chain st hd ls vs]: from the reference [hd] the [next] fields lead
    through the nodes at [ls], which hold the values [vs], to [None]. *)
Inductive chain (st : store) : option loc → list loc → list Z → Prop :=
  | chain_nil : chain st None [] []
  | chain_cons l v nx ls vs :
      st !! l = Some (ListNode v nx) →
      chain st nx ls vs →
      chain st (Some l) (l :: ls) (v :: vs).

(** The fields of a list object agree with each other: [head] leads
    through the nodes [ls] and [tail] is the last of them. *)
Definition consistent (st : store) (ll : linked_list)
    (ls : list loc) (vs : list Z) : Prop :=
  chain st (head ll) ls vs ∧ tail ll = last ls.

End LinkedList.

(** The sum of a sequence of integers. *)
Definition zsum (xs : list Z) : Z := foldr Z.add 0 xs.

(** ** Further operations on binary trees *)

Module Trees.
Import BST.

(** The values [preorder] and [postorder] print, in their order. *)
Fixpoint preorder (root : tree) : list Z :=
  match root with
  | Leaf => []
  | Node l v r => v :: preorder l ++ preorder r
  end.

Fixpoint postorder (root : tree) : list Z :=
  match root with
  | Leaf => []
  | Node l v r => postorder l ++ postorder r ++ [v]
  end.

Fixpoint max_depth (root : tree) : Z :=
  match root with
  | Leaf => 0
  | Node l _ r => 1 + Z.max (max_depth l) (max_depth r)
  end.

(** [invert]: the two subtrees are inverted and exchanged. *)
Fixpoint invert (root : tree) : tree :=
  match root with
  | Leaf => Leaf
  | Node l v r => Node (invert r) v (invert l)
  end.

(** The inner [dfs] of [is_balanced]: the depth, or [-1] for a subtree
    out of balance. *)
Fixpoint balanced_dfs (node : tree) : Z :=
  match node with
  | Leaf => 0
  | Node nl _ nr =>
      let l := balanced_dfs nl in
      let r := balanced_dfs nr in
      if decide (l = -1 ∨ r = -1 ∨ Z.abs (l - r) > 1) then -1
      else 1 + Z.max l r
  end.

Definition is_balanced (root : tree) : bool :=
  bool_decide (balanced_dfs root ≠ -1).

(** The inner [dfs] of [diameter]: the variable [res] of the enclosing
    function is passed in and handed back with the depth. *)
Fixpoint diameter_dfs (node : tree) (res : Z) : Z * Z :=
  match node with
  | Leaf => (0, res)
  | Node nl _ nr =>
      let '(l, res) := diameter_dfs nl res in
      let '(r, res) := diameter_dfs nr res in
      let res := Z.max res (l + r) in
      (1 + Z.max l r, res)
  end.

Definition diameter (root : tree) : Z := (diameter_dfs root 0).2.

Definition is_leaf (t : tree) : bool :=
  match t with
  | Leaf => true
  | Node _ _ _ => false
  end.

Fixpoint has_path_sum (root : tree) (target : Z) : bool :=
  match root with
  | Leaf => false
  | Node l v r =>
      if is_leaf l && is_leaf r then bool_decide (target = v)
      else has_path_sum l (target - v) || has_path_sum r (target - v)
  end.

(** The loop of [level_order]: [q] is the deque of nodes, [out] the list
    [res]. The deque holds nodes only, never [None]. *)
Fixpoint level_order_loop (fuel : nat) (q : list tree) (out : list Z)
    : res (list Z) :=
  match q with
  | [] => Ok out
  | node :: q =>
      match fuel with
      | O => Stuck
      | S fuel' =>
          match node with
          | Leaf => Stuck
          | Node l v r =>
              let out := out ++ [v] in
              let q := if is_leaf l then q else q ++ [l] in
              let q := if is_leaf r then q else q ++ [r] in
              level_order_loop fuel' q out
          end
      end
  end.

(** The loop runs once for every node of the tree. *)
Definition level_order (root : tree) : res (list Z) :=
  if is_leaf root then Ok []
  else level_order_loop (length (inorder root)) [root] [].

(** Specifications. *)

(** Every node has subtrees whose depths differ by one at most. *)
Fixpoint height_balanced (t : tree) : Prop :=
  match t with
  | Leaf => True
  | Node l _ r =>
      Z.abs (max_depth l - max_depth r) ≤ 1 ∧
      height_balanced l ∧ height_balanced r
  end.

(** The largest number of edges on a path through any node of the tree,
    from the deepest node on its left to the deepest node on its right. *)
Fixpoint longest_path (t : tree) : Z :=
  match t with
  | Leaf => 0
  | Node l _ r =>
      Z.max (max_depth l + max_depth r)
            (Z.max (longest_path l) (longest_path r))
  end.

(** The values on a path from the root down to a leaf. *)
Inductive root_to_leaf : tree → list Z → Prop :=
  | rtl_leaf v : root_to_leaf (Node Leaf v Leaf) [v]
  | rtl_left l v r p :
      root_to_leaf l p → root_to_leaf (Node l v r) (v :: p)
  | rtl_right l v r p :
      root_to_leaf r p → root_to_leaf (Node l v r) (v :: p).

(** The values at depth [k], from left to right. *)
Fixpoint at_depth (k : nat) (t : tree) {struct t} : list Z :=
  match t, k with
  | Leaf, _ => []
  | Node _ v _, O => [v]
  | Node l _ r, S k' => at_depth k' l ++ at_depth k' r
  end.

(** The nodes a node puts on the deque: its children, those that exist. *)
Definition kids (t : tree) : list tree :=
  match t with
  | Leaf => []
  | Node l _ r =>
      (if is_leaf l then [] else [l]) ++ (if is_leaf r then [] else [r])
  end.

End Trees.

(** ** Union-find: further invariants *)

Module UnionFindMore.
Import UnionFind.

(** Union by rank: the rank grows strictly along every parent link. *)
Definition rank_ok (s : uf) : Prop :=
  ∀ x px, parent s !! x = Some px → px ≠ x →
          (rank s !!! x < rank s !!! px)%nat.

(** The number of sets: the number of roots. *)
Definition num_sets (s : uf) : nat :=
  length (filter (λ x, parent s !! x = Some x) (seq 0 (length (parent s)))).

End UnionFindMore.

(** ** Singly linked list: further functions *)

Module LinkedListMore.
Import LinkedList.

(** The loop of [from_list]: [cur] is the last node made so far. *)
Fixpoint from_list_loop (st : store) (cur : loc) (arr : list Z)
    : res store :=
  match arr with
  | [] => Ok st
  | v :: arr' =>
      let '(n, st) := alloc st (ListNode v None) in
      cn ← deref st cur;
      let st := <[cur := ListNode (val cn) (Some n)]> st in
      from_list_loop st n arr'
  end.

Definition from_list (st : store) (arr : list Z)
    : res (store * option loc) :=
  let '(dummy, st) := alloc st (ListNode 0 None) in
  st ← from_list_loop st dummy arr;
  dn ← deref st dummy;
  Ok (st, next dn).

Fixpoint get_length_loop (fuel : nat) (st : store) (hd : option loc)
    (count : Z) : res Z :=
  match hd with
  | None => Ok count
  | Some h =>
      match fuel with
      | O => Stuck
      | S fuel' =>
          hn ← deref st h;
          get_length_loop fuel' st (next hn) (count + 1)
      end
  end.

Definition get_length (fuel : nat) (st : store) (hd : option loc) : res Z :=
  get_length_loop fuel st hd 0.

(** The loop of [middle_node]. [slow] follows [fast] on the same way, at
    half the distance from the head, so it is a node whenever the body
    runs: [slow.next] on [None], an AttributeError in Python, does not
    arise from [middle_node] and has no outcome here. *)
Fixpoint middle_loop (fuel : nat) (st : store) (slow fast : option loc)
    : res (option loc) :=
  match fast with
  | None => Ok slow
  | Some f =>
      fn ← deref st f;
      match next fn with
      | None => Ok slow
      | Some f1 =>
          match fuel with
          | O => Stuck
          | S fuel' =>
              sn ← (match slow with Some s => deref st s | None => Stuck end);
              f1n ← deref st f1;
              middle_loop fuel' st (next sn) (next f1n)
          end
      end
  end.

Definition middle_node (fuel : nat) (st : store) (hd : option loc)
    : res (option loc) :=
  middle_loop fuel st hd hd.

(** The loop of [has_cycle]; [slow == fast] compares references, and
    [slow] is a node whenever the body runs, as in [middle_node]. *)
Fixpoint has_cycle_loop (fuel : nat) (st : store) (slow fast : option loc)
    : res bool :=
  match fast with
  | None => Ok false
  | Some f =>
      fn ← deref st f;
      match next fn with
      | None => Ok false
      | Some f1 =>
          match fuel with
          | O => Stuck
          | S fuel' =>
              sn ← (match slow with Some s => deref st s | None => Stuck end);
              f1n ← deref st f1;
              let slow := next sn in
              let fast := next f1n in
              if decide (slow = fast) then Ok true
              else has_cycle_loop fuel' st slow fast
          end
      end
  end.

Definition has_cycle (fuel : nat) (st : store) (hd : option loc) : res bool :=
  has_cycle_loop fuel st hd hd.

(** The loop of [merge]: [cur] is the last node of the merged part. *)
Fixpoint merge_loop (fuel : nat) (st : store) (cur : loc)
    (l1 l2 : option loc) : res store :=
  match l1, l2 with
  | Some a, Some b =>
      match fuel with
      | O => Stuck
      | S fuel' =>
          an ← deref st a;
          bn ← deref st b;
          cn ← deref st cur;
          if decide (val an < val bn) then
            let st := <[cur := ListNode (val cn) (Some a)]> st in
            merge_loop fuel' st a (next an) l2
          else
            let st := <[cur := ListNode (val cn) (Some b)]> st in
            merge_loop fuel' st b l1 (next bn)
      end
  | _, _ =>
      cn ← deref st cur;
      let rest := match l1 with Some _ => l1 | None => l2 end in
      Ok (<[cur := ListNode (val cn) rest]> st)
  end.

Definition merge (fuel : nat) (st : store) (l1 l2 : option loc)
    : res (store * option loc) :=
  let '(dummy, st) := alloc st (ListNode 0 None) in
  st ← merge_loop fuel st dummy l1 l2;
  dn ← deref st dummy;
  Ok (st, next dn).

(** Merging two sequences of values as [merge] does: the head of the
    first goes first when it is smaller, the head of the second
    otherwise. *)
Fixpoint merge_vals (xs : list Z) : list Z → list Z :=
  fix go (ys : list Z) : list Z :=
    match xs, ys with
    | [], _ => ys
    | _, [] => xs
    | x :: xs', y :: ys' =>
        if decide (x < y) then x :: merge_vals xs' ys else y :: go ys'
    end.

(** A list with a cycle: after [i] steps from the head the walk is at
    [walk pre cyc i], first through the nodes [pre], then around the
    nodes [cyc] for ever. *)
Definition walk (pre cyc : list loc) (i : nat) : loc :=
  if decide (i < length pre)%nat then pre !!! i
  else cyc !!! ((i - length pre) `mod` length cyc)%nat.

Definition lasso (st : store) (hd : option loc) (pre cyc : list loc)
    : Prop :=
  cyc ≠ [] ∧ hd = Some (walk pre cyc 0) ∧
  ∀ i, ∃ v, st !! walk pre cyc i = Some (ListNode v (Some (walk pre cyc (S i)))).

End LinkedListMore.

(** ** Array algorithms (algorithms/09_misc_algos.py) *)

Module MiscAlgos.

(** [xs[i]] for a Python integer [i]: an index below zero counts from the
    end of the list. *)
Definition getitem_int {A} (xs : list A) (i : Z) : res A :=
  if decide (0 ≤ i) then getitem xs (Z.to_nat i)
  else if decide (0 ≤ i + Z.of_nat (length xs)) then
    getitem xs (Z.to_nat (i + Z.of_nat (length xs)))
  else Raise IndexError.

(** The loop of [binary_search]. *)
Fixpoint binary_search_loop (fuel : nat) (arr : list Z)
    (target left right : Z) : res Z :=
  if decide (left ≤ right) then
    match fuel with
    | O => Stuck
    | S fuel' =>
        let mid := (left + right) `div` 2 in
        x ← getitem_int arr mid;
        if decide (x = target) then Ok mid
        else if decide (x < target) then
          binary_search_loop fuel' arr target (mid + 1) right
        else
          binary_search_loop fuel' arr target left (mid - 1)
    end
  else Ok (-1).

Definition binary_search (fuel : nat) (arr : list Z) (target : Z) : res Z :=
  binary_search_loop fuel arr target 0 (Z.of_nat (length arr) - 1).

(** The loop of [lower_bound]. *)
Fixpoint lower_bound_loop (fuel : nat) (arr : list Z)
    (target left right : Z) : res Z :=
  if decide (left < right) then
    match fuel with
    | O => Stuck
    | S fuel' =>
        let mid := (left + right) `div` 2 in
        x ← getitem_int arr mid;
        if decide (x < target) then
          lower_bound_loop fuel' arr target (mid + 1) right
        else
          lower_bound_loop fuel' arr target left mid
    end
  else Ok left.

Definition lower_bound (fuel : nat) (arr : list Z) (target : Z) : res Z :=
  lower_bound_loop fuel arr target 0 (Z.of_nat (length arr)).

(** [prefix_sum]: the loop runs over the indices [range(n)]. *)
Fixpoint prefix_sum_loop (arr : list Z) (idx : list nat) (pre : list Z)
    : res (list Z) :=
  match idx with
  | [] => Ok pre
  | i :: idx' =>
      a ← getitem pre i;
      b ← getitem arr i;
      pre ← setitem pre (S i) (a + b);
      prefix_sum_loop arr idx' pre
  end.

Definition prefix_sum (arr : list Z) : res (list Z) :=
  let n := length arr in
  prefix_sum_loop arr (seq 0 n) (replicate (n + 1) 0).

(** [max_subarray]: the loop runs over the indices [range(1, len(arr))]. *)
Fixpoint max_subarray_loop (arr : list Z) (idx : list nat) (curr res : Z) :=
  match idx with
  | [] => Ok res
  | i :: idx' =>
      x ← getitem arr i;
      let curr := Z.max x (curr + x) in
      let res := Z.max res curr in
      max_subarray_loop arr idx' curr res
  end.

Definition max_subarray (arr : list Z) : res Z :=
  x ← getitem arr 0;
  max_subarray_loop arr (seq 1 (length arr - 1)) x x.

(** [majority_element]; the candidate starts as [None]. *)
Fixpoint majority_loop (nums : list Z) (count : Z) (candidate : option Z)
    : option Z :=
  match nums with
  | [] => candidate
  | num :: nums' =>
      let candidate := if decide (count = 0) then Some num else candidate in
      let count :=
        count + (if decide (Some num = candidate) then 1 else -1) in
      majority_loop nums' count candidate
  end.

Definition majority_element (nums : list Z) : option Z :=
  majority_loop nums 0 None.

(** A contiguous, non-empty part of an array. *)
Definition segment (arr s : list Z) : Prop :=
  s ≠ [] ∧ ∃ p q, arr = p ++ s ++ q.

(** [c] is the largest sum of a non-empty part at the end of [xs], and
    [m] the largest sum of a non-empty part anywhere in [xs]. *)
Definition ends_at (xs : list Z) (c : Z) : Prop :=
  (∃ p s, xs = p ++ s ∧ s ≠ [] ∧ zsum s = c) ∧
  (∀ p s, xs = p ++ s → s ≠ [] → zsum s ≤ c).

Definition best (xs : list Z) (m : Z) : Prop :=
  (∃ s, segment xs s ∧ zsum s = m) ∧ (∀ s, segment xs s → zsum s ≤ m).

(** The lead of [v] in the vote: the count when [v] is the candidate,
    its opposite otherwise. *)
Definition weight (v : Z) (candidate : option Z) (count : Z) : Z :=
  if decide (candidate = Some v) then count else - count.

End MiscAlgos.

(** * Outcomes and list accesses: proofs *)

Section res_facts.
Context {A : Type}.
Implicit Types xs : list A.

Lemma bind_Ok {B} (a : A) (f : A → res B) : (Ok a ≫= f) = f a.
Proof. done. Qed.

Lemma getitem_lookup xs i x : xs !! i = Some x → getitem xs i = Ok x.
Proof. unfold getitem. by intros ->. Qed.

Lemma getitem_lt `{!Inhabited A} xs i :
  (i < length xs)%nat → getitem xs i = Ok (xs !!! i).
Proof. intros. by apply getitem_lookup, list_lookup_lookup_total_lt. Qed.

Lemma getitem_ge xs i : (length xs ≤ i)%nat → getitem xs i = Raise IndexError.
Proof. intros H. unfold getitem. by rewrite lookup_ge_None_2. Qed.

Lemma setitem_lt xs i x :
  (i < length xs)%nat → setitem xs i x = Ok (<[i:=x]> xs).
Proof. intros H. unfold setitem. by case_decide. Qed.

Lemma list_pop_snoc xs x : list_pop (xs ++ [x]) = Ok (x, xs).
Proof.
  unfold list_pop. rewrite length_app. simpl.
  replace (length xs + 1 - 1)%nat with (length xs) by lia.
  rewrite lookup_app_r, Nat.sub_diag by lia. simpl.
  by rewrite take_app_length.
Qed.

End res_facts.

(** * Binary min-heap: proofs *)

(** Index arithmetic divides by two: [lia] is told about division. *)
Ltac Zify.zify_post_hook ::= Z.div_mod_to_equations.

Section heap_facts.
Import MinHeap.
Implicit Types h : list Z.

Lemma parent_lt j : (0 < j)%nat → (parent j < j)%nat.
Proof. unfold parent. lia. Qed.

Lemma parent_child c i :
  (0 < c)%nat ∧ parent c = i ↔ c = (2 * i + 1)%nat ∨ c = (2 * i + 2)%nat.
Proof. unfold parent. lia. Qed.

Lemma swapped_length h i j : length (swapped h i j) = length h.
Proof. unfold swapped. by rewrite !length_insert. Qed.

Lemma swapped_lookup h i j k :
  (i < length h)%nat → (j < length h)%nat →
  swapped h i j !!! k =
    if decide (k = j) then h !!! i
    else if decide (k = i) then h !!! j else h !!! k.
Proof.
  intros Hi Hj. unfold swapped.
  rewrite !list_lookup_total_insert, !length_insert.
  repeat case_decide; try done; lia.
Qed.

Lemma swapped_perm h i j :
  (i < length h)%nat → (j < length h)%nat → swapped h i j ≡ₚ h.
Proof.
  intros Hi Hj. unfold swapped.
  apply Permutation_insert_swap; by apply list_lookup_lookup_total_lt.
Qed.

Lemma swap_ok h i j :
  (i < length h)%nat → (j < length h)%nat → swap h i j = Ok (swapped h i j).
Proof.
  intros Hi Hj. unfold swap.
  rewrite !getitem_lt by done. simpl.
  rewrite setitem_lt by done. simpl.
  rewrite setitem_lt by (by rewrite length_insert). done.
Qed.

(** Sifting up. *)

Lemma up_inv_swapped h i :
  (0 < i)%nat → up_inv h i → h !!! i < h !!! parent i →
  up_inv (swapped h i (parent i)) (parent i).
Proof.
  intros Hpos (Hi & Hb & Hc) Hlt.
  pose proof (parent_lt i Hpos) as Hp.
  unfold up_inv. rewrite swapped_length.
  split; [lia|]. split.
  - intros j Hj Hjp. pose proof (parent_lt j) as Hpj.
    rewrite !swapped_lookup by lia.
    destruct (decide (j = i)) as [->|Hji].
    + repeat case_decide; lia.
    + rewrite (decide_False (P := j = parent i)) by done.
      specialize (Hb j Hj Hji).
      case_decide as H1; [rewrite H1 in Hb; lia|].
      case_decide as H2; [|done].
      apply Hc; [done | lia | done].
  - intros c Hpp Hc' Hcp. pose proof (parent_lt _ Hpp) as Hppp.
    rewrite !swapped_lookup by lia.
    rewrite (decide_False (P := parent (parent i) = parent i)) by lia.
    rewrite (decide_False (P := parent (parent i) = i)) by lia.
    rewrite (decide_False (P := c = parent i))
      by (pose proof (parent_lt c); lia).
    assert (h !!! parent (parent i) ≤ h !!! parent i) as Hgp
      by (apply Hb; lia).
    case_decide as H1; [done|].
    specialize (Hb c Hc' H1). rewrite Hcp in Hb. lia.
Qed.

Lemma bubble_up_loop_unfold fuel h i :
  bubble_up_loop fuel h i =
    if decide (0 < i)%nat then
      match fuel with
      | O => Stuck
      | S fuel' =>
          hi ← getitem h i;
          hp ← getitem h (parent i);
          if decide (hi < hp) then
            h' ← swap h i (parent i);
            bubble_up_loop fuel' h' (parent i)
          else Ok h
      end
    else Ok h.
Proof. by destruct fuel. Qed.

Lemma bubble_up_loop_spec fuel h i :
  up_inv h i → (i ≤ fuel)%nat →
  ∃ h', bubble_up_loop fuel h i = Ok h' ∧ heap_ok h' ∧ h' ≡ₚ h.
Proof.
  revert h i. induction fuel as [|fuel IH]; intros h i Hinv Hf.
  - assert (i = 0%nat) as -> by lia. simpl.
    exists h. split; [done|]. split; [|done].
    destruct Hinv as (_ & Hb & _). intros j Hj. apply Hb; lia.
  - rewrite bubble_up_loop_unfold. case_decide as Hpos.
    + pose proof (parent_lt i Hpos) as Hp.
      pose proof Hinv as (Hi & Hb & Hc).
      rewrite !getitem_lt by lia. rewrite !bind_Ok.
      case_decide as Hlt.
      * rewrite swap_ok by lia. rewrite bind_Ok.
        destruct (IH (swapped h i (parent i)) (parent i))
          as (h' & -> & Hok & Hperm); [by apply up_inv_swapped | lia |].
        exists h'. split; [done|]. split; [done|].
        rewrite Hperm. apply swapped_perm; lia.
      * exists h. split; [done|]. split; [|done].
        intros j Hj. destruct (decide (j = i)) as [->|Hji]; [lia|].
        by apply Hb.
    + exists h. split; [done|]. split; [|done].
      destruct Hinv as (_ & Hb & _). intros j Hj. apply Hb; lia.
Qed.

Lemma push_spec h v :
  heap_ok h → ∃ h', push h v = Ok h' ∧ heap_ok h' ∧ h' ≡ₚ v :: h.
Proof.
  intros Hok. unfold push, _bubble_up.
  rewrite length_app. simpl.
  replace (length h + 1 - 1)%nat with (length h) by lia.
  destruct (bubble_up_loop_spec (length h) (h ++ [v]) (length h))
    as (h' & -> & Hok' & Hperm); [|done|].
  - unfold up_inv. rewrite length_app. simpl.
    split; [lia|]. split.
    + intros j Hj Hne. pose proof (parent_lt j).
      rewrite !lookup_total_app_l by lia. apply Hok. lia.
    + intros c _ Hc Hpc. pose proof (parent_lt c). lia.
  - exists h'. split; [done|]. split; [done|].
    rewrite Hperm. by rewrite Permutation_app_comm.
Qed.

Lemma push_all_spec vals h :
  heap_ok h →
  ∃ h', push_all h vals = Ok h' ∧ heap_ok h' ∧ h' ≡ₚ h ++ vals.
Proof.
  revert h. induction vals as [|v vals IH]; intros h Hok; simpl.
  - exists h. by rewrite app_nil_r.
  - destruct (push_spec h v Hok) as (h1 & -> & Hok1 & Hp1). simpl.
    destruct (IH h1 Hok1) as (h2 & -> & Hok2 & Hp2).
    exists h2. split; [done|]. split; [done|].
    rewrite Hp2, Hp1. by rewrite <-Permutation_middle.
Qed.

(** Sifting down. *)

Lemma bubble_down_loop_unfold fuel n h i :
  bubble_down_loop fuel n h i =
    if decide (2 * i + 1 < n)%nat then
      match fuel with
      | O => Stuck
      | S fuel' =>
          hl ← getitem h (2 * i + 1)%nat;
          hs ← getitem h i;
          let smallest := if decide (hl < hs) then (2 * i + 1)%nat else i in
          smallest ←
            (if decide (2 * i + 2 < n)%nat then
               hr ← getitem h (2 * i + 2)%nat;
               hs ← getitem h smallest;
               Ok (if decide (hr < hs) then (2 * i + 2)%nat else smallest)
             else Ok smallest);
          if decide (smallest = i) then Ok h
          else
            h' ← swap h i smallest;
            bubble_down_loop fuel' n h' smallest
      end
    else Ok h.
Proof. by destruct fuel. Qed.

Lemma down_inv_swapped h i s :
  down_inv h i → (0 < s < length h)%nat → parent s = i →
  h !!! s < h !!! i →
  (∀ c, (0 < c < length h)%nat → parent c = i → h !!! s ≤ h !!! c) →
  down_inv (swapped h i s) s.
Proof.
  intros (Hb & Hc) Hs Hps Hlt Hmin.
  pose proof (parent_lt s) as Hsi.
  unfold down_inv. rewrite swapped_length. split.
  - intros j Hj Hpj. pose proof (parent_lt j) as Hjj.
    rewrite !swapped_lookup by lia.
    rewrite (decide_False (P := parent j = s)) by done.
    destruct (decide (j = s)) as [->|Hjs].
    { rewrite decide_True by done. lia. }
    destruct (decide (j = i)) as [->|Hji].
    { rewrite decide_False by lia. apply Hc; [lia | lia | done]. }
    case_decide as H1; [by apply Hmin|]. by apply Hb.
  - intros c _ Hc' Hpc. pose proof (parent_lt c) as Hcc.
    rewrite !swapped_lookup by lia.
    rewrite (decide_False (P := parent s = s)) by lia.
    rewrite (decide_True (P := parent s = i)) by done.
    rewrite (decide_False (P := c = s)) by lia.
    rewrite (decide_False (P := c = i)) by lia.
    rewrite <-Hpc. apply Hb; [done | lia].
Qed.

Lemma down_inv_done h i :
  down_inv h i →
  (∀ c, (0 < c < length h)%nat → parent c = i → h !!! i ≤ h !!! c) →
  heap_ok h.
Proof.
  intros (Hb & _) Hmin j Hj.
  destruct (decide (parent j = i)) as [<-|Hne]; [by apply Hmin|].
  by apply Hb.
Qed.

Lemma bubble_down_loop_spec fuel h i :
  down_inv h i → (length h - i ≤ fuel)%nat →
  ∃ h', bubble_down_loop fuel (length h) h i = Ok h' ∧
        heap_ok h' ∧ h' ≡ₚ h.
Proof.
  revert h i. induction fuel as [|fuel IH]; intros h i Hinv Hf;
    rewrite bubble_down_loop_unfold; case_decide as Hleft.
  - lia.
  - exists h. split; [done|]. split; [|done].
    apply (down_inv_done h i Hinv). intros c Hc Hpc.
    assert (c = (2 * i + 1)%nat ∨ c = (2 * i + 2)%nat) as Hcc
      by (apply parent_child; split; [lia | done]).
    lia.
  - assert (∀ s, (0 < s < length h)%nat → parent s = i →
              h !!! s < h !!! i →
              (∀ c, (0 < c < length h)%nat → parent c = i →
                    h !!! s ≤ h !!! c) →
              ∃ h', (swap h i s ≫= λ h', bubble_down_loop fuel (length h) h' s)
                      = Ok h' ∧ heap_ok h' ∧ h' ≡ₚ h) as Hswap.
    { intros s Hs Hps Hlt Hmin. pose proof (parent_lt s) as Hsi.
      rewrite swap_ok by lia. rewrite bind_Ok.
      rewrite <-(swapped_length h i s).
      destruct (IH (swapped h i s) s)
        as (h' & -> & Hok & Hperm);
        [by apply down_inv_swapped | rewrite swapped_length; lia |].
      exists h'. split; [done|]. split; [done|].
      rewrite Hperm. apply swapped_perm; lia. }
    assert (∀ c, (0 < c < length h)%nat → parent c = i →
              c = (2 * i + 1)%nat ∨ c = (2 * i + 2)%nat) as Hchild.
    { intros c Hc Hpc. apply parent_child. split; [lia | done]. }
    assert (parent (2 * i + 1) = i ∧ parent (2 * i + 2) = i) as [Hpl Hpr].
    { split; apply (parent_child _ i); auto. }
    rewrite (getitem_lt h (2 * i + 1)), (getitem_lt h i) by lia.
    rewrite !bind_Ok. cbv zeta.
    destruct (decide (h !!! (2 * i + 1)%nat < h !!! i)) as [H1|H1];
      destruct (decide (2 * i + 2 < length h)%nat) as [Hright|Hright];
      rewrite ?getitem_lt by lia; rewrite ?bind_Ok;
      try destruct (decide (h !!! (2 * i + 2)%nat < _)) as [H2|H2];
      rewrite ?bind_Ok;
      try (rewrite (decide_True (P := i = i)) by done;
           exists h; split; [done|]; split; [|done];
           apply (down_inv_done h i Hinv);
           intros c Hc Hpc; destruct (Hchild c Hc Hpc) as [-> | ->]; lia);
      rewrite decide_False by lia;
      (apply Hswap; [lia | done | lia |]);
      intros c Hc Hpc; destruct (Hchild c Hc Hpc) as [-> | ->]; lia.
  - exists h. split; [done|]. split; [|done].
    apply (down_inv_done h i Hinv). intros c Hc Hpc.
    assert (c = (2 * i + 1)%nat ∨ c = (2 * i + 2)%nat) as Hcc
      by (apply parent_child; split; [lia | done]).
    lia.
Qed.

(** The root of a heap is its least item. *)
Lemma heap_ok_root h i :
  heap_ok h → (i < length h)%nat → h !!! 0%nat ≤ h !!! i.
Proof.
  intros Hok. induction (lt_wf i) as [i _ IH]. intros Hi.
  destruct (decide (i = 0%nat)) as [->|Hne]; [lia|].
  pose proof (parent_lt i). etrans; [apply (IH (parent i)); lia|].
  apply Hok. lia.
Qed.

Lemma pop_spec h :
  heap_ok h → h ≠ [] →
  ∃ x h', pop h = Ok (x, h') ∧ heap_ok h' ∧ h ≡ₚ x :: h' ∧
          Forall (Z.le x) h'.
Proof.
  intros Hok Hne. destruct h as [|x t]; [done|]. clear Hne.
  assert (Forall (Z.le x) t) as Hmin.
  { apply Forall_lookup_2. intros i y Hy.
    apply list_lookup_total_correct in Hy as Hy'. rewrite <-Hy'.
    apply (heap_ok_root (x :: t) (S i) Hok). simpl.
    apply lookup_lt_Some in Hy. lia. }
  unfold pop. destruct t as [|a t' _] using rev_ind.
  { exists x, []. by rewrite decide_True by done. }
  rewrite decide_False by (simpl; rewrite length_app; simpl; lia).
  change (getitem (x :: t' ++ [a]) 0) with (@Ok Z x). rewrite bind_Ok.
  rewrite app_comm_cons, list_pop_snoc, bind_Ok. cbv beta iota.
  change (setitem (x :: t') 0 a) with (@Ok (list Z) (a :: t')).
  rewrite bind_Ok. unfold _bubble_down.
  destruct (bubble_down_loop_spec (length (a :: t')) (a :: t') 0)
    as (h' & -> & Hok' & Hperm); [|lia|].
  - split; [|lia]. intros j Hj Hpj. pose proof (parent_lt j).
    destruct j as [|j]; [lia|]. destruct (parent (S j)) as [|p] eqn:Hp; [done|].
    specialize (Hok (S j)). rewrite Hp in Hok. simpl in Hok, Hj.
    rewrite length_app in Hok. simpl in Hok.
    rewrite !lookup_total_app_l in Hok by lia. simpl. apply Hok. lia.
  - exists x, h'. rewrite bind_Ok. split; [done|]. split; [done|]. split.
    + rewrite Hperm. simpl. constructor. by rewrite Permutation_app_comm.
    + rewrite Hperm. apply Forall_app in Hmin as [? ?%Forall_cons].
      apply Forall_cons. tauto.
Qed.

Lemma Sorted_cons_Forall x xs :
  Forall (Z.le x) xs → Sorted Z.le xs → Sorted Z.le (x :: xs).
Proof.
  intros Hx Hs. constructor; [done|].
  destruct Hx; constructor; done.
Qed.

Lemma pop_until_empty_spec fuel h :
  heap_ok h → (length h ≤ fuel)%nat →
  ∃ outs, pop_until_empty fuel h = Ok outs ∧
          pops (length h) h = Ok (outs, []) ∧
          Sorted Z.le outs ∧ outs ≡ₚ h.
Proof.
  revert h. induction fuel as [|fuel IH]; intros h Hok Hf.
  - destruct h; [|simpl in Hf; lia].
    exists []. split; [done|]. split; [done|]. split; [constructor | done].
  - destruct h as [|y t].
    { exists []. split; [done|]. split; [done|]. split; [constructor | done]. }
    destruct (pop_spec (y :: t) Hok) as (x & h' & Hpop & Hok' & Hperm & Hmin);
      [done|].
    assert (length h' = length t) as Hlen.
    { apply Permutation_length in Hperm. simpl in Hperm. lia. }
    destruct (IH h' Hok') as (outs & Hrec & Hpops & Hs & Hp);
      [simpl in Hf; lia|].
    exists (x :: outs). cbn [pop_until_empty pops length].
    rewrite Hpop, !bind_Ok. cbv beta iota.
    rewrite Hrec, bind_Ok. rewrite <-Hlen, Hpops, bind_Ok.
    split; [done|]. split; [done|]. split.
    + apply Sorted_cons_Forall; [|done]. by rewrite Hp.
    + by rewrite Hp, Hperm.
Qed.

Lemma heap_ok_nil : heap_ok [].
Proof. intros i Hi. simpl in Hi. lia. Qed.

(** [heap_sort], for any implementation of [heapq] that meets the
    contract of the library. *)

Lemma heappops_spec heapify heappop arr :
  heapq_contract heapify heappop → heap_ok arr →
  ∃ outs, heappops heappop (length arr) arr = Ok (outs, []) ∧
          Sorted Z.le outs ∧ outs ≡ₚ arr.
Proof.
  intros [_ Hpop]. remember (length arr) as n eqn:Hn. revert arr Hn.
  induction n as [|n IH]; intros arr Hn Hok.
  - destruct arr; [|done].
    exists []. split; [done|]. split; [constructor | done].
  - destruct (Hpop arr Hok) as (x & arr' & Hx & Hok' & Hperm & Hmin).
    { by destruct arr. }
    assert (n = length arr') as Hn'.
    { apply Permutation_length in Hperm. simpl in Hperm. lia. }
    destruct (IH arr' Hn' Hok') as (outs & Hrec & Hs & Hp).
    exists (x :: outs). cbn [heappops]. rewrite Hx, bind_Ok. cbv beta iota.
    rewrite Hrec, bind_Ok. split; [done|]. split.
    + apply Sorted_cons_Forall; [|done]. by rewrite Hp.
    + by rewrite Hp, Hperm.
Qed.

Lemma heap_sort_sorted heapify heappop arr :
  heapq_contract heapify heappop →
  ∃ out, heap_sort heapify heappop arr = Ok out ∧
         Sorted Z.le out ∧ out ≡ₚ arr.
Proof.
  intros Hc. pose proof Hc as [Hheapify _].
  destruct (Hheapify arr) as [Hok Hperm].
  destruct (heappops_spec heapify heappop (heapify arr) Hc Hok)
    as (outs & Hrec & Hs & Hp).
  exists outs. unfold heap_sort. rewrite Hrec, bind_Ok.
  split; [done|]. split; [done|]. by rewrite Hp.
Qed.

Lemma heapify_by_push_contract : heapq_contract heapify_by_push pop.
Proof.
  split.
  - intros arr. unfold heapify_by_push.
    destruct (push_all_spec arr empty heap_ok_nil) as (h & -> & Hok & Hp).
    done.
  - intros arr Hok Hne. by apply pop_spec.
Qed.

Lemma heap_sort_example :
  heap_sort heapify_by_push pop [5; 3; 8; 1] = Ok [1; 3; 5; 8].
Proof. vm_compute. reflexivity. Qed.

(** ** The claims *)

(** C1. For every sequence of values pushed into an empty [MinHeap], the
    pushes succeed, and calling [pop] until the heap is empty (as many
    calls as there were values) returns the pushed values in
    non-decreasing order; pushing 5, 3, 8, 1 and popping four times yields
    1, 3, 5, 8. [heap_sort] returns the values supplied to it in
    non-decreasing order, for every [heapify] and [heappop] that meet the
    contract of the library. *)
Theorem minheap_pops_sorted (vals : list Z) :
  (∃ h outs,
     push_all empty vals = Ok h ∧
     pop_until_empty (length h) h = Ok outs ∧
     pops (length vals) h = Ok (outs, []) ∧
     Sorted Z.le outs ∧ outs ≡ₚ vals) ∧
  (push_all empty [5; 3; 8; 1] ≫= pops 4) = Ok ([1; 3; 5; 8], []) ∧
  (∀ heapify heappop,
     heapq_contract heapify heappop →
     ∃ out, heap_sort heapify heappop vals = Ok out ∧
            Sorted Z.le out ∧ out ≡ₚ vals).
Proof.
  split; [|split; [vm_compute; reflexivity|]].
  - destruct (push_all_spec vals empty heap_ok_nil)
      as (h & Hpush & Hok & Hp).
    destruct (pop_until_empty_spec (length h) h Hok)
      as (outs & H1 & H2 & H3 & H4); [done|].
    exists h, outs. split; [done|]. split; [done|].
    split; [|split; [done | by rewrite H4, Hp]].
    apply Permutation_length in Hp. simpl in Hp. by rewrite <-Hp.
  - intros heapify heappop Hc. by apply heap_sort_sorted.
Qed.

Lemma minheap_pops_sorted_witness :
  ∃ out, heap_sort heapify_by_push pop [5; 3; 8; 1] = Ok out ∧
         Sorted Z.le out ∧ out ≡ₚ [5; 3; 8; 1].
Proof.
  exact (proj2 (proj2 (minheap_pops_sorted [5; 3; 8; 1]))
           heapify_by_push pop heapify_by_push_contract).
Defined.

End heap_facts.

(** * Binary search tree: proofs *)

Section bst_facts.
Import BST.
Implicit Types t l r : tree.

Lemma all_tree_Forall P t : all_tree P t ↔ Forall P (inorder t).
Proof.
  induction t as [|l IHl v r IHr]; simpl.
  - split; [constructor | done].
  - rewrite Forall_app, Forall_cons, IHl, IHr. tauto.
Qed.

Lemma all_tree_impl (P Q : Z → Prop) t :
  (∀ x, P x → Q x) → all_tree P t → all_tree Q t.
Proof. rewrite !all_tree_Forall. intros HPQ H. by eapply Forall_impl. Qed.

Lemma all_tree_insert P t v :
  all_tree P t → P v → all_tree P (insert_bst t v).
Proof.
  induction t as [|l IHl x r IHr]; simpl; [tauto|].
  intros (Hl & Hx & Hr) Hv. case_decide; simpl; auto.
Qed.

Lemma bst_insert t v : bst t → bst (insert_bst t v).
Proof.
  induction t as [|l IHl x r IHr]; simpl; [tauto|].
  intros (Hl & Hr & Bl & Br). case_decide; simpl.
  - repeat split; auto. by apply all_tree_insert.
  - repeat split; auto. apply all_tree_insert; [done | lia].
Qed.

Lemma inorder_insert t v : inorder (insert_bst t v) ≡ₚ v :: inorder t.
Proof.
  induction t as [|l IHl x r IHr]; simpl; [done|].
  case_decide; simpl.
  - by rewrite IHl.
  - rewrite IHr, <-!Permutation_middle. apply Permutation_swap.
Qed.

Lemma foldl_insert_bst t vals :
  bst t →
  bst (foldl insert_bst t vals) ∧
  inorder (foldl insert_bst t vals) ≡ₚ inorder t ++ vals.
Proof.
  revert t. induction vals as [|v vals IH]; intros t Ht; simpl.
  - by rewrite app_nil_r.
  - destruct (IH (insert_bst t v)) as [IH1 IH2]; [by apply bst_insert|].
    split; [done|]. rewrite IH2, inorder_insert.
    by rewrite <-Permutation_middle.
Qed.

Lemma bst_build vals : bst (build vals).
Proof. by apply foldl_insert_bst. Qed.

Lemma inorder_build vals : inorder (build vals) ≡ₚ vals.
Proof. by destruct (foldl_insert_bst Leaf vals) as [_ ?]. Qed.

Lemma bst_inorder_strongly_sorted t :
  bst t → StronglySorted Z.le (inorder t).
Proof.
  induction t as [|l IHl v r IHr]; simpl; [constructor|].
  intros (Hl & Hr & Bl & Br).
  apply all_tree_Forall in Hl, Hr. rewrite Forall_forall in Hl, Hr.
  apply StronglySorted_app_2; auto.
  - intros x1 x2 H1 [->|H2]%elem_of_cons.
    + specialize (Hl _ H1). simpl in Hl. lia.
    + specialize (Hl _ H1). specialize (Hr _ H2). simpl in *. lia.
  - constructor; auto. by apply Forall_forall.
Qed.

Lemma bst_inorder_sorted t : bst t → Sorted Z.le (inorder t).
Proof. intros. by apply StronglySorted_Sorted, bst_inorder_strongly_sorted. Qed.

Lemma search_bst_elem_of t x :
  bst t → search_bst t x = true ↔ x ∈ inorder t.
Proof.
  induction t as [|l IHl v r IHr]; simpl.
  - intros _. split; [done | by intros ?%elem_of_nil].
  - intros (Hl & Hr & Bl & Br).
    apply all_tree_Forall in Hl, Hr. rewrite Forall_forall in Hl, Hr.
    rewrite elem_of_app, elem_of_cons.
    case_decide as Hv; [subst; tauto|].
    case_decide as Hlt.
    + rewrite IHl by done. split; [tauto|].
      intros [?|[?|Hin]]; [done | congruence |].
      specialize (Hr _ Hin). simpl in Hr. lia.
    + rewrite IHr by done. split; [tauto|].
      intros [Hin|[?|?]]; [| congruence | done].
      specialize (Hl _ Hin). simpl in Hl. lia.
Qed.

(** [remove_one] and membership. *)

Lemma remove_one_notin v xs : v ∉ xs → remove_one v xs = xs.
Proof.
  induction xs as [|x xs IH]; simpl; [done|].
  rewrite not_elem_of_cons. intros [? ?]. case_decide; [congruence|].
  by rewrite IH.
Qed.

Lemma remove_one_app_l v xs ys :
  v ∈ xs → remove_one v (xs ++ ys) = remove_one v xs ++ ys.
Proof.
  induction xs as [|x xs IH]; simpl; [by intros ?%elem_of_nil|].
  rewrite elem_of_cons. intros Hin. case_decide; [done|].
  rewrite IH; [done|]. destruct Hin; [congruence | done].
Qed.

Lemma remove_one_app_r v xs ys :
  v ∉ xs → remove_one v (xs ++ ys) = xs ++ remove_one v ys.
Proof.
  induction xs as [|x xs IH]; simpl; [done|].
  rewrite not_elem_of_cons. intros [? ?]. case_decide; [congruence|].
  by rewrite IH.
Qed.

Lemma remove_one_subseteq v xs x : x ∈ remove_one v xs → x ∈ xs.
Proof.
  induction xs as [|y xs IH]; simpl; [done|].
  case_decide; rewrite !elem_of_cons; [tauto|]. intros [?|?]; auto.
Qed.

Lemma elem_of_remove_one_ne v xs x :
  x ≠ v → x ∈ remove_one v xs ↔ x ∈ xs.
Proof.
  intros Hne. induction xs as [|y xs IH]; simpl; [done|].
  case_decide; rewrite !elem_of_cons; [|by rewrite IH].
  subst y. split; [auto|]. intros [?|?]; [done | auto].
Qed.

Lemma count_occ_cons v x xs :
  count_occ v (x :: xs) =
  if decide (x = v) then S (count_occ v xs) else count_occ v xs.
Proof. unfold count_occ. rewrite filter_cons. by case_decide. Qed.

Lemma count_occ_pos v xs : v ∈ xs ↔ (0 < count_occ v xs)%nat.
Proof.
  induction xs as [|x xs IH]; [unfold count_occ; simpl|].
  - split; [by intros ?%elem_of_nil | lia].
  - rewrite count_occ_cons, elem_of_cons. case_decide.
    + split; [lia | auto].
    + rewrite <-IH. split; [|auto]. intros [?|?]; [congruence | done].
Qed.

Lemma count_occ_remove_one v xs :
  count_occ v (remove_one v xs) = pred (count_occ v xs).
Proof.
  induction xs as [|x xs IH]; simpl; [done|].
  rewrite count_occ_cons. case_decide; [done|].
  rewrite count_occ_cons. by case_decide.
Qed.

Lemma count_occ_perm v xs ys : xs ≡ₚ ys → count_occ v xs = count_occ v ys.
Proof. intros H. unfold count_occ. by rewrite H. Qed.

(** Deletion. *)

Lemma inorder_leftmost l v r :
  ∃ rest, inorder (Node l v r) = leftmost l v :: rest.
Proof.
  revert v r. induction l as [|ll IHll lv lr _]; intros v r; simpl.
  - eauto.
  - destruct (IHll lv lr) as [rest Hrest]. simpl in Hrest.
    rewrite Hrest. simpl. eauto.
Qed.

Lemma delete_node_inorder t k :
  bst t → inorder (delete_node t k) = remove_one k (inorder t).
Proof.
  revert k. induction t as [|l IHl v r IHr]; intros k; simpl; [done|].
  intros (Hl & Hr & Bl & Br).
  apply all_tree_Forall in Hl, Hr. rewrite Forall_forall in Hl, Hr.
  assert (∀ x, v ≤ x → x ∉ inorder l) as Hnl.
  { intros x Hx Hin. specialize (Hl _ Hin). simpl in Hl. lia. }
  assert (∀ x, x < v → x ∉ inorder r) as Hnr.
  { intros x Hx Hin. specialize (Hr _ Hin). simpl in Hr. lia. }
  case_decide as Hlt; [|case_decide as Hgt]; simpl.
  - rewrite IHl by done.
    destruct (decide (k ∈ inorder l)) as [Hin|Hin].
    + by rewrite remove_one_app_l.
    + rewrite remove_one_app_r, (remove_one_notin _ (inorder l)) by done.
      simpl. case_decide; [lia|]. by rewrite remove_one_notin by auto.
  - rewrite IHr by done.
    rewrite remove_one_app_r by (apply Hnl; lia).
    simpl. case_decide; [lia | done].
  - assert (k = v) as -> by lia.
    rewrite remove_one_app_r by (apply Hnl; lia).
    simpl. case_decide; [|done].
    destruct l as [|ll lv lr]; [done|].
    destruct r as [|rl rv rr]; [by rewrite app_nil_r|].
    cbn [inorder]. rewrite IHr by done. cbn [inorder].
    destruct (inorder_leftmost rl rv rr) as [rest Hrest].
    cbn [inorder] in Hrest. rewrite Hrest. simpl.
    case_decide; [done | congruence].
Qed.

Lemma all_tree_delete P t k :
  bst t → all_tree P t → all_tree P (delete_node t k).
Proof.
  intros Ht. rewrite !all_tree_Forall, delete_node_inorder by done.
  rewrite !Forall_forall. intros H x Hx. by apply H, remove_one_subseteq with k.
Qed.

Lemma bst_node l v r :
  all_tree (λ x, x < v) l → all_tree (λ x, v ≤ x) r → bst l → bst r →
  bst (Node l v r).
Proof. simpl. tauto. Qed.

Lemma bst_delete t k : bst t → bst (delete_node t k).
Proof.
  revert k. induction t as [|l IHl v r IHr]; intros k; simpl; [done|].
  intros (Hl & Hr & Bl & Br).
  case_decide as Hlt; [|case_decide as Hgt]; simpl.
  - repeat split; auto. by apply all_tree_delete.
  - repeat split; auto. by apply all_tree_delete.
  - destruct l as [|ll lv lr]; [done|].
    destruct r as [|rl rv rr]; [done|].
    set (m := leftmost rl rv).
    destruct (inorder_leftmost rl rv rr) as [rest Hrest]. fold m in Hrest.
    pose proof (bst_inorder_strongly_sorted _ Br) as Hs.
    rewrite Hrest in Hs. apply StronglySorted_cons in Hs as [Hm _].
    assert (v ≤ m) as Hvm.
    { apply all_tree_Forall in Hr. rewrite Hrest in Hr.
      by apply Forall_cons in Hr as [? _]. }
    apply bst_node; auto.
    + eapply all_tree_impl; [|exact Hl]. simpl. intros; lia.
    + apply all_tree_Forall. rewrite delete_node_inorder, Hrest by done.
      simpl. case_decide; [done | congruence].
Qed.

Lemma delete_node_absent t k : k ∉ inorder t → delete_node t k = t.
Proof.
  induction t as [|l IHl v r IHr]; simpl; [done|].
  rewrite elem_of_app, elem_of_cons. intros Hk.
  case_decide; [|case_decide].
  - rewrite IHl; [done | tauto].
  - rewrite IHr; [done | tauto].
  - exfalso. apply Hk. right; left. lia.
Qed.

Lemma subtree_all_tree P p t l v r :
  subtree p t = Some (Node l v r) → all_tree P t → P v.
Proof.
  revert t. induction p as [|d p IH]; intros t; simpl.
  - intros [= ->]. simpl. tauto.
  - destruct d, t as [|tl x tr]; try done; simpl; intros ? (?&?&?); eauto.
Qed.

(** ** The claims *)

(** C4. For every sequence of values, the tree built by folding
    [insert_bst] over it satisfies the ordering invariant (left subtree
    strictly smaller, right subtree greater or equal, at every node), and
    its in-order traversal lists exactly the inserted values, in
    non-decreasing order. *)
Theorem build_bst_inorder_sorted (vals : list Z) :
  bst (build vals) ∧
  inorder (build vals) ≡ₚ vals ∧
  Sorted Z.le (inorder (build vals)).
Proof.
  split; [apply bst_build|]. split; [apply inorder_build|].
  apply bst_inorder_sorted, bst_build.
Qed.

(** C2, as stated, fails when the deleted value was inserted twice: of
    the sequence 5, 5 the root node is removed, its right child (the other
    5) becomes the tree, and 5 is still found. *)
Lemma delete_node_duplicate_still_found :
  5 ∈ [5; 5] ∧
  build [5; 5] = Node Leaf 5 (Node Leaf 5 Leaf) ∧
  delete_node (build [5; 5]) 5 = Node Leaf 5 Leaf ∧
  search_bst (delete_node (build [5; 5]) 5) 5 = true.
Proof. split; [by left|]. split; [|split]; reflexivity. Qed.

(** C2, amended. For a tree built by [insert_bst] from a sequence of
    values containing [v], after [delete_node] every other inserted value
    is still found, and [v] itself is found exactly when it was inserted
    more than once (so it is gone when it occurred once). In the
    two-children case the node takes the value [m] at the leftmost node of
    its right subtree and [m] is deleted from the right subtree; [m] is
    the first value of the right subtree in in-order, that is the in-order
    successor of the node, and in a search tree it is the minimum of the
    right subtree, the recursive call removes just that node, and the
    result is a search tree again. *)
Theorem delete_node_search (vals : list Z) (v : Z) :
  v ∈ vals →
  (search_bst (delete_node (build vals) v) v = true ↔
     (2 ≤ count_occ v vals)%nat) ∧
  ((count_occ v vals = 1)%nat →
     search_bst (delete_node (build vals) v) v = false) ∧
  (∀ w, w ∈ vals → w ≠ v →
     search_bst (delete_node (build vals) v) w = true) ∧
  (∀ ll lv lr rl rv rr,
     let l := Node ll lv lr in
     let r := Node rl rv rr in
     let m := leftmost rl rv in
     delete_node (Node l v r) v = Node l m (delete_node r m) ∧
     ∃ rest,
       inorder r = m :: rest ∧
       inorder (Node l v r) = inorder l ++ v :: m :: rest ∧
       (bst (Node l v r) →
          Forall (Z.le m) (inorder r) ∧ v ≤ m ∧
          inorder (delete_node r m) = rest ∧
          inorder (delete_node (Node l v r) v) = inorder l ++ m :: rest ∧
          bst (delete_node (Node l v r) v))).
Proof.
  intros Hv.
  pose proof (bst_build vals) as Hb.
  pose proof (inorder_build vals) as Hp.
  assert (search_bst (delete_node (build vals) v) v = true ↔
          (2 ≤ count_occ v vals)%nat) as Hiff.
  { rewrite search_bst_elem_of by by apply bst_delete.
    rewrite delete_node_inorder by done.
    rewrite count_occ_pos, count_occ_remove_one.
    rewrite (count_occ_perm _ _ _ Hp). lia. }
  split; [done|]. split; [|split].
  - intros H1. apply not_true_is_false. rewrite Hiff. lia.
  - intros w Hw Hne.
    rewrite search_bst_elem_of by by apply bst_delete.
    rewrite delete_node_inorder by done.
    rewrite elem_of_remove_one_ne by done. by rewrite Hp.
  - intros ll lv lr rl rv rr l r m.
    assert (delete_node (Node l v r) v = Node l m (delete_node r m)) as Hdel.
    { subst l r m. simpl. case_decide; [lia|]. case_decide; [lia | done]. }
    split; [done|].
    destruct (inorder_leftmost rl rv rr) as [rest Hrest].
    fold r m in Hrest. exists rest. split; [done|].
    split; [change (inorder (Node l v r)) with (inorder l ++ v :: inorder r);
            by rewrite Hrest|].
    intros Hbst. pose proof Hbst as (Hl & Hr & Bl & Br).
    apply all_tree_Forall in Hr.
    pose proof (bst_inorder_strongly_sorted r Br) as Hs.
    rewrite Hrest in Hs, Hr.
    apply StronglySorted_inv in Hs as [_ Hfa].
    apply Forall_cons in Hr as [Hvm _].
    assert (inorder (delete_node r m) = rest) as Hdr.
    { rewrite delete_node_inorder by done. rewrite Hrest.
      cbn [remove_one]. by rewrite decide_True. }
    split; [rewrite Hrest; constructor; [lia | done]|].
    split; [done|]. split; [done|]. split.
    + rewrite Hdel.
      change (inorder (Node l m (delete_node r m)))
        with (inorder l ++ m :: inorder (delete_node r m)).
      by rewrite Hdr.
    + by apply bst_delete.
Qed.

Lemma delete_node_search_witness :
  search_bst (delete_node (build [5; 3; 8; 7; 10; 9]) 8) 8 = false ∧
  search_bst (delete_node (build [5; 3; 8; 7; 10; 9]) 8) 9 = true ∧
  delete_node (Node (Node Leaf 7 Leaf) 8 (Node (Node Leaf 9 Leaf) 10 Leaf)) 8
  = Node (Node Leaf 7 Leaf) 9 (delete_node (Node (Node Leaf 9 Leaf) 10 Leaf) 9).
Proof.
  assert (8 ∈ [5; 3; 8; 7; 10; 9]) as H by (do 2 right; left).
  destruct (delete_node_search [5; 3; 8; 7; 10; 9] 8 H)
    as (_ & H1 & H2 & H3).
  split; [|split].
  - apply H1. reflexivity.
  - apply H2; [do 5 right; left | lia].
  - apply (H3 Leaf 7 Leaf (Node Leaf 9 Leaf) 10 Leaf).
Defined.

(** C7. In a search tree, inserting a value equal to the value of a node
    leaves that node and its left subtree in place and puts the new node
    into its right subtree: at the node's position the tree after the
    insertion has the same value, the same left subtree, and the right
    subtree with the value inserted. [insert_bst] returns the root of the
    tree: a new node for the empty tree, the same root node otherwise. *)
Theorem insert_bst_duplicate_right (root : tree) (v : Z) p l r :
  bst root →
  subtree p root = Some (Node l v r) →
  subtree p (insert_bst root v) = Some (Node l v (insert_bst r v)) ∧
  inorder (insert_bst r v) ≡ₚ v :: inorder r ∧
  root_val (insert_bst root v) = root_val root ∧
  insert_bst Leaf v = Node Leaf v Leaf.
Proof.
  intros Hb Hs. split; [|split; [apply inorder_insert|split; [|done]]].
  - revert root Hb Hs. induction p as [|d p IH]; intros t Hb; simpl.
    + intros [= ->]. simpl. case_decide; [lia | done].
    + destruct t as [|tl x tr]; [by destruct d|].
      destruct Hb as (Hl & Hr & Bl & Br).
      destruct d; intros Hs; simpl.
      * pose proof (subtree_all_tree _ _ _ _ _ _ Hs Hl) as Hlt. simpl in Hlt.
        case_decide; [|lia]. simpl. by apply IH.
      * pose proof (subtree_all_tree _ _ _ _ _ _ Hs Hr) as Hge. simpl in Hge.
        case_decide; [lia|]. simpl. by apply IH.
  - destruct root as [|tl x tr]; [by destruct p as [|[] ?]|].
    simpl. by case_decide.
Qed.

Lemma insert_bst_duplicate_right_witness :
  subtree [L] (insert_bst (build [5; 3; 8]) 3) =
    Some (Node Leaf 3 (Node Leaf 3 Leaf)).
Proof.
  refine (proj1 (insert_bst_duplicate_right
                   (build [5; 3; 8]) 3 [L] Leaf Leaf _ _)).
  - apply bst_build.
  - reflexivity.
Defined.

(** C10. Deleting a key that is not in the tree returns the tree as it
    was: in particular its in-order sequence of values is unchanged. *)
Theorem delete_node_absent_inorder (root : tree) (k : Z) :
  k ∉ inorder root →
  delete_node root k = root ∧
  inorder (delete_node root k) = inorder root.
Proof. intros H. by rewrite delete_node_absent. Qed.

Lemma delete_node_absent_inorder_witness :
  inorder (delete_node (build [5; 3; 8]) 4) = [3; 5; 8].
Proof.
  refine (proj2 (delete_node_absent_inorder (build [5; 3; 8]) 4 _)).
  change (inorder (build [5; 3; 8])) with [3; 5; 8].
  repeat (apply not_elem_of_cons; split; [lia|]). apply not_elem_of_nil.
Defined.

End bst_facts.

(** * Union-find: proofs *)

Section uf_facts.
Import UnionFind.
Local Open Scope nat_scope.
Implicit Types p : list nat.
Implicit Types s : uf.

(** Paths. *)

Lemma path_head p x l r : path p x l r → ∃ l', l = x :: l'.
Proof. destruct 1; eauto. Qed.

Lemma path_det p x l r l' r' :
  path p x l r → path p x l' r' → l = l' ∧ r = r'.
Proof.
  intros H. revert l' r'.
  induction H as [x Hx|x y l r Hx Hne _ IH]; intros l' r' H'.
  - inversion H'; simplify_eq; done.
  - inversion H'; simplify_eq.
    destruct (IH _ _ ltac:(eassumption)) as [-> ->]. done.
Qed.

Lemma path_root_lookup p x l r : path p x l r → p !! r = Some r.
Proof. induction 1; done. Qed.

Lemma path_root_elem p x l r : path p x l r → r ∈ l.
Proof. induction 1; [by left | by right]. Qed.

Lemma path_lt p x l r y : path p x l r → y ∈ l → y < length p.
Proof.
  induction 1 as [x Hx|x z l r Hx Hne _ IH].
  - intros ->%list_elem_of_singleton. by eapply lookup_lt_Some.
  - intros [->|Hy]%elem_of_cons; [by eapply lookup_lt_Some | auto].
Qed.

Lemma path_suffix p x l r y :
  path p x l r → y ∈ l →
  ∃ l', path p y l' r ∧ length l' ≤ length l.
Proof.
  induction 1 as [x Hx|x z l r Hx Hne Hp IH].
  - intros Hy%list_elem_of_singleton. subst.
    eexists. split; [by constructor | done].
  - intros [Hy|Hy]%elem_of_cons.
    + subst. eexists. split; [by econstructor | done].
    + destruct (IH Hy) as (l' & Hl' & Hlen).
      exists l'. split; [done | simpl; lia].
Qed.

Lemma path_NoDup p x l r : path p x l r → NoDup l.
Proof.
  induction 1 as [x Hx|x z l r Hx Hne Hp IH].
  - apply NoDup_singleton.
  - apply NoDup_cons. split; [|done]. intros Hin.
    destruct (path_suffix _ _ _ _ _ Hp Hin) as (l' & Hl' & Hlen).
    assert (path p x (x :: l) r) as Hfull by by econstructor.
    destruct (path_det _ _ _ _ _ _ Hl' Hfull) as [-> _].
    simpl in Hlen. lia.
Qed.

Lemma path_length p x l r : path p x l r → length l ≤ length p.
Proof.
  intros Hp.
  rewrite <-(length_seq (length p) 0).
  apply submseteq_length, NoDup_submseteq; [by eapply path_NoDup|].
  intros y Hy. apply elem_of_seq. split; [lia|].
  simpl. by eapply path_lt.
Qed.

Lemma path_root_of_root p x l r :
  path p x l r → p !! x = Some x → l = [x] ∧ r = x.
Proof.
  intros Hp Hx. eapply path_det; [done|]. by constructor.
Qed.

(** A root on the path is the root of the path. *)
Lemma path_elem_root p x l r y :
  path p x l r → y ∈ l → p !! y = Some y → y = r.
Proof.
  intros Hp Hy Hroot.
  destruct (path_suffix _ _ _ _ _ Hp Hy) as (l' & Hl' & _).
  by destruct (path_root_of_root _ _ _ _ Hl' Hroot) as [_ ->].
Qed.

(** Path compression. *)

Lemma compress_length r l p : length (compress r l p) = length p.
Proof.
  induction l as [|y l IH]; simpl; [done|]. by rewrite length_insert.
Qed.

Lemma compress_lookup r l p y :
  (∀ z, z ∈ l → z < length p) →
  compress r l p !! y = if decide (y ∈ l) then Some r else p !! y.
Proof.
  induction l as [|z l IH]; intros Hl; simpl.
  - by destruct (decide (y ∈ [])) as [?%elem_of_nil|].
  - fold (compress r l p). destruct (decide (z = y)) as [->|Hne].
    + rewrite list_lookup_insert_eq.
      * rewrite decide_True; [done | by left].
      * rewrite compress_length. apply Hl. by left.
    + rewrite list_lookup_insert_ne by done.
      rewrite IH by (intros; apply Hl; by right).
      destruct (decide (y ∈ l)) as [Hy|Hy].
      * rewrite decide_True; [done | by right].
      * rewrite decide_False; [done|].
        rewrite not_elem_of_cons. split; [congruence | done].
Qed.

Lemma path_compress_lookup p x l r y :
  path p x l r →
  compress r l p !! y = if decide (y ∈ l) then Some r else p !! y.
Proof. intros Hp. apply compress_lookup. intros z. by eapply path_lt. Qed.

(** Compression keeps the root of every element. *)
Lemma path_compress p x l r y ly ry :
  path p x l r → path p y ly ry →
  ∃ ly', path (compress r l p) y ly' ry.
Proof.
  intros Hx. pose proof (path_root_lookup _ _ _ _ Hx) as Hr.
  pose proof (path_root_elem _ _ _ _ Hx) as Hrl.
  assert (path (compress r l p) r [r] r) as Hroot.
  { constructor. rewrite (path_compress_lookup _ _ _ _ _ Hx).
    by rewrite decide_True. }
  induction 1 as [y Hy|y z ly ry Hy Hne Hp IH].
  - exists [y]. constructor.
    rewrite (path_compress_lookup _ _ _ _ _ Hx). case_decide as Hin; [|done].
    by rewrite (path_elem_root _ _ _ _ _ Hx Hin Hy).
  - destruct IH as (lz' & Hz').
    destruct (decide (y ∈ l)) as [Hin|Hin].
    + destruct (path_suffix _ _ _ _ _ Hx Hin) as (l' & Hl' & _).
      assert (path p y (y :: ly) ry) as Hfull by by econstructor.
      destruct (path_det _ _ _ _ _ _ Hl' Hfull) as [_ ->].
      assert (ry ≠ y) as Hry by (intros ->; congruence).
      exists [y; ry]. econstructor; [|done..].
      rewrite (path_compress_lookup _ _ _ _ _ Hx). by rewrite decide_True.
    + exists (y :: lz'). econstructor; [|done..].
      rewrite (path_compress_lookup _ _ _ _ _ Hx). by rewrite decide_False.
Qed.

(** [find] returns the root and compresses the path. *)

Lemma find_loop_unfold fuel s x :
  find_loop (S fuel) s x =
    px ← getitem (parent s) x;
    s ←
      (if decide (px ≠ x) then
         '(r, s) ← find_loop fuel s px;
         p ← setitem (parent s) x r;
         Ok {| parent := p; rank := rank s |}
       else Ok s);
    r ← getitem (parent s) x;
    Ok (r, s).
Proof. done. Qed.

Lemma find_loop_spec fuel s x l r :
  path (parent s) x l r → length l ≤ fuel →
  find_loop fuel s x =
    Ok (r, {| parent := compress r l (parent s); rank := rank s |}).
Proof.
  intros Hp. revert fuel.
  induction Hp as [x Hx|x y l r Hx Hne Hp IH]; intros fuel Hf;
    (destruct fuel as [|fuel]; [simpl in Hf; lia|]);
    rewrite find_loop_unfold, (getitem_lookup _ _ _ Hx), bind_Ok.
  - rewrite decide_False by (intros H; by apply H).
    rewrite bind_Ok, (getitem_lookup _ _ _ Hx), bind_Ok.
    simpl. rewrite list_insert_id by done. by destruct s.
  - rewrite decide_True by done.
    rewrite IH by (simpl in Hf; lia). rewrite bind_Ok. cbv beta iota.
    cbn [parent rank].
    rewrite setitem_lt
      by (rewrite compress_length; by eapply lookup_lt_Some).
    rewrite !bind_Ok. cbn [parent rank].
    erewrite getitem_lookup; [by rewrite bind_Ok|].
    apply list_lookup_insert_eq.
    rewrite compress_length. by eapply lookup_lt_Some.
Qed.

Lemma find_spec s x l r :
  path (parent s) x l r →
  find s x = Ok (r, {| parent := compress r l (parent s); rank := rank s |}).
Proof.
  intros Hp. apply find_loop_spec; [done|].
  apply path_length in Hp. lia.
Qed.

Lemma find_Ok_lt s x r s' : find s x = Ok (r, s') → x < length (parent s).
Proof.
  unfold find. rewrite find_loop_unfold.
  destruct (decide (x < length (parent s))) as [|Hge]; [done|].
  rewrite getitem_ge by lia. done.
Qed.

(** Roots. *)

Lemma root_of_det p x r r' : root_of p x r → root_of p x r' → r = r'.
Proof. intros [l Hl] [l' Hl']. by destruct (path_det _ _ _ _ _ _ Hl Hl'). Qed.

Lemma root_of_root p r : p !! r = Some r → root_of p r r.
Proof. intros. exists [r]. by constructor. Qed.

Lemma root_of_is_root p x r : root_of p x r → p !! r = Some r.
Proof. intros [l Hl]. by eapply path_root_lookup. Qed.

Lemma root_of_lt p x r : root_of p x r → x < length p ∧ r < length p.
Proof.
  intros [l Hl]. split.
  - destruct (path_head _ _ _ _ Hl) as [l' ->].
    eapply path_lt; [done | by left].
  - eapply path_lt; [done | by eapply path_root_elem].
Qed.

Lemma root_of_compress p x l r y ry :
  path p x l r → root_of p y ry → root_of (compress r l p) y ry.
Proof. intros Hx [ly Hy]. by eapply path_compress. Qed.

Lemma same_root_iff p a b ra rb :
  root_of p a ra → root_of p b rb → same_root p a b ↔ ra = rb.
Proof.
  intros Ha Hb. split.
  - intros (r & Ha' & Hb').
    by rewrite (root_of_det _ _ _ _ Ha Ha'), (root_of_det _ _ _ _ Hb Hb').
  - intros ->. by exists rb.
Qed.

Lemma same_root_sym p a b : same_root p a b → same_root p b a.
Proof. intros (r & ? & ?). by exists r. Qed.

Lemma same_root_trans p a b c :
  same_root p a b → same_root p b c → same_root p a c.
Proof.
  intros (r & Ha & Hb) (r' & Hb' & Hc). exists r. split; [done|].
  by rewrite (root_of_det _ _ _ _ Hb Hb').
Qed.

(** Linking the root [l] under the root [w]. *)
Lemma root_of_link p w l z rz :
  p !! w = Some w → p !! l = Some l → w ≠ l →
  root_of p z rz →
  root_of (<[l:=w]> p) z (if decide (rz = l) then w else rz).
Proof.
  intros Hw Hl Hne [lz Hz].
  assert (l < length p) as Hlen by by eapply lookup_lt_Some.
  assert (path (<[l:=w]> p) w [w] w) as Hwroot.
  { constructor. by rewrite list_lookup_insert_ne. }
  induction Hz as [z Hz|z y lz rz Hz Hzy Hp IH].
  - case_decide as Hzl.
    + subst z. exists [l; w]. econstructor; [|done..].
      by apply list_lookup_insert_eq.
    + apply root_of_root. by rewrite list_lookup_insert_ne.
  - destruct IH as [ly Hy]. eexists. econstructor; [|done..].
    rewrite list_lookup_insert_ne; [done|]. intros ->. congruence.
Qed.

(** Well-formed states. *)

Lemma init_wf n : uf_wf n (init n).
Proof.
  unfold uf_wf, init. simpl.
  rewrite length_seq, length_replicate. split; [done|]. split; [done|].
  intros x Hx. exists x. apply root_of_root. by apply lookup_seq_lt.
Qed.

Lemma find_wf n s x :
  uf_wf n s → x < n →
  ∃ l r s',
    path (parent s) x l r ∧
    find s x = Ok (r, s') ∧
    parent s' = compress r l (parent s) ∧ rank s' = rank s ∧
    uf_wf n s' ∧
    (∀ y ry, root_of (parent s') y ry ↔ root_of (parent s) y ry).
Proof.
  intros (Hlp & Hlr & Hroots) Hx.
  destruct (Hroots x Hx) as (r & l & Hp).
  exists l, r, {| parent := compress r l (parent s); rank := rank s |}.
  split; [done|]. split; [by apply find_spec|].
  split; [done|]. split; [done|].
  assert (∀ y ry, root_of (parent s) y ry →
            root_of (compress r l (parent s)) y ry) as Hfwd.
  { intros y ry. by apply (root_of_compress _ x). }
  split; [|split; [|by apply Hfwd]].
  - split; [by rewrite <-Hlp; apply compress_length|]. split; [done|].
    intros y Hy. destruct (Hroots y Hy) as (ry & Hry). eauto.
  - cbn [parent]. intros Hry.
    assert (y < n) as Hy.
    { apply root_of_lt in Hry as [Hy _].
      by rewrite compress_length, Hlp in Hy. }
    destruct (Hroots y Hy) as (ry' & Hry').
    by rewrite (root_of_det _ _ _ _ Hry (Hfwd _ _ Hry')).
Qed.

Lemma find_Ok_wf n s x r s' :
  uf_wf n s → find s x = Ok (r, s') → uf_wf n s'.
Proof.
  intros Hwf Hfind. pose proof Hwf as (Hlp & _).
  apply find_Ok_lt in Hfind as Hx. rewrite Hlp in Hx.
  destruct (find_wf n s x Hwf Hx) as (l & r' & s'' & _ & Hf & _ & _ & Hwf' & _).
  rewrite Hf in Hfind. by simplify_eq.
Qed.

Lemma link_wf n s w l rk :
  uf_wf n s →
  parent s !! w = Some w → parent s !! l = Some l → w ≠ l →
  length rk = n →
  uf_wf n {| parent := <[l:=w]> (parent s); rank := rk |} ∧
  ∀ z rz, root_of (parent s) z rz →
          root_of (<[l:=w]> (parent s)) z (if decide (rz = l) then w else rz).
Proof.
  intros (Hlp & Hlr & Hroots) Hw Hl Hne Hrk.
  assert (∀ z rz, root_of (parent s) z rz →
            root_of (<[l:=w]> (parent s)) z
              (if decide (rz = l) then w else rz)) as Hlink.
  { intros z rz. by apply root_of_link. }
  split; [|done].
  split; [by cbn [parent]; rewrite length_insert|]. split; [done|].
  intros z Hz. destruct (Hroots z Hz) as (rz & Hrz). eauto.
Qed.

(** The classes after a link are the classes before it, with the classes
    of the two linked roots merged. *)
Lemma same_root_link n p p' w l x y rx ry :
  (∀ z, z < n → ∃ r, root_of p z r) →
  (∀ z rz, root_of p z rz →
           root_of p' z (if decide (rz = l) then w else rz)) →
  root_of p x rx → root_of p y ry →
  (w = rx ∧ l = ry ∨ w = ry ∧ l = rx) →
  ∀ a c, a < n → c < n →
    same_root p' a c ↔
      same_root p a c ∨
      (same_root p a x ∧ same_root p y c) ∨
      (same_root p a y ∧ same_root p x c).
Proof.
  intros Hroots Hmap Hx Hy Hwl a c Ha Hc.
  destruct (Hroots a Ha) as (ra & Hra). destruct (Hroots c Hc) as (rc & Hrc).
  rewrite (same_root_iff p' a c _ _ (Hmap _ _ Hra) (Hmap _ _ Hrc)).
  rewrite (same_root_iff p a c _ _ Hra Hrc).
  rewrite (same_root_iff p a x _ _ Hra Hx), (same_root_iff p y c _ _ Hy Hrc).
  rewrite (same_root_iff p a y _ _ Hra Hy), (same_root_iff p x c _ _ Hx Hrc).
  repeat case_decide; destruct Hwl as [[-> ->]|[-> ->]]; split;
    intros; simplify_eq; try tauto; intuition congruence.
Qed.

Lemma union_spec n s x y :
  uf_wf n s → x < n → y < n →
  ∃ b s',
    union s x y = Ok (b, s') ∧ uf_wf n s' ∧
    (b = false ↔ same_root (parent s) x y) ∧
    ∀ a c, a < n → c < n →
      same_root (parent s') a c ↔
        same_root (parent s) a c ∨
        (same_root (parent s) a x ∧ same_root (parent s) y c) ∨
        (same_root (parent s) a y ∧ same_root (parent s) x c).
Proof.
  intros Hwf Hx Hy.
  destruct (find_wf n s x Hwf Hx)
    as (lx & rx & s1 & Hpx & Hfx & _ & Hrk1 & Hwf1 & Hroots1).
  destruct (find_wf n s1 y Hwf1 Hy)
    as (ly & ry & s2 & Hpy & Hfy & _ & Hrk2 & Hwf2 & Hroots2).
  assert (∀ z rz, root_of (parent s2) z rz ↔ root_of (parent s) z rz)
    as Hroots.
  { intros z rz. by rewrite Hroots2, Hroots1. }
  assert (∀ a c, same_root (parent s2) a c ↔ same_root (parent s) a c)
    as Hsame.
  { intros a c. unfold same_root.
    split; intros (r & Ha & Hc); exists r; split; by apply Hroots. }
  assert (root_of (parent s) x rx) as Hrx by by exists lx.
  assert (root_of (parent s) y ry) as Hry by (apply Hroots1; by exists ly).
  pose proof Hwf2 as (Hlp2 & Hlr2 & Hall2).
  unfold union. rewrite Hfx, bind_Ok. cbv beta iota.
  rewrite Hfy, bind_Ok. cbv beta iota.
  destruct (decide (rx = ry)) as [Heq|Hne].
  { exists false, s2. split; [done|]. split; [done|]. split.
    - split; [intros _; by apply (same_root_iff _ _ _ _ _ Hrx Hry) | done].
    - intros a c Ha Hc. rewrite Hsame.
      apply (same_root_iff _ _ _ _ _ Hrx Hry) in Heq as Hxy.
      split; [tauto|]. intros [?|[[Hax Hyc]|[Hay Hxc]]]; [done|..].
      + eauto using same_root_trans.
      + eauto using same_root_trans, same_root_sym. }
  assert (root_of (parent s2) x rx) as Hrx2 by by apply Hroots.
  assert (root_of (parent s2) y ry) as Hry2 by by apply Hroots.
  pose proof (root_of_is_root _ _ _ Hrx2) as Hrootx.
  pose proof (root_of_is_root _ _ _ Hry2) as Hrooty.
  apply root_of_lt in Hrx2 as Hltx. apply root_of_lt in Hry2 as Hlty.
  rewrite !getitem_lt by lia. rewrite !bind_Ok.
  assert (∀ b w l rk,
            (w = rx ∧ l = ry ∨ w = ry ∧ l = rx) → length rk = n →
            ∃ b' s', Ok (b, {| parent := <[l:=w]> (parent s2); rank := rk |})
                     = Ok (b', s') ∧ uf_wf n s' ∧
              (b = false ↔ b' = false) ∧
              ∀ a c, a < n → c < n →
                same_root (parent s') a c ↔
                  same_root (parent s) a c ∨
                  (same_root (parent s) a x ∧ same_root (parent s) y c) ∨
                  (same_root (parent s) a y ∧ same_root (parent s) x c))
    as Hlink.
  { intros b w l rk Hwl Hrk.
    destruct (link_wf n s2 w l rk Hwf2) as [Hwf' Hmap];
      [by destruct Hwl as [[-> ->]|[-> ->]]..
      | destruct Hwl as [[-> ->]|[-> ->]]; congruence | done |].
    eexists _, _. split; [done|]. split; [done|]. split; [done|].
    intros a c Ha Hc. cbn [parent].
    rewrite (same_root_link n (parent s2) _ w l x y rx ry Hall2 Hmap
               Hrx2 Hry2 Hwl a c Ha Hc).
    by rewrite !Hsame. }
  assert (¬ same_root (parent s) x y) as Hnxy.
  { by rewrite (same_root_iff _ _ _ _ _ Hrx Hry). }
  case_decide as Hlt; [|case_decide as Hgt].
  - rewrite setitem_lt by lia. rewrite bind_Ok.
    destruct (Hlink true ry rx (rank s2)) as (b' & s' & [= <- <-] & ? & ? & ?);
      [tauto | done |].
    eexists _, _. split; [done|]. split; [done|]. split; [|done].
    split; [done | tauto].
  - rewrite setitem_lt by lia. rewrite bind_Ok.
    destruct (Hlink true rx ry (rank s2)) as (b' & s' & [= <- <-] & ? & ? & ?);
      [tauto | done |].
    eexists _, _. split; [done|]. split; [done|]. split; [|done].
    split; [done | tauto].
  - rewrite setitem_lt by lia. rewrite !bind_Ok.
    rewrite setitem_lt by lia. rewrite bind_Ok.
    destruct (Hlink true rx ry (<[rx:=(rank s2 !!! rx) + 1]> (rank s2)))
      as (b' & s' & [= <- <-] & ? & ? & ?);
      [tauto | by rewrite length_insert |].
    eexists _, _. split; [done|]. split; [done|]. split; [|done].
    split; [done | tauto].
Qed.

Lemma union_Ok_wf n s x y b s' :
  uf_wf n s → union s x y = Ok (b, s') → uf_wf n s'.
Proof.
  intros Hwf Hu.
  assert (x < n ∧ y < n) as [Hx Hy].
  { revert Hu. unfold union.
    destruct (find s x) as [[px s1]| |] eqn:Hfx; try done.
    rewrite bind_Ok. cbv beta iota.
    destruct (find s1 y) as [[py s2]| |] eqn:Hfy; try done.
    intros _. pose proof (find_Ok_wf _ _ _ _ _ Hwf Hfx) as (Hl1 & _).
    pose proof Hwf as (Hl & _).
    apply find_Ok_lt in Hfx, Hfy. lia. }
  destruct (union_spec n s x y Hwf Hx Hy) as (b' & s'' & Hu' & Hwf' & _).
  rewrite Hu' in Hu. by simplify_eq.
Qed.

Lemma reachable_wf n s : reachable n s → uf_wf n s.
Proof.
  induction 1 as [|s x r s' _ IH Hf|s x y b s' _ IH Hu].
  - apply init_wf.
  - by eapply find_Ok_wf.
  - by eapply union_Ok_wf.
Qed.

Lemma unions_reachable n s pairs s' :
  reachable n s → unions s pairs = Ok s' → reachable n s'.
Proof.
  revert s. induction pairs as [|[x y] pairs IH]; intros s Hs; simpl.
  - by intros [= <-].
  - destruct (union s x y) as [[b s1]| |] eqn:Hu; try done.
    rewrite bind_Ok. apply IH. by eapply reachable_union.
Qed.

(** Connectedness. *)

Lemma connected_mono ps ps' a b :
  (∀ q, q ∈ ps → q ∈ ps') → connected ps a b → connected ps' a b.
Proof.
  intros Hsub. unfold connected.
  apply (rtsc_congruence (λ x : nat, x)). intros x y. apply Hsub.
Qed.

Lemma connected_snoc ps x y a b :
  connected (ps ++ [(x, y)]) a b ↔
    connected ps a b ∨
    (connected ps a x ∧ connected ps y b) ∨
    (connected ps a y ∧ connected ps x b).
Proof.
  assert (Equivalence (connected ps)) as [Hrefl Hsym Htrans]
    by apply rtsc_equivalence.
  assert (connected (ps ++ [(x, y)]) x y) as Hxy.
  { apply rtsc_lr, elem_of_app. right. by left. }
  assert (∀ a b, connected ps a b → connected (ps ++ [(x, y)]) a b) as Hmono.
  { intros a' b'. apply connected_mono. intros q Hq.
    apply elem_of_app. by left. }
  split.
  - unfold connected at 1, rtsc. revert b. apply rtc_ind_r; [by left|].
    intros b' b _ Hstep IH.
    assert (connected ps b' b ∨ (b' = x ∧ b = y) ∨ (b' = y ∧ b = x)) as Hs.
    { destruct Hstep as [Hin|Hin];
        apply elem_of_app in Hin as [Hin|Hin%list_elem_of_singleton].
      - left. by apply rtsc_lr.
      - right; left. by simplify_eq.
      - left. by apply rtsc_rl.
      - right; right. by simplify_eq. }
    destruct Hs as [Hs|[[-> ->]|[-> ->]]];
      destruct IH as [IH|[[IH1 IH2]|[IH1 IH2]]]; eauto 7.
  - assert (Equivalence (connected (ps ++ [(x, y)]))) as [_ Hsym' Htrans']
      by apply rtsc_equivalence.
    intros [H|[[H1 H2]|[H1 H2]]]; eauto 8.
Qed.

Lemma connected_nil a b : connected [] a b ↔ a = b.
Proof.
  split; [|by intros ->].
  unfold connected, rtsc. induction 1 as [|a b c [Hab|Hab] _ _]; [done|..];
    by apply elem_of_nil in Hab.
Qed.

Lemma init_same_root n a c :
  a < n → c < n → same_root (parent (init n)) a c ↔ connected [] a c.
Proof.
  intros Ha Hc. rewrite connected_nil.
  apply same_root_iff; apply root_of_root; by apply lookup_seq_lt.
Qed.

Definition in_range (n : nat) (pairs : list (nat * nat)) : Prop :=
  ∀ x y, (x, y) ∈ pairs → x < n ∧ y < n.

Lemma unions_spec n pairs s prev :
  uf_wf n s → in_range n pairs →
  (∀ a c, a < n → c < n →
     same_root (parent s) a c ↔ connected prev a c) →
  ∃ s', unions s pairs = Ok s' ∧ uf_wf n s' ∧
    ∀ a c, a < n → c < n →
      same_root (parent s') a c ↔ connected (prev ++ pairs) a c.
Proof.
  revert s prev. induction pairs as [|[x y] pairs IH];
    intros s prev Hwf Hrange Hinv.
  - exists s. rewrite app_nil_r. done.
  - destruct (Hrange x y) as [Hx Hy]; [by left|].
    destruct (union_spec n s x y Hwf Hx Hy) as (b & s1 & Hu & Hwf1 & _ & Hs1).
    destruct (IH s1 (prev ++ [(x, y)]) Hwf1) as (s' & Hus & Hwf' & Hs').
    + intros x' y' Hin. apply Hrange. by right.
    + intros a c Ha Hc. rewrite Hs1, connected_snoc by done.
      by rewrite !Hinv.
    + exists s'. cbn [unions]. rewrite Hu, bind_Ok. cbv beta iota.
      split; [done|]. split; [done|].
      intros a c Ha Hc. rewrite Hs' by done. by rewrite <-app_assoc.
Qed.

Lemma same_set_spec n s a b :
  uf_wf n s → a < n → b < n →
  ∃ v s', same_set s a b = Ok (v, s') ∧ uf_wf n s' ∧
          (v = true ↔ same_root (parent s) a b).
Proof.
  intros Hwf Ha Hb.
  destruct (find_wf n s a Hwf Ha)
    as (la & ra & s1 & Hpa & Hfa & _ & _ & Hwf1 & Hroots1).
  destruct (find_wf n s1 b Hwf1 Hb)
    as (lb & rb & s2 & Hpb & Hfb & _ & _ & Hwf2 & _).
  exists (bool_decide (ra = rb)), s2.
  unfold same_set. rewrite Hfa, bind_Ok. cbv beta iota.
  rewrite Hfb, bind_Ok. split; [done|]. split; [done|].
  rewrite bool_decide_eq_true. symmetry. apply same_root_iff.
  - by exists la.
  - apply Hroots1. by exists lb.
Qed.

(** ** The claims *)

(** C3. For [UnionFind(n)] and every sequence of [union] calls on
    elements below [n], the calls succeed, and for all elements [a] and
    [b] below [n] the comparison [find(a) == find(b)] is true exactly
    when [a] and [b] are connected by the pairs given to [union]; with
    five elements, after [union(0,1)] and [union(1,2)], it is true of 0
    and 2 and false of 0 and 3. *)
Theorem unions_same_set_connected n pairs :
  in_range n pairs →
  (∃ s, unions (init n) pairs = Ok s ∧
     ∀ a b, a < n → b < n →
       ∃ v s', same_set s a b = Ok (v, s') ∧
               (v = true ↔ connected pairs a b)) ∧
  (∃ s, unions (init 5) [(0, 1); (1, 2)] = Ok s ∧
     (∃ s', same_set s 0 2 = Ok (true, s')) ∧
     (∃ s', same_set s 0 3 = Ok (false, s'))).
Proof.
  intros Hrange. split.
  - destruct (unions_spec n pairs (init n) [] (init_wf n) Hrange)
      as (s & Hu & Hwf & Hs); [by apply init_same_root|].
    exists s. split; [done|]. intros a b Ha Hb.
    destruct (same_set_spec n s a b Hwf Ha Hb) as (v & s' & Hv & _ & Hiff).
    exists v, s'. split; [done|]. rewrite Hiff. by apply Hs.
  - eexists. split; [vm_compute; reflexivity|].
    split; eexists; vm_compute; reflexivity.
Qed.

Lemma unions_same_set_connected_witness :
  ∃ s, unions (init 4) [(0, 1); (2, 3); (0, 2)] = Ok s ∧
    ∀ a b, a < 4 → b < 4 →
      ∃ v s', same_set s a b = Ok (v, s') ∧
              (v = true ↔ connected [(0, 1); (2, 3); (0, 2)] a b).
Proof.
  refine (proj1 (unions_same_set_connected 4 [(0, 1); (2, 3); (0, 2)] _)).
  intros x y Hin. rewrite !elem_of_cons in Hin.
  destruct Hin as [Hin|[Hin|[Hin|Hin]]];
    [injection Hin as -> ->; lia.. | by apply elem_of_nil in Hin].
Defined.

(** C8. In every state reachable from [UnionFind(n)] by [find] and
    [union] calls, the parent links lead from every element to a root;
    [find] returns that root, leaves every visited element with the root
    as its parent, leaves the other elements and the ranks as they were,
    and changes the root of no element. *)
Theorem find_compresses_path n s x :
  reachable n s → x < n →
  ∃ l r s',
    path (parent s) x l r ∧ parent s !! r = Some r ∧
    find s x = Ok (r, s') ∧
    reachable n s' ∧
    (∀ y, y ∈ l → parent s' !! y = Some r) ∧
    (∀ y, y ∉ l → parent s' !! y = parent s !! y) ∧
    rank s' = rank s ∧
    (∀ y ry, root_of (parent s') y ry ↔ root_of (parent s) y ry) ∧
    (∀ a b, same_root (parent s') a b ↔ same_root (parent s) a b).
Proof.
  intros Hreach Hx. pose proof (reachable_wf n s Hreach) as Hwf.
  destruct (find_wf n s x Hwf Hx)
    as (l & r & s' & Hp & Hf & Hpar & Hrk & Hwf' & Hroots).
  exists l, r, s'. split; [done|].
  split; [by eapply path_root_lookup|]. split; [done|].
  split; [by eapply reachable_find|].
  split; [|split; [|split; [done|split; [done|]]]].
  - intros y Hy. rewrite Hpar, (path_compress_lookup _ _ _ _ _ Hp).
    by rewrite decide_True.
  - intros y Hy. rewrite Hpar, (path_compress_lookup _ _ _ _ _ Hp).
    by rewrite decide_False.
  - intros a b. unfold same_root.
    split; intros (r' & Ha & Hb); exists r'; split; by apply Hroots.
Qed.

Lemma find_compresses_path_witness :
  ∃ l r s',
    path [0; 0; 0; 2] 3 l r ∧
    find {| parent := [0; 0; 0; 2]; rank := [2; 0; 1; 0] |} 3 = Ok (r, s') ∧
    (∀ y, y ∈ l → parent s' !! y = Some r).
Proof.
  destruct (find_compresses_path 4
              {| parent := [0; 0; 0; 2]; rank := [2; 0; 1; 0] |} 3)
    as (l & r & s' & Hp & _ & Hf & _ & Hl & _).
  - apply (unions_reachable 4 (init 4) [(0, 1); (2, 3); (0, 2)]);
      [constructor | reflexivity].
  - lia.
  - exists l, r, s'. split; [exact Hp|]. split; [exact Hf | exact Hl].
Defined.

End uf_facts.

(** * Singly linked list: proofs *)

Section linked_list_facts.
Import LinkedList.
Implicit Types st : store.
Implicit Types ls : list loc.
Implicit Types vs : list Z.

Lemma deref_lookup st l nd : st !! l = Some nd → deref st l = Ok nd.
Proof. unfold deref. by intros ->. Qed.

(** Chains. *)

Lemma chain_length st hd ls vs : chain st hd ls vs → length ls = length vs.
Proof. induction 1; simpl; congruence. Qed.

Lemma chain_det st hd ls vs ls' vs' :
  chain st hd ls vs → chain st hd ls' vs' → ls = ls' ∧ vs = vs'.
Proof.
  intros H. revert ls' vs'.
  induction H as [|l v nx ls vs Hl _ IH]; intros ls' vs' H'.
  - by inversion H'.
  - inversion H' as [|l' v' nx' ls'' vs'' Hl' Hc']; simplify_eq.
    by destruct (IH _ _ Hc') as [-> ->].
Qed.

Lemma chain_suffix st hd ls vs l :
  chain st hd ls vs → l ∈ ls →
  ∃ ls' vs', chain st (Some l) ls' vs' ∧ (length ls' ≤ length ls)%nat.
Proof.
  induction 1 as [|l' v nx ls vs Hl Hc IH].
  - by intros ?%elem_of_nil.
  - intros [Heq|Hin]%elem_of_cons.
    + subst. eexists _, _. split; [by econstructor | done].
    + destruct (IH Hin) as (ls' & vs' & Hc' & Hlen).
      eexists _, _. split; [done | simpl; lia].
Qed.

Lemma chain_NoDup st hd ls vs : chain st hd ls vs → NoDup ls.
Proof.
  induction 1 as [|l v nx ls vs Hl Hc IH]; [constructor|].
  apply NoDup_cons. split; [|done]. intros Hin.
  destruct (chain_suffix _ _ _ _ _ Hc Hin) as (ls' & vs' & Hc' & Hlen).
  assert (chain st (Some l) (l :: ls) (v :: vs)) as Hfull by by econstructor.
  destruct (chain_det _ _ _ _ _ _ Hc' Hfull) as [-> _].
  simpl in Hlen. lia.
Qed.

Lemma chain_dom st hd ls vs l : chain st hd ls vs → l ∈ ls → l ∈ dom st.
Proof.
  induction 1 as [|l' v nx ls vs Hl Hc IH]; [by intros ?%elem_of_nil|].
  intros [->|Hin]%elem_of_cons; [by apply elem_of_dom | auto].
Qed.

(** A write outside the chain leaves the chain as it is. *)
Lemma chain_insert_ne st hd ls vs l nd :
  l ∉ ls → chain st hd ls vs → chain (<[l:=nd]> st) hd ls vs.
Proof.
  intros Hl. induction 1 as [|l' v nx ls vs Hl' Hc IH]; [constructor|].
  apply not_elem_of_cons in Hl as [Hne Hl].
  econstructor; [|by apply IH]. by rewrite lookup_insert_ne.
Qed.

(** Reversal. *)

Lemma reverse_loop_spec fuel st prev hd lp vp lh vh :
  chain st prev lp vp → chain st hd lh vh →
  (∀ l, l ∈ lh → l ∉ lp) → (length lh ≤ fuel)%nat →
  ∃ st' hd',
    reverse_loop fuel st prev hd = Ok (st', hd') ∧
    chain st' hd' (reverse lh ++ lp) (reverse vh ++ vp).
Proof.
  revert fuel st prev hd lp vp vh.
  induction lh as [|l lh IH]; intros fuel st prev hd lp vp vh Hp Hh Hdisj Hf.
  - inversion Hh; subst. exists st, prev. by destruct fuel.
  - pose proof (chain_NoDup _ _ _ _ Hh) as [Hl Hnd]%NoDup_cons.
    inversion Hh as [|l' v nx ls vs Hlook Hc]; subst.
    destruct fuel as [|fuel]; [simpl in Hf; lia|].
    cbn [reverse_loop]. rewrite (deref_lookup _ _ _ Hlook), bind_Ok.
    cbn [val next].
    destruct (IH fuel (<[l:=ListNode v prev]> st) (Some l) nx
                (l :: lp) (v :: vp) vs) as (st' & hd' & Hrev & Hchain).
    + econstructor; [by rewrite lookup_insert_eq|].
      apply chain_insert_ne; [|done]. apply Hdisj. by left.
    + by apply chain_insert_ne.
    + intros l' Hl'. apply not_elem_of_cons. split; [by intros ->|].
      apply Hdisj. by right.
    + simpl in Hf. lia.
    + exists st', hd'. split; [done|].
      by rewrite !reverse_cons, <-!app_assoc.
Qed.

Lemma reverse_list_spec fuel st hd ls vs :
  chain st hd ls vs → (length vs ≤ fuel)%nat →
  ∃ st' hd',
    reverse_list fuel st hd = Ok (st', hd') ∧
    chain st' hd' (reverse ls) (reverse vs).
Proof.
  intros Hc Hf. unfold reverse_list.
  destruct (reverse_loop_spec fuel st None hd [] [] ls vs)
    as (st' & hd' & Hrev & Hchain); [constructor | done | | |].
  - intros l _. apply not_elem_of_nil.
  - by rewrite (chain_length _ _ _ _ Hc).
  - exists st', hd'. by rewrite !app_nil_r in Hchain.
Qed.

Lemma to_list_loop_spec fuel st hd ls vs out :
  chain st hd ls vs → (length vs ≤ fuel)%nat →
  to_list_loop fuel st hd out = Ok (out ++ vs).
Proof.
  intros Hc. revert fuel out.
  induction Hc as [|l v nx ls vs Hl _ IH]; intros fuel out Hf.
  - destruct fuel; simpl; by rewrite app_nil_r.
  - destruct fuel as [|fuel]; [simpl in Hf; lia|].
    cbn [to_list_loop]. rewrite (deref_lookup _ _ _ Hl), bind_Ok.
    cbn [val next]. rewrite IH by (simpl in Hf; lia).
    by rewrite <-app_assoc.
Qed.

Lemma to_list_spec fuel st hd ls vs :
  chain st hd ls vs → (length vs ≤ fuel)%nat → to_list fuel st hd = Ok vs.
Proof. intros. unfold to_list. by erewrite to_list_loop_spec. Qed.

(** Deletion. *)

Lemma last_elem_of {A} (l : list A) x : last l = Some x → x ∈ l.
Proof.
  induction l as [|y [|z l] IH]; simpl; [done|..].
  - intros [= ->]. by left.
  - intros H. right. by apply IH.
Qed.

Lemma delete_loop_spec fuel st ll prev pv cur rest vrest v :
  st !! prev = Some (ListNode pv cur) →
  chain st cur rest vrest →
  prev ∉ rest →
  (length rest ≤ fuel)%nat →
  ∃ st' ll' rest',
    delete_loop fuel st ll prev cur v = Ok (st', ll') ∧
    chain st' (Some prev) (prev :: rest') (pv :: remove_one v vrest) ∧
    head ll' = head ll ∧
    (tail ll = last (prev :: rest) → tail ll' = last (prev :: rest')) ∧
    (v ∉ vrest → st' = st ∧ ll' = ll ∧ rest' = rest) ∧
    (∀ l, l ≠ prev → l ∉ rest → st' !! l = st !! l).
Proof.
  revert fuel prev pv cur vrest.
  induction rest as [|c rest IH];
    intros fuel prev pv cur vrest Hprev Hc Hnotin Hf.
  - inversion Hc; subst. exists st, ll, [].
    split; [by destruct fuel|].
    split; [econstructor; [done | constructor]|]. done.
  - pose proof (chain_NoDup _ _ _ _ Hc) as [Hcr Hnd]%NoDup_cons.
    inversion Hc as [|c' cv nx ls vs Hlook Hc']; subst.
    apply not_elem_of_cons in Hnotin as [Hpc Hpr].
    destruct fuel as [|fuel]; [simpl in Hf; lia|].
    cbn [delete_loop]. rewrite (deref_lookup _ _ _ Hlook), bind_Ok.
    cbn [val next]. destruct (decide (cv = v)) as [->|Hne].
    + rewrite (deref_lookup _ _ _ Hprev), bind_Ok. cbn [val next].
      eexists _, _, rest. split; [done|].
      split; [|split; [by case_decide|split; [|split]]].
      * simpl. rewrite decide_True by done.
        econstructor; [by rewrite lookup_insert_eq|].
        by apply chain_insert_ne.
      * rewrite last_cons_cons. intros Htail.
        destruct rest as [|r rest].
        { simpl in Htail. by rewrite decide_True by done. }
        rewrite last_cons_cons in Htail.
        rewrite decide_False; [by rewrite last_cons_cons|].
        intros Heq. rewrite <-Heq in Htail. symmetry in Htail.
        by apply last_elem_of in Htail.
      * intros Hv. exfalso. apply Hv. by left.
      * intros l Hl _. by rewrite lookup_insert_ne.
    + destruct (IH fuel c cv nx vs Hlook Hc' Hcr)
        as (st' & ll' & rest' & Hloop & Hchain & Hhead & Htail & Hno & Hfr);
        [simpl in Hf; lia|].
      exists st', ll', (c :: rest'). split; [done|].
      split; [|split; [done|split; [|split]]].
      * simpl. rewrite decide_False by done.
        econstructor; [|done]. rewrite Hfr; done.
      * rewrite !last_cons_cons. done.
      * intros Hv. apply not_elem_of_cons in Hv as [_ Hv].
        destruct (Hno Hv) as (-> & -> & ->). done.
      * intros l Hl Hlr. apply not_elem_of_cons in Hlr as [? ?]. by apply Hfr.
Qed.

Lemma remove_one_nil_inv v vs : remove_one v vs = [] → vs = [] ∨ vs = [v].
Proof.
  destruct vs as [|x vs]; [by left|]. simpl.
  case_decide; [|done]. intros ->. subst. by right.
Qed.

(** [delete_val] on a list whose fields agree: the first node holding
    the value leaves the chain (no node, if the value is absent), and the
    fields agree afterwards unless the list had that node only; then
    [head] is [None] and [tail] is the sentinel node made by
    [delete_val]. *)
Lemma delete_val_spec fuel st ll ls vs v :
  consistent st ll ls vs → (length vs ≤ fuel)%nat →
  ∃ st' ll' ls',
    delete_val fuel st ll v = Ok (st', ll') ∧
    chain st' (head ll') ls' (remove_one v vs) ∧
    (v ∉ vs → ll' = ll ∧ ls' = ls) ∧
    (vs ≠ [v] → consistent st' ll' ls' (remove_one v vs)) ∧
    (vs = [v] →
       head ll' = None ∧
       ∃ d, st !! d = None ∧ tail ll' = Some d ∧
            st' !! d = Some (ListNode 0 None)).
Proof.
  intros [Hc Htail] Hf. unfold delete_val, alloc.
  set (d := fresh (dom st)).
  assert (d ∉ dom st) as Hd by apply is_fresh.
  assert (d ∉ ls) as Hdls.
  { intros Hin. by apply Hd, (chain_dom _ _ _ _ _ Hc). }
  set (st0 := <[d:=ListNode 0 (head ll)]> st).
  destruct (delete_loop_spec fuel st0 ll d 0 (head ll) ls vs v)
    as (st' & ll1 & ls' & Hloop & Hchain & Hhead & Htl & Hno & _).
  { unfold st0. by rewrite lookup_insert_eq. }
  { by apply chain_insert_ne. }
  { done. }
  { by rewrite (chain_length _ _ _ _ Hc). }
  rewrite Hloop, bind_Ok. cbv beta iota.
  inversion Hchain as [|d' z nx ls'' vs'' Hdl Hc']; subst.
  rewrite (deref_lookup _ _ _ Hdl), bind_Ok. cbn [next].
  eexists _, _, ls'. split; [done|]. cbn [head tail].
  split; [done|]. split; [|split].
  - intros Hv. destruct (Hno Hv) as (-> & -> & ->).
    split; [|done]. unfold st0 in Hdl. rewrite lookup_insert_eq in Hdl.
    injection Hdl as Hnx. subst nx. by destruct ll.
  - intros Hvs. split; [done|]. cbn [tail].
    destruct ls as [|l ls].
    { inversion Hc; subst. destruct (Hno ltac:(apply not_elem_of_nil))
        as (_ & -> & ->). done. }
    rewrite last_cons_cons in Htl. specialize (Htl Htail).
    destruct ls' as [|l' ls']; [|by rewrite last_cons_cons in Htl].
    exfalso. apply chain_length in Hc' as Hlen. symmetry in Hlen.
    apply nil_length_inv, remove_one_nil_inv in Hlen as [Hnil|Hone];
      [|done].
    subst vs. inversion Hc.
  - intros ->. inversion Hc as [|l v' nx' ls0 vs0 Hl Hc0]; subst.
    inversion Hc0; subst.
    simpl in Hc'. rewrite decide_True in Hc' by done.
    inversion Hc'; subst. split; [done|].
    exists d. split; [by apply not_elem_of_dom|]. split; [|done].
    apply Htl. by rewrite last_cons_cons.
Qed.

(** C6, at the input that shows the defect of [delete_val]: after the
    only node of a list is deleted, [head] is [None] but [tail] is the
    sentinel node, so that the fields do not denote the empty list; a
    value appended afterwards is not reachable from [head]. *)
Theorem delete_val_only_node_tail :
  ∃ st1 ll1 st2 ll2 st3 ll3,
    insert_end ∅ init 7 = Ok (st1, ll1) ∧
    to_list 1 st1 (head ll1) = Ok [7] ∧
    delete_val 1 st1 ll1 7 = Ok (st2, ll2) ∧
    head ll2 = None ∧ tail ll2 = Some 1%nat ∧
    st2 !! 1%nat = Some (ListNode 0 None) ∧
    ¬ consistent st2 ll2 [] [] ∧
    insert_end st2 ll2 9 = Ok (st3, ll3) ∧
    head ll3 = None ∧
    find 1 st3 ll3 9 = Ok false ∧
    to_list 1 st3 (head ll3) = Ok [].
Proof.
  do 6 eexists.
  split; [vm_compute; reflexivity|].
  split; [vm_compute; reflexivity|].
  split; [vm_compute; reflexivity|].
  split; [reflexivity|]. split; [reflexivity|].
  split; [vm_compute; reflexivity|].
  split; [intros [_ Ht]; discriminate Ht|].
  split; [vm_compute; reflexivity|].
  split; [reflexivity|].
  split; vm_compute; reflexivity.
Qed.

(** ** The claims *)

(** C9. For every finite singly linked list, reversing it with
    [reverse_list] and reversing the result again gives a list whose
    values, read by [to_list] from the returned head, are the values of the
    original list in their original order (the first reversal lists them
    in the opposite order). *)
Theorem reverse_list_involutive fuel st hd ls vs :
  chain st hd ls vs → (length vs ≤ fuel)%nat →
  ∃ st1 hd1 st2 hd2,
    to_list fuel st hd = Ok vs ∧
    reverse_list fuel st hd = Ok (st1, hd1) ∧
    to_list fuel st1 hd1 = Ok (reverse vs) ∧
    reverse_list fuel st1 hd1 = Ok (st2, hd2) ∧
    to_list fuel st2 hd2 = Ok vs.
Proof.
  intros Hc Hf.
  destruct (reverse_list_spec fuel st hd ls vs Hc Hf)
    as (st1 & hd1 & Hr1 & Hc1).
  assert (length (reverse vs) ≤ fuel)%nat as Hf' by by rewrite length_reverse.
  destruct (reverse_list_spec fuel st1 hd1 _ _ Hc1 Hf')
    as (st2 & hd2 & Hr2 & Hc2).
  rewrite !reverse_involutive in Hc2.
  exists st1, hd1, st2, hd2.
  split; [by eapply to_list_spec|]. split; [done|].
  split; [by eapply to_list_spec|]. split; [done|].
  by eapply to_list_spec.
Qed.

Lemma reverse_list_involutive_witness :
  ∃ st1 hd1 st2 hd2,
    let st : store :=
      {[ 0%nat := ListNode 1 (Some 1%nat);
         1%nat := ListNode 2 (Some 2%nat);
         2%nat := ListNode 3 None ]} in
    to_list 3 st (Some 0%nat) = Ok [1; 2; 3] ∧
    reverse_list 3 st (Some 0%nat) = Ok (st1, hd1) ∧
    to_list 3 st1 hd1 = Ok [3; 2; 1] ∧
    reverse_list 3 st1 hd1 = Ok (st2, hd2) ∧
    to_list 3 st2 hd2 = Ok [1; 2; 3].
Proof.
  refine (reverse_list_involutive 3 _ (Some 0%nat)
            [0; 1; 2]%nat [1; 2; 3] _ _); [|simpl; lia].
  repeat (econstructor; [reflexivity|]). constructor.
Defined.

End linked_list_facts.

(** * Empty containers: proofs *)

Section empty_facts.



(** ** The claims *)



End empty_facts.

(** * Further operations on binary trees: proofs *)

Section tree_facts.
Import BST Trees.
Implicit Types t l r : tree.

Lemma max_depth_nonneg t : 0 ≤ max_depth t.
Proof. induction t; simpl; lia. Qed.

Lemma inorder_invert t : inorder (invert t) = reverse (inorder t).
Proof.
  induction t as [|l IHl v r IHr]; simpl; [done|].
  rewrite IHl, IHr, reverse_app, reverse_cons, <-app_assoc. done.
Qed.

Lemma max_depth_invert t : max_depth (invert t) = max_depth t.
Proof. induction t as [|l IHl v r IHr]; simpl; lia. Qed.

Lemma longest_path_nonneg t : 0 ≤ longest_path t.
Proof. induction t; simpl; lia. Qed.

Lemma longest_path_invert t : longest_path (invert t) = longest_path t.
Proof.
  induction t as [|l IHl v r IHr]; simpl; [done|].
  rewrite !max_depth_invert, IHl, IHr. lia.
Qed.

Lemma diameter_dfs_spec t res :
  0 ≤ res →
  diameter_dfs t res = (max_depth t, Z.max res (longest_path t)).
Proof.
  revert res. induction t as [|l IHl v r IHr]; intros res Hres; simpl.
  - f_equal. lia.
  - rewrite IHl by done. rewrite IHr by lia. f_equal. lia.
Qed.

Lemma balanced_dfs_spec t :
  (height_balanced t ∧ balanced_dfs t = max_depth t) ∨
  (¬ height_balanced t ∧ balanced_dfs t = -1).
Proof.
  induction t as [|l IHl v r IHr]; simpl; [by left|].
  pose proof (max_depth_nonneg l). pose proof (max_depth_nonneg r).
  destruct IHl as [[Hl ->]|[Hl ->]], IHr as [[Hr ->]|[Hr ->]];
    case_decide as Hd;
    first [ exfalso; apply Hd; tauto
          | left; split; [split; [lia | done] | done]
          | right; split; [intros (? & ? & ?); (tauto || lia) | done] ].
Qed.

Lemma has_path_sum_iff t target :
  has_path_sum t target = true ↔
  ∃ p, root_to_leaf t p ∧ zsum p = target.
Proof.
  revert target. induction t as [|l IHl v r IHr]; intros target; simpl.
  - split; [done|]. intros (p & Hp & _). inversion Hp.
  - destruct l as [|ll lv lr], r as [|rl rv rr]; cbn [is_leaf andb].
    + rewrite bool_decide_eq_true. split.
      * intros ->. exists [v]. split; [constructor | simpl; lia].
      * intros (p & Hp & Hs). inversion Hp as [| ? ? ? ? Hl | ? ? ? ? Hr];
          subst; [simpl; lia | inversion Hl | inversion Hr].
    + rewrite orb_true_iff, IHl, IHr. split.
      * intros [(p & Hp & _)|(p & Hp & Hs)]; [inversion Hp|].
        exists (v :: p). split; [by apply rtl_right | simpl; lia].
      * intros (p & Hp & Hs). right.
        inversion Hp as [| ? ? ? ? Hl | ? ? ? q Hr]; subst; [inversion Hl|].
        exists q. split; [done | simpl in *; lia].
    + rewrite orb_true_iff, IHl, IHr. split.
      * intros [(p & Hp & Hs)|(p & Hp & _)]; [|inversion Hp].
        exists (v :: p). split; [by apply rtl_left | simpl; lia].
      * intros (p & Hp & Hs). left.
        inversion Hp as [| ? ? ? q Hl | ? ? ? ? Hr]; subst; [|inversion Hr].
        exists q. split; [done | simpl in *; lia].
    + rewrite orb_true_iff, IHl, IHr. split.
      * intros [(p & Hp & Hs)|(p & Hp & Hs)];
          exists (v :: p); (split; [|simpl; lia]);
          [by apply rtl_left | by apply rtl_right].
      * intros (p & Hp & Hs).
        inversion Hp as [| ? ? ? q Hl | ? ? ? q Hr]; subst;
          [left | right]; exists q; (split; [done | simpl in *; lia]).
Qed.

(** Level order. *)

Lemma at_depth_kids k t :
  at_depth (S k) t = flat_map (at_depth k) (kids t).
Proof.
  destruct t as [|l v r]; simpl; [done|].
  destruct l, r; simpl; by rewrite ?app_nil_r.
Qed.

Lemma flat_map_at_depth_kids k q :
  flat_map (at_depth (S k)) q = flat_map (at_depth k) (flat_map kids q).
Proof.
  induction q as [|t q IH]; [done|].
  cbn [flat_map]. by rewrite flat_map_app, IH, at_depth_kids.
Qed.

Lemma kids_not_leaf t : Forall (λ c, is_leaf c = false) (kids t).
Proof.
  destruct t as [|l v r]; simpl; [constructor|].
  destruct l, r; simpl; repeat constructor.
Qed.

Lemma inorder_kids t :
  inorder t ≡ₚ at_depth 0 t ++ flat_map inorder (kids t).
Proof.
  destruct t as [|l v r]; simpl; [done|].
  rewrite <-Permutation_middle. constructor.
  destruct l, r; simpl; by rewrite ?app_nil_r.
Qed.

Lemma flat_map_inorder_kids q :
  flat_map inorder q ≡ₚ
    flat_map (at_depth 0) q ++ flat_map inorder (flat_map kids q).
Proof.
  induction q as [|t q IH]; [done|].
  cbn [flat_map]. rewrite flat_map_app, IH, (inorder_kids t).
  rewrite <-!app_assoc. apply Permutation_app_head.
  rewrite !app_assoc. apply Permutation_app_tail, Permutation_app_comm.
Qed.

Lemma max_depth_kids t c : c ∈ kids t → max_depth c < max_depth t.
Proof.
  destruct t as [|l v r]; simpl; [by intros ?%elem_of_nil|].
  destruct l, r; simpl; rewrite ?elem_of_cons, ?elem_of_nil;
    intros; destruct_or!; subst; simpl; try done; lia.
Qed.

Lemma level_order_loop_step a b out fuel :
  Forall (λ c, is_leaf c = false) a → (length a ≤ fuel)%nat →
  level_order_loop fuel (a ++ b) out =
    level_order_loop (fuel - length a) (b ++ flat_map kids a)
      (out ++ flat_map (at_depth 0) a).
Proof.
  revert b out fuel. induction a as [|t a IH]; intros b out fuel Ha Hf.
  - simpl. by rewrite Nat.sub_0_r, !app_nil_r.
  - apply Forall_cons in Ha as [Ht Ha].
    destruct t as [|l v r]; [done|].
    destruct fuel as [|fuel]; [simpl in Hf; lia|].
    cbn [app level_order_loop].
    assert ((if is_leaf r
             then if is_leaf l then a ++ b else (a ++ b) ++ [l]
             else (if is_leaf l then a ++ b else (a ++ b) ++ [l]) ++ [r])
            = a ++ (b ++ kids (Node l v r))) as ->.
    { simpl. destruct (is_leaf l), (is_leaf r); simpl;
        by rewrite ?app_nil_r, <-?app_assoc. }
    rewrite IH by (done || simpl in Hf; lia).
    cbn [length flat_map at_depth]. rewrite <-!app_assoc. done.
Qed.

Lemma concat_levels_S (f : nat → list Z) d :
  concat (f <$> seq 0 (S d)) = f 0%nat ++ concat ((λ k, f (S k)) <$> seq 0 d).
Proof. cbn [seq fmap list_fmap concat]. f_equal. rewrite <-fmap_S_seq. by rewrite <-list_fmap_compose. Qed.

Lemma level_order_loop_levels d q out fuel :
  Forall (λ c, is_leaf c = false) q →
  (∀ t, t ∈ q → max_depth t ≤ Z.of_nat d) →
  (length (flat_map inorder q) ≤ fuel)%nat →
  level_order_loop fuel q out
    = Ok (out ++ concat ((λ k, flat_map (at_depth k) q) <$> seq 0 d)) ∧
  concat ((λ k, flat_map (at_depth k) q) <$> seq 0 d)
    ≡ₚ flat_map inorder q.
Proof.
  revert q out fuel. induction d as [|d IH]; intros q out fuel Hq Hd Hf.
  - destruct q as [|t q].
    + simpl. rewrite app_nil_r. split; [by destruct fuel | done].
    + exfalso. apply Forall_cons in Hq as [Ht _].
      specialize (Hd t ltac:(by left)).
      destruct t; [done|]. simpl in Hd.
      pose proof (max_depth_nonneg t1). pose proof (max_depth_nonneg t2). lia.
  - assert (length q ≤ length (flat_map inorder q))%nat as Hlen.
    { clear -Hq. induction Hq as [|t q Ht _ IH]; [done|].
      cbn [flat_map]. rewrite length_app. destruct t; [done|].
      simpl. rewrite length_app. simpl. lia. }
    pose proof (flat_map_inorder_kids q) as Hperm.
    assert (length (flat_map (at_depth 0) q) = length q) as Hl0.
    { clear -Hq. induction Hq as [|t q Ht _ IH]; [done|].
      destruct t; [done|]. simpl. by rewrite IH. }
    pose proof (Permutation_length Hperm) as Hsz.
    rewrite length_app, Hl0 in Hsz.
    destruct (IH (flat_map kids q) (out ++ flat_map (at_depth 0) q)
                (fuel - length q)%nat) as [Hloop Hp].
    + clear. induction q as [|t q IHq]; [constructor|].
      cbn [flat_map]. apply Forall_app. split; [apply kids_not_leaf | done].
    + intros c Hc. apply list_elem_of_In, in_flat_map in Hc as (t & Ht & Hc).
      apply list_elem_of_In in Ht, Hc.
      pose proof (max_depth_kids _ _ Hc). specialize (Hd t Ht). lia.
    + lia.
    + rewrite <-(app_nil_r q) at 1.
      rewrite level_order_loop_step by (done || lia).
      cbn [app]. rewrite Hloop.
      rewrite concat_levels_S.
      assert (((λ k, flat_map (at_depth (S k)) q) <$> seq 0 d) =
              ((λ k, flat_map (at_depth k) (flat_map kids q)) <$> seq 0 d))
        as ->.
      { apply list_fmap_ext. intros i k _. apply flat_map_at_depth_kids. }
      rewrite <-app_assoc. split; [done|].
      by rewrite Hp, Hperm.
Qed.

(** ** Properties *)

(** X1. In a search tree, a value inserted by [insert_bst] is found by
    [search_bst] afterwards, the search for any other value answers as
    before, and the tree is still a search tree. *)
Theorem insert_bst_then_search (root : tree) (v : Z) :
  bst root →
  bst (insert_bst root v) ∧
  search_bst (insert_bst root v) v = true ∧
  ∀ w, w ≠ v → search_bst (insert_bst root v) w = search_bst root w.
Proof.
  intros Hb. pose proof (bst_insert root v Hb) as Hb'.
  split; [done|]. split.
  - apply search_bst_elem_of; [done|]. rewrite inorder_insert. by left.
  - intros w Hw. apply Bool.eq_iff_eq_true.
    rewrite !search_bst_elem_of, inorder_insert, elem_of_cons by done.
    split; [intros [?|?]; [done | done] | auto].
Qed.

Lemma insert_bst_then_search_witness :
  search_bst (insert_bst (build [5; 3; 8]) 4) 4 = true.
Proof.
  exact (proj1 (proj2 (insert_bst_then_search (build [5; 3; 8]) 4
                         (bst_build [5; 3; 8])))).
Defined.

(** X2. [delete_node] keeps a search tree a search tree, and the in-order
    sequence of the result is that of the tree without the first
    occurrence of the key: one node is removed, no other value is lost. *)
Theorem delete_node_keeps_bst (root : tree) (key : Z) :
  bst root →
  bst (delete_node root key) ∧
  inorder (delete_node root key) = remove_one key (inorder root).
Proof. intros Hb. split; [by apply bst_delete | by apply delete_node_inorder]. Qed.

Lemma delete_node_keeps_bst_witness :
  inorder (delete_node (build [5; 3; 8; 7; 9]) 5) = [3; 7; 8; 9].
Proof.
  exact (proj2 (delete_node_keeps_bst (build [5; 3; 8; 7; 9]) 5
                  (bst_build [5; 3; 8; 7; 9]))).
Defined.

(** X3. In a search tree, [search_bst] returns [True] exactly for the
    values stored in the tree; in particular it returns [False] on the
    empty tree. *)
Theorem search_bst_correct (root : tree) (target : Z) :
  bst root →
  (search_bst root target = true ↔ target ∈ inorder root) ∧
  search_bst Leaf target = false.
Proof. intros Hb. split; [by apply search_bst_elem_of | done]. Qed.

Lemma search_bst_correct_witness :
  search_bst (build [5; 3; 8]) 8 = true ↔ 8 ∈ inorder (build [5; 3; 8]).
Proof.
  exact (proj1 (search_bst_correct (build [5; 3; 8]) 8 (bst_build [5; 3; 8]))).
Defined.

(** X4. [invert] is its own inverse; it reverses the in-order sequence,
    turns the pre-order sequence into the reversed post-order sequence,
    and keeps the depth. *)
Theorem invert_involutive (root : tree) :
  invert (invert root) = root ∧
  inorder (invert root) = reverse (inorder root) ∧
  preorder (invert root) = reverse (postorder root) ∧
  max_depth (invert root) = max_depth root.
Proof.
  split; [|split; [apply inorder_invert|split; [|apply max_depth_invert]]].
  - induction root as [|l IHl v r IHr]; simpl; [done|]. by rewrite IHl, IHr.
  - induction root as [|l IHl v r IHr]; simpl; [done|].
    rewrite IHl, IHr, !reverse_app. simpl. done.
Qed.

(** X5. [max_depth] is never negative and at most the number of nodes,
    and a tree of depth [d] has at most [2^d - 1] nodes. *)
Theorem max_depth_bounds (root : tree) :
  0 ≤ max_depth root ≤ Z.of_nat (length (inorder root)) ∧
  Z.of_nat (length (inorder root)) ≤ 2 ^ max_depth root - 1.
Proof.
  induction root as [|l IHl v r IHr]; simpl; [lia|].
  rewrite length_app. simpl.
  pose proof (max_depth_nonneg l) as Hl. pose proof (max_depth_nonneg r) as Hr.
  split; [lia|].
  rewrite Z.pow_add_r, Z.pow_1_r by lia.
  assert (2 ^ max_depth l ≤ 2 ^ Z.max (max_depth l) (max_depth r))
    by (apply Z.pow_le_mono_r; lia).
  assert (2 ^ max_depth r ≤ 2 ^ Z.max (max_depth l) (max_depth r))
    by (apply Z.pow_le_mono_r; lia).
  lia.
Qed.

(** X6. [is_balanced] returns [True] exactly when at every node the
    depths of the two subtrees differ by one at most; the inner [dfs]
    then returns the depth of the tree, and [-1] otherwise. *)
Theorem is_balanced_correct (root : tree) :
  (is_balanced root = true ↔ height_balanced root) ∧
  (height_balanced root → balanced_dfs root = max_depth root) ∧
  (¬ height_balanced root → balanced_dfs root = -1).
Proof.
  unfold is_balanced. rewrite bool_decide_eq_true.
  pose proof (max_depth_nonneg root).
  destruct (balanced_dfs_spec root) as [[Hb ->]|[Hb ->]].
  - split; [split; [done | lia]|]. split; [done | tauto].
  - split; [split; [done | tauto]|]. split; [tauto | done].
Qed.

(** X7. [has_path_sum] returns [True] exactly when the values on some
    path from the root down to a leaf add up to the target; on the empty
    tree it returns [False] for every target. *)
Theorem has_path_sum_correct (root : tree) (target : Z) :
  (has_path_sum root target = true ↔
     ∃ p, root_to_leaf root p ∧ zsum p = target) ∧
  has_path_sum Leaf target = false.
Proof. split; [apply has_path_sum_iff | done]. Qed.

(** X8. [diameter] returns the largest sum, over the nodes of the tree,
    of the depths of the node's two subtrees (0 for the empty tree), and
    [invert] does not change it. *)
Theorem diameter_longest_path (root : tree) :
  diameter root = longest_path root ∧
  diameter (invert root) = diameter root.
Proof.
  unfold diameter. rewrite !diameter_dfs_spec by done. simpl.
  pose proof (longest_path_nonneg root).
  pose proof (longest_path_nonneg (invert root)).
  rewrite longest_path_invert in *. lia.
Qed.

(** X9. [level_order] returns the values of the tree level by level,
    each level from left to right: every value once, [[]] for the empty
    tree. *)
Theorem level_order_levels (root : tree) :
  let levels :=
    (λ k, at_depth k root) <$> seq 0 (Z.to_nat (max_depth root)) in
  level_order root = Ok (concat levels) ∧
  concat levels ≡ₚ inorder root.
Proof.
  intros levels. unfold level_order.
  destruct root as [|l v r]; [done|]. cbn [is_leaf].
  destruct (level_order_loop_levels (Z.to_nat (max_depth (Node l v r)))
              [Node l v r] [] (length (inorder (Node l v r))))
    as [Hloop Hperm].
  - by repeat constructor.
  - intros t ->%list_elem_of_singleton.
    pose proof (max_depth_nonneg (Node l v r)). lia.
  - cbn [flat_map]. by rewrite app_nil_r.
  - assert (((λ k, flat_map (at_depth k) [Node l v r]) <$>
               seq 0 (Z.to_nat (max_depth (Node l v r)))) = levels) as Heq.
    { apply list_fmap_ext. intros i k _. cbn [flat_map].
      by rewrite app_nil_r. }
    rewrite Heq in Hloop, Hperm. split; [done|].
    rewrite Hperm. cbn [flat_map]. by rewrite app_nil_r.
Qed.

End tree_facts.

(** * Binary min-heap, further properties: proofs *)

Section heap_more_facts.
Import MinHeap.
Implicit Types h : list Z.

(** The sifts on a list in any order: they end and exchange items only. *)

Lemma bubble_up_loop_perm fuel h i :
  (i < length h)%nat → (i ≤ fuel)%nat →
  ∃ h', bubble_up_loop fuel h i = Ok h' ∧ h' ≡ₚ h.
Proof.
  revert h i. induction fuel as [|fuel IH]; intros h i Hi Hf;
    rewrite bubble_up_loop_unfold; case_decide as Hpos;
    try (by exists h); [lia|].
  pose proof (parent_lt i Hpos) as Hp.
  rewrite !getitem_lt by lia. rewrite !bind_Ok.
  case_decide; [|by exists h].
  rewrite swap_ok by lia. rewrite bind_Ok.
  destruct (IH (swapped h i (parent i)) (parent i))
    as (h' & -> & Hperm); [rewrite swapped_length; lia | lia |].
  exists h'. split; [done|]. rewrite Hperm. apply swapped_perm; lia.
Qed.

Lemma bubble_down_loop_perm fuel h i :
  (length h - i ≤ fuel)%nat →
  ∃ h', bubble_down_loop fuel (length h) h i = Ok h' ∧ h' ≡ₚ h.
Proof.
  revert h i. induction fuel as [|fuel IH]; intros h i Hf;
    rewrite bubble_down_loop_unfold; case_decide as Hleft;
    try (by exists h); [lia|].
  assert (∀ s, (i < s < length h)%nat →
            ∃ h', (swap h i s ≫= λ h', bubble_down_loop fuel (length h) h' s)
                    = Ok h' ∧ h' ≡ₚ h) as Hswap.
  { intros s Hs. rewrite swap_ok by lia. rewrite bind_Ok.
    rewrite <-(swapped_length h i s).
    destruct (IH (swapped h i s) s) as (h' & -> & Hperm);
      [rewrite swapped_length; lia|].
    exists h'. split; [done|]. rewrite Hperm. apply swapped_perm; lia. }
  rewrite (getitem_lt h (2 * i + 1)), (getitem_lt h i) by lia.
  rewrite !bind_Ok. cbv zeta.
  destruct (decide (h !!! (2 * i + 1)%nat < h !!! i)) as [H1|H1];
    destruct (decide (2 * i + 2 < length h)%nat) as [Hright|Hright];
    rewrite ?getitem_lt by lia; rewrite ?bind_Ok;
    try destruct (decide (h !!! (2 * i + 2)%nat < _)) as [H2|H2];
    rewrite ?bind_Ok;
    try (rewrite (decide_True (P := i = i)) by done; by exists h);
    rewrite decide_False by lia; apply Hswap; lia.
Qed.

(** ** Properties *)

(** X10. [push] on a list in heap order returns a list in heap order
    that holds the old items and the new value, one item longer. *)
Theorem push_keeps_heap (h : list Z) (val : Z) :
  heap_ok h →
  ∃ h', push h val = Ok h' ∧ heap_ok h' ∧ h' ≡ₚ val :: h ∧
        length h' = S (length h).
Proof.
  intros Hok. destruct (push_spec h val Hok) as (h' & Hp & Hok' & Hperm).
  exists h'. split; [done|]. split; [done|]. split; [done|].
  by rewrite Hperm.
Qed.

Lemma push_keeps_heap_witness :
  ∃ h', push [1; 3; 8; 5] 2 = Ok h' ∧ heap_ok h' ∧ h' ≡ₚ 2 :: [1; 3; 8; 5] ∧
        length h' = 5%nat.
Proof.
  apply (push_keeps_heap [1; 3; 8; 5] 2).
  intros i Hi. simpl in Hi.
  destruct i as [|[|[|[|i]]]]; try lia; vm_compute; discriminate.
Defined.

(** X11. [pop] on a non-empty list in heap order returns its least item
    and leaves the other items, in heap order. *)
Theorem pop_returns_least (h : list Z) :
  heap_ok h → h ≠ [] →
  ∃ x h', pop h = Ok (x, h') ∧ heap_ok h' ∧ h ≡ₚ x :: h' ∧
          Forall (Z.le x) h ∧ h !! 0%nat = Some x.
Proof.
  intros Hok Hne.
  destruct (pop_spec h Hok Hne) as (x & h' & Hp & Hok' & Hperm & Hmin).
  exists x, h'. split; [done|]. split; [done|]. split; [done|]. split.
  - rewrite Hperm. apply Forall_cons. split; [lia | done].
  - revert Hp. unfold pop. destruct h as [|y t]; [done|].
    case_decide.
    + destruct t; [|done]. by intros [= <- <-].
    + change (getitem (y :: t) 0) with (@Ok Z y). rewrite bind_Ok.
      destruct (list_pop (y :: t)) as [[l1 h1]| |]; try done.
      rewrite bind_Ok. cbv beta iota.
      destruct (setitem h1 0 l1) as [h2| |]; try done. rewrite bind_Ok.
      destruct (_bubble_down h2 0) as [h3| |]; try done.
      rewrite bind_Ok. by intros [= <- <-].
Qed.

Lemma pop_returns_least_witness :
  ∃ x h', pop [1; 3; 8; 5] = Ok (x, h') ∧ heap_ok h' ∧
          [1; 3; 8; 5] ≡ₚ x :: h' ∧ Forall (Z.le x) [1; 3; 8; 5] ∧
          [1; 3; 8; 5] !! 0%nat = Some x.
Proof.
  apply (pop_returns_least [1; 3; 8; 5]); [|done].
  intros i Hi. simpl in Hi.
  destruct i as [|[|[|[|i]]]]; try lia; vm_compute; discriminate.
Defined.

(** X12. Whatever the order of the backing list (the heap order may have
    been broken from outside), [push] returns a list with the old items
    and the new value, and [pop] on a non-empty list returns the item at
    index 0 and leaves the other items: no item is lost or invented, and
    no call raises. *)
Theorem push_pop_keep_items (h : list Z) (val : Z) :
  (∃ h', push h val = Ok h' ∧ h' ≡ₚ val :: h) ∧
  (∀ x t, h = x :: t → ∃ h', pop h = Ok (x, h') ∧ h' ≡ₚ t).
Proof.
  split.
  - unfold push, _bubble_up.
    destruct (bubble_up_loop_perm (length (h ++ [val]) - 1) (h ++ [val])
                (length (h ++ [val]) - 1)) as (h' & Hl & Hp).
    + rewrite length_app. simpl. lia.
    + done.
    + exists h'. split; [done|]. rewrite Hp. by rewrite Permutation_app_comm.
  - intros x t ->. unfold pop.
    destruct t as [|a t' _] using rev_ind.
    { exists []. by rewrite decide_True by done. }
    rewrite decide_False by (simpl; rewrite length_app; simpl; lia).
    change (getitem (x :: t' ++ [a]) 0) with (@Ok Z x). rewrite bind_Ok.
    rewrite app_comm_cons, list_pop_snoc, bind_Ok. cbv beta iota.
    change (setitem (x :: t') 0 a) with (@Ok (list Z) (a :: t')).
    rewrite bind_Ok. unfold _bubble_down.
    destruct (bubble_down_loop_perm (length (a :: t')) (a :: t') 0)
      as (h' & -> & Hperm); [lia|].
    exists h'. rewrite bind_Ok. split; [done|].
    rewrite Hperm. by rewrite Permutation_app_comm.
Qed.

End heap_more_facts.

(** * Union-find, further properties: proofs *)

Section uf_more_facts.
Import UnionFind UnionFindMore.
Local Open Scope nat_scope.
Implicit Types p : list nat.
Implicit Types s : uf.

(** What [union] does, after its two calls of [find]. *)
Lemma union_shape n s x y :
  uf_wf n s → x < n → y < n →
  ∃ rx ry lx ly s1 s2,
    path (parent s) x lx rx ∧
    find s x = Ok (rx, s1) ∧ uf_wf n s1 ∧
    parent s1 = compress rx lx (parent s) ∧ rank s1 = rank s ∧
    path (parent s1) y ly ry ∧
    find s1 y = Ok (ry, s2) ∧ uf_wf n s2 ∧
    parent s2 = compress ry ly (parent s1) ∧ rank s2 = rank s1 ∧
    parent s2 !! rx = Some rx ∧ parent s2 !! ry = Some ry ∧
    root_of (parent s) x rx ∧ root_of (parent s) y ry ∧
    union s x y =
      if decide (rx = ry) then Ok (false, s2)
      else if decide (rank s2 !!! rx < rank s2 !!! ry) then
        Ok (true, {| parent := <[rx:=ry]> (parent s2); rank := rank s2 |})
      else if decide (rank s2 !!! ry < rank s2 !!! rx) then
        Ok (true, {| parent := <[ry:=rx]> (parent s2); rank := rank s2 |})
      else
        Ok (true, {| parent := <[ry:=rx]> (parent s2);
                     rank := <[rx:=rank s2 !!! rx + 1]> (rank s2) |}).
Proof.
  intros Hwf Hx Hy.
  destruct (find_wf n s x Hwf Hx)
    as (lx & rx & s1 & Hpx & Hfx & Hp1 & Hrk1 & Hwf1 & Hroots1).
  destruct (find_wf n s1 y Hwf1 Hy)
    as (ly & ry & s2 & Hpy & Hfy & Hp2 & Hrk2 & Hwf2 & Hroots2).
  assert (root_of (parent s) x rx) as Hrx by by exists lx.
  assert (root_of (parent s) y ry) as Hry by (apply Hroots1; by exists ly).
  assert (root_of (parent s2) x rx) as Hrx2 by by apply Hroots2, Hroots1.
  assert (root_of (parent s2) y ry) as Hry2 by by apply Hroots2, Hroots1.
  pose proof (root_of_is_root _ _ _ Hrx2) as Hrootx.
  pose proof (root_of_is_root _ _ _ Hry2) as Hrooty.
  apply root_of_lt in Hrx2 as Hltx. apply root_of_lt in Hry2 as Hlty.
  pose proof Hwf2 as (Hlp2 & Hlr2 & _).
  exists rx, ry, lx, ly, s1, s2.
  do 13 (split; [done|]).
  unfold union. rewrite Hfx, bind_Ok. cbv beta iota.
  rewrite Hfy, bind_Ok. cbv beta iota.
  case_decide; [done|].
  rewrite !getitem_lt by lia. rewrite !bind_Ok.
  case_decide; [by rewrite setitem_lt by lia|].
  case_decide; [by rewrite setitem_lt by lia|].
  rewrite setitem_lt by lia. rewrite !bind_Ok.
  by rewrite setitem_lt by lia.
Qed.

Lemma union_Ok_lt n s x y b s' :
  uf_wf n s → union s x y = Ok (b, s') → x < n ∧ y < n.
Proof.
  intros Hwf. unfold union.
  destruct (find s x) as [[px s1]| |] eqn:Hfx; try done.
  rewrite bind_Ok. cbv beta iota.
  destruct (find s1 y) as [[py s2]| |] eqn:Hfy; try done.
  intros _. pose proof (find_Ok_wf _ _ _ _ _ Hwf Hfx) as (Hl1 & _).
  pose proof Hwf as (Hl & _).
  apply find_Ok_lt in Hfx, Hfy. lia.
Qed.

(** Ranks. *)

Lemma path_rank s x l r z :
  rank_ok s → path (parent s) x l r → z ∈ l → z ≠ r →
  rank s !!! z < rank s !!! r.
Proof.
  intros Hok Hp. revert z.
  induction Hp as [x Hx|x y l r Hx Hne Hp IH]; intros z Hz Hzr.
  - apply list_elem_of_singleton in Hz. congruence.
  - assert (rank s !!! x < rank s !!! r) as Hxr.
    { pose proof (Hok x y Hx Hne) as Hxy.
      destruct (decide (y = r)) as [->|Hyr]; [done|].
      destruct (path_head _ _ _ _ Hp) as [l' ->].
      specialize (IH y ltac:(by left) Hyr). lia. }
    apply elem_of_cons in Hz as [->|Hz]; [done | by apply IH].
Qed.

Lemma compress_rank_ok s x l r s' :
  rank_ok s → path (parent s) x l r →
  parent s' = compress r l (parent s) → rank s' = rank s →
  rank_ok s'.
Proof.
  intros Hok Hp Hpar Hrk y py Hy Hne. rewrite Hrk.
  rewrite Hpar, (path_compress_lookup _ _ _ _ _ Hp) in Hy.
  case_decide as Hin; [|by apply Hok].
  injection Hy as <-. by apply (path_rank s x l).
Qed.

Lemma link_rank_ok s w l rk :
  rank_ok s →
  parent s !! w = Some w → parent s !! l = Some l → w ≠ l →
  (∀ z, z ≠ w → rk !!! z = rank s !!! z) →
  rank s !!! w ≤ rk !!! w → rank s !!! l < rk !!! w →
  rank_ok {| parent := <[l:=w]> (parent s); rank := rk |}.
Proof.
  intros Hok Hw Hl Hne Hrk Hle Hlt y py Hy Hpy. cbn [parent rank] in *.
  destruct (decide (l = y)) as [->|Hly].
  - rewrite list_lookup_insert_eq in Hy by (by eapply lookup_lt_Some).
    injection Hy as <-. rewrite (Hrk y) by done. done.
  - rewrite list_lookup_insert_ne in Hy by done.
    assert (y ≠ w) as Hyw by (intros ->; congruence).
    rewrite (Hrk y) by done. pose proof (Hok y py Hy Hpy) as Hlt'.
    destruct (decide (py = w)) as [->|Hpw]; [lia|].
    by rewrite (Hrk py).
Qed.

Lemma union_rank_ok n s x y b s' :
  uf_wf n s → rank_ok s → union s x y = Ok (b, s') → rank_ok s'.
Proof.
  intros Hwf Hok Hu.
  destruct (union_Ok_lt n s x y b s' Hwf Hu) as [Hx Hy].
  destruct (union_shape n s x y Hwf Hx Hy)
    as (rx & ry & lx & ly & s1 & s2 & Hpx & _ & _ & Hp1 & Hr1 &
        Hpy & _ & Hwf2 & Hp2 & Hr2 & Hrootx & Hrooty & _ & _ & Hshape).
  pose proof (compress_rank_ok s x lx rx s1 Hok Hpx Hp1 Hr1) as Hok1.
  pose proof (compress_rank_ok s1 y ly ry s2 Hok1 Hpy Hp2 Hr2) as Hok2.
  pose proof Hwf2 as (Hlp2 & Hlr2 & _).
  apply lookup_lt_Some in Hrootx as Hltx.
  rewrite Hshape in Hu. clear Hshape.
  repeat case_decide; simplify_eq; [done|..].
  - apply link_rank_ok; auto.
  - apply link_rank_ok; auto.
  - apply link_rank_ok; auto.
    + intros z Hz. by rewrite list_lookup_total_insert_ne.
    + rewrite list_lookup_total_insert_eq by lia. lia.
    + rewrite list_lookup_total_insert_eq by lia. lia.
Qed.

Lemma reachable_rank_ok n s : reachable n s → rank_ok s.
Proof.
  induction 1 as [|s x r s' Hr IH Hf|s x y b s' Hr IH Hu].
  - intros x px Hx Hne. simpl in Hx.
    apply lookup_seq in Hx as [-> _]. done.
  - pose proof (reachable_wf n s Hr) as Hwf.
    apply find_Ok_lt in Hf as Hx. destruct Hwf as (Hl & _). rewrite Hl in Hx.
    destruct (find_wf n s x (reachable_wf n s Hr) Hx)
      as (l & r' & s'' & Hp & Hf' & Hpar & Hrk & _).
    rewrite Hf' in Hf. simplify_eq. by eapply compress_rank_ok.
  - eapply union_rank_ok; [by apply reachable_wf | done | done].
Qed.

(** Counting the sets. *)

Lemma filter_length_ext_in (P Q : nat → Prop)
    `{!∀ x, Decision (P x)} `{!∀ x, Decision (Q x)} (xs : list nat) :
  (∀ z, z ∈ xs → P z ↔ Q z) →
  length (filter P xs) = length (filter Q xs).
Proof.
  induction xs as [|z xs IH]; intros Hiff; [done|].
  rewrite !filter_cons.
  assert (P z ↔ Q z) as Hz by (apply Hiff; by left).
  assert (length (filter P xs) = length (filter Q xs)) as Hrec.
  { apply IH. intros z' Hz'. apply Hiff. by right. }
  destruct (decide (P z)), (decide (Q z)); simpl; try tauto; lia.
Qed.

Lemma filter_length_drop_one (P Q : nat → Prop)
    `{!∀ x, Decision (P x)} `{!∀ x, Decision (Q x)} (xs : list nat) l :
  NoDup xs → l ∈ xs → P l → ¬ Q l →
  (∀ z, z ≠ l → P z ↔ Q z) →
  length (filter P xs) = S (length (filter Q xs)).
Proof.
  intros Hnd Hl HP HQ Hiff.
  induction xs as [|z xs IH]; [by apply elem_of_nil in Hl|].
  apply NoDup_cons in Hnd as [Hz Hnd].
  rewrite !filter_cons.
  destruct (decide (z = l)) as [->|Hzl].
  - rewrite decide_True, decide_False by done. simpl. f_equal.
    apply filter_length_ext_in. intros z Hin. apply Hiff. by intros ->.
  - apply elem_of_cons in Hl as [?|Hl]; [congruence|].
    specialize (IH Hnd Hl). specialize (Hiff z Hzl).
    destruct (decide (P z)), (decide (Q z)); simpl; try tauto; lia.
Qed.

Lemma num_sets_init n : num_sets (init n) = n.
Proof.
  unfold num_sets, init. cbn [parent]. rewrite length_seq.
  trans (length (filter (λ _ : nat, True) (seq 0 n))).
  - apply filter_length_ext_in. intros z Hz. apply elem_of_seq in Hz.
    split; [done|]. intros _. apply lookup_seq_lt. lia.
  - rewrite <-(length_seq n 0) at 2. f_equal.
    induction (seq 0 n) as [|z xs IH]; [done|].
    rewrite filter_cons. rewrite decide_True by done. by rewrite IH.
Qed.

Lemma num_sets_compress s x l r s' :
  path (parent s) x l r → parent s' = compress r l (parent s) →
  num_sets s' = num_sets s.
Proof.
  intros Hp Hpar. unfold num_sets. rewrite Hpar, compress_length.
  apply filter_length_ext_in. intros z _.
  rewrite (path_compress_lookup _ _ _ _ _ Hp).
  case_decide as Hin; [|done]. split.
  - intros [= ->]. by eapply path_root_lookup.
  - intros Hz. by rewrite (path_elem_root _ _ _ _ _ Hp Hin Hz).
Qed.

Lemma num_sets_link s w l rk :
  parent s !! l = Some l → w ≠ l →
  num_sets s = S (num_sets {| parent := <[l:=w]> (parent s); rank := rk |}).
Proof.
  intros Hl Hne. unfold num_sets. cbn [parent]. rewrite length_insert.
  apply lookup_lt_Some in Hl as Hlt.
  apply (filter_length_drop_one _ _ _ l).
  - apply NoDup_seq.
  - apply elem_of_seq. lia.
  - done.
  - rewrite list_lookup_insert_eq by done. congruence.
  - intros z Hz. by rewrite list_lookup_insert_ne.
Qed.

(** ** Properties *)

(** X13. In a reachable state, [union(x, y)] returns [False] exactly when
    [x] and [y] were already in one set; afterwards [x] and [y] are in one
    set, and two elements share a set exactly when they did before or one
    was with [x] and the other with [y]. *)
Theorem union_false_iff_joined n s x y :
  reachable n s → x < n → y < n →
  ∃ b s',
    union s x y = Ok (b, s') ∧ reachable n s' ∧
    (b = false ↔ same_root (parent s) x y) ∧
    same_root (parent s') x y ∧
    ∀ a c, a < n → c < n →
      same_root (parent s') a c ↔
        same_root (parent s) a c ∨
        (same_root (parent s) a x ∧ same_root (parent s) y c) ∨
        (same_root (parent s) a y ∧ same_root (parent s) x c).
Proof.
  intros Hr Hx Hy. pose proof (reachable_wf n s Hr) as Hwf.
  destruct (union_spec n s x y Hwf Hx Hy) as (b & s' & Hu & Hwf' & Hb & Hs).
  exists b, s'. split; [done|]. split; [by eapply reachable_union|].
  split; [done|]. split; [|done].
  apply Hs; [done..|]. right; left.
  pose proof Hwf as (_ & _ & Hroots).
  destruct (Hroots x Hx) as (rx & Hrx). destruct (Hroots y Hy) as (ry & Hry).
  split; [by exists rx | by exists ry].
Qed.

Lemma union_false_iff_joined_witness :
  ∃ b s',
    union (init 3) 0 2 = Ok (b, s') ∧
    (b = false ↔ same_root (parent (init 3)) 0 2) ∧
    same_root (parent s') 0 2.
Proof.
  destruct (union_false_iff_joined 3 (init 3) 0 2)
    as (b & s' & Hu & _ & Hb & Hs & _); [constructor | lia | lia |].
  exists b, s'. split; [exact Hu|]. split; [exact Hb | exact Hs].
Defined.

(** X14. Union by rank: in every reachable state the rank grows strictly
    along every parent link, so that a root has the largest rank of its
    set. *)
Theorem rank_grows_along_links n s x px :
  reachable n s →
  parent s !! x = Some px → px ≠ x →
  rank s !!! x < rank s !!! px.
Proof. intros Hr. by apply (reachable_rank_ok n s Hr). Qed.

Lemma rank_grows_along_links_witness :
  [2; 0; 1; 0] !!! 3 < [2; 0; 1; 0] !!! 2.
Proof.
  apply (rank_grows_along_links 4
           {| parent := [0; 0; 0; 2]; rank := [2; 0; 1; 0] |} 3 2).
  - apply (unions_reachable 4 (init 4) [(0, 1); (2, 3); (0, 2)]);
      [constructor | reflexivity].
  - reflexivity.
  - lia.
Defined.

(** X15. In a reachable state, a second [find] of the same element
    returns the same root and changes nothing: after the first call the
    element points at its root. *)
Theorem find_twice n s x r s1 :
  reachable n s → find s x = Ok (r, s1) →
  parent s1 !! x = Some r ∧ parent s1 !! r = Some r ∧
  find s1 x = Ok (r, s1).
Proof.
  intros Hr Hf. pose proof (reachable_wf n s Hr) as Hwf.
  apply find_Ok_lt in Hf as Hx. pose proof Hwf as (Hl & _). rewrite Hl in Hx.
  destruct (find_wf n s x Hwf Hx)
    as (l & r' & s' & Hp & Hf' & Hpar & Hrk & Hwf' & Hroots).
  rewrite Hf' in Hf. simplify_eq.
  assert (parent s1 !! x = Some r) as Hxr.
  { rewrite Hpar, (path_compress_lookup _ _ _ _ _ Hp).
    destruct (path_head _ _ _ _ Hp) as [l' ->].
    rewrite decide_True; [done | by left]. }
  assert (parent s1 !! r = Some r) as Hrr.
  { rewrite Hpar, (path_compress_lookup _ _ _ _ _ Hp).
    rewrite decide_True; [done | by eapply path_root_elem]. }
  split; [done|]. split; [done|].
  destruct (decide (r = x)) as [->|Hne].
  - rewrite (find_spec s1 x [x] x) by by constructor.
    simpl. rewrite list_insert_id by done. by destruct s1.
  - rewrite (find_spec s1 x [x; r] r)
      by (econstructor; [done | done | by constructor]).
    simpl. rewrite (list_insert_id _ r) by done.
    rewrite list_insert_id by done. by destruct s1.
Qed.

Lemma find_twice_witness :
  find {| parent := [0; 0; 0; 0]; rank := [2; 0; 1; 0] |} 3 =
    Ok (0, {| parent := [0; 0; 0; 0]; rank := [2; 0; 1; 0] |}).
Proof.
  refine (proj2 (proj2 (find_twice 4
            {| parent := [0; 0; 0; 2]; rank := [2; 0; 1; 0] |} 3 0 _ _ _))).
  - apply (unions_reachable 4 (init 4) [(0, 1); (2, 3); (0, 2)]);
      [constructor | reflexivity].
  - reflexivity.
Defined.

(** X16. An element id that is not below [n] makes [find] and [union]
    raise [IndexError], whichever argument of [union] it is. *)
Theorem find_union_out_of_range n s x :
  reachable n s → n ≤ x →
  find s x = Raise IndexError ∧
  (∀ y, union s x y = Raise IndexError) ∧
  (∀ y, y < n → union s y x = Raise IndexError).
Proof.
  intros Hr Hx. pose proof (reachable_wf n s Hr) as Hwf.
  assert (∀ s', uf_wf n s' → find s' x = Raise IndexError) as Hraise.
  { intros s' (Hl & _). unfold find. rewrite find_loop_unfold.
    rewrite getitem_ge by lia. done. }
  split; [by apply Hraise|]. split.
  - intros y. unfold union. by rewrite Hraise.
  - intros y Hy.
    destruct (find_wf n s y Hwf Hy) as (l & r & s1 & _ & Hf & _ & _ & Hwf1 & _).
    unfold union. rewrite Hf, bind_Ok. cbv beta iota. by rewrite Hraise.
Qed.

Lemma find_union_out_of_range_witness :
  find (init 3) 3 = Raise IndexError.
Proof.
  refine (proj1 (find_union_out_of_range 3 (init 3) 3 _ _));
    [constructor | lia].
Defined.

(** X17. The number of sets: [UnionFind(n)] starts with [n] sets, [find]
    does not change the number, and [union] lowers it by one when it
    returns [True] and leaves it when it returns [False]. *)
Theorem union_counts_sets n s x y b s' :
  reachable n s → union s x y = Ok (b, s') →
  num_sets (init n) = n ∧
  (∀ z r s1, find s z = Ok (r, s1) → num_sets s1 = num_sets s) ∧
  num_sets s = (if b then S (num_sets s') else num_sets s').
Proof.
  intros Hr Hu. pose proof (reachable_wf n s Hr) as Hwf.
  split; [apply num_sets_init|]. split.
  - intros z r s1 Hf.
    apply find_Ok_lt in Hf as Hz. pose proof Hwf as (Hl & _).
    rewrite Hl in Hz.
    destruct (find_wf n s z Hwf Hz) as (l & r' & s1' & Hp & Hf' & Hpar & _).
    rewrite Hf' in Hf. simplify_eq. by eapply num_sets_compress.
  - destruct (union_Ok_lt n s x y b s' Hwf Hu) as [Hx Hy].
    destruct (union_shape n s x y Hwf Hx Hy)
      as (rx & ry & lx & ly & s1 & s2 & Hpx & _ & _ & Hp1 & _ &
          Hpy & _ & _ & Hp2 & _ & Hrootx & Hrooty & _ & _ & Hshape).
    pose proof (num_sets_compress s x lx rx s1 Hpx Hp1) as H1.
    pose proof (num_sets_compress s1 y ly ry s2 Hpy Hp2) as H2.
    rewrite Hshape in Hu. clear Hshape.
    repeat case_decide; simplify_eq; rewrite <-H1, <-H2;
      [done | by apply num_sets_link..].
Qed.

Lemma union_counts_sets_witness :
  num_sets (init 3) =
    S (num_sets {| parent := [0; 0; 2]; rank := [1; 0; 0] |}).
Proof.
  refine (proj2 (proj2 (union_counts_sets 3 (init 3) 0 1 true
            {| parent := [0; 0; 2]; rank := [1; 0; 0] |} _ _)));
    [constructor | reflexivity].
Defined.

End uf_more_facts.

(** * Singly linked list, further properties: proofs *)

Section linked_list_more_facts.
Import LinkedList LinkedListMore.
Implicit Types st : store.
Implicit Types ls : list loc.
Implicit Types vs : list Z.

Lemma chain_head st hd ls vs : chain st hd ls vs → hd = ls !! 0%nat.
Proof. by destruct 1. Qed.

Lemma chain_nil_inv st hd vs : chain st hd [] vs → hd = None ∧ vs = [].
Proof. by inversion 1. Qed.

Lemma chain_None_inv st ls vs : chain st None ls vs → ls = [] ∧ vs = [].
Proof. by inversion 1. Qed.

Lemma chain_lookup st hd ls vs i l :
  chain st hd ls vs → ls !! i = Some l →
  ∃ v, vs !! i = Some v ∧ st !! l = Some (ListNode v (ls !! S i)).
Proof.
  intros Hc. revert i. induction Hc as [|l' v nx ls vs Hl Hc IH]; intros i.
  - done.
  - destruct i as [|i]; simpl.
    + intros [= ->]. exists v. split; [done|].
      by rewrite <-(chain_head _ _ _ _ Hc).
    + apply IH.
Qed.

Lemma chain_snoc st hd ls vs t tn n v :
  chain st hd ls vs → last ls = Some t → st !! t = Some tn → n ∉ ls →
  chain (<[t := ListNode (val tn) (Some n)]> (<[n := ListNode v None]> st))
        hd (ls ++ [n]) (vs ++ [v]).
Proof.
  intros Hc Hlast Ht Hn. pose proof (chain_NoDup _ _ _ _ Hc) as Hnd.
  assert (t ≠ n) as Htn.
  { intros ->. by apply Hn, last_elem_of. }
  induction Hc as [|l v0 nx ls vs Hl Hc IH]; [done|].
  apply NoDup_cons in Hnd as [Hlls Hnd].
  apply not_elem_of_cons in Hn as [Hnl Hn].
  destruct ls as [|l2 ls].
  - apply chain_nil_inv in Hc as [-> ->]. simpl in Hlast.
    injection Hlast as <-. rewrite Hl in Ht. injection Ht as <-.
    simpl. econstructor; [by rewrite lookup_insert_eq|].
    econstructor; [|constructor].
    by rewrite lookup_insert_ne, lookup_insert_eq.
  - rewrite last_cons_cons in Hlast.
    assert (l ≠ t) as Hlt.
    { intros ->. by apply Hlls, last_elem_of. }
    cbn [app]. econstructor; [|by apply IH].
    by rewrite !lookup_insert_ne.
Qed.

Lemma insert_end_spec st ll ls vs v :
  consistent st ll ls vs →
  ∃ st' ll' n,
    insert_end st ll v = Ok (st', ll') ∧ st !! n = None ∧
    consistent st' ll' (ls ++ [n]) (vs ++ [v]) ∧
    (∀ l, l ∉ ls → l ≠ n → st' !! l = st !! l).
Proof.
  intros [Hc Htail]. unfold insert_end, alloc.
  set (n := fresh (dom st)).
  assert (n ∉ dom st) as Hn by apply is_fresh.
  assert (n ∉ ls) as Hnls.
  { intros Hin. by apply Hn, (chain_dom _ _ _ _ _ Hc). }
  destruct (tail ll) as [t|] eqn:Ht.
  - symmetry in Htail. apply last_elem_of in Htail as Hin.
    apply (chain_dom _ _ _ _ _ Hc), elem_of_dom in Hin as [tn Htn].
    assert (t ≠ n) as Hne by (intros ->; apply Hn, elem_of_dom; eauto).
    rewrite (deref_lookup _ _ tn) by by rewrite lookup_insert_ne.
    rewrite bind_Ok. eexists _, _, n. split; [done|].
    split; [by apply not_elem_of_dom|]. split.
    + split; cbn [head tail]; [by apply chain_snoc | by rewrite last_snoc].
    + intros l Hl Hln. rewrite !lookup_insert_ne; [done | done |].
      intros ->. by apply Hl, last_elem_of.
  - symmetry in Htail. apply last_None in Htail as ->.
    apply chain_nil_inv in Hc as [Hhd ->].
    eexists _, _, n. split; [done|]. split; [by apply not_elem_of_dom|].
    split.
    + split; cbn [head tail]; [|done].
      econstructor; [by rewrite lookup_insert_eq | constructor].
    + intros l _ Hln. by rewrite lookup_insert_ne.
Qed.

Lemma insert_front_spec st ll ls vs v :
  consistent st ll ls vs →
  ∃ st' ll' n,
    insert_front st ll v = Ok (st', ll') ∧ st !! n = None ∧
    consistent st' ll' (n :: ls) (v :: vs) ∧
    (∀ l, l ≠ n → st' !! l = st !! l).
Proof.
  intros [Hc Htail]. unfold insert_front, alloc.
  set (n := fresh (dom st)).
  assert (n ∉ dom st) as Hn by apply is_fresh.
  assert (n ∉ ls) as Hnls.
  { intros Hin. by apply Hn, (chain_dom _ _ _ _ _ Hc). }
  destruct (head ll) as [h|] eqn:Hh.
  - eexists _, _, n. split; [done|]. split; [by apply not_elem_of_dom|].
    split.
    + split; cbn [head tail].
      * econstructor; [by rewrite lookup_insert_eq|].
        by do 2 (apply chain_insert_ne; [done|]).
      * destruct ls; [by inversion Hc | by rewrite last_cons_cons].
    + intros l Hl. by rewrite !lookup_insert_ne.
  - apply chain_None_inv in Hc as [-> ->].
    eexists _, _, n. split; [done|]. split; [by apply not_elem_of_dom|].
    split.
    + split; cbn [head tail]; [|done].
      econstructor; [by rewrite lookup_insert_eq | constructor].
    + intros l Hl. by rewrite lookup_insert_ne.
Qed.

Lemma list_find_loop_spec fuel st hd ls vs v :
  chain st hd ls vs → (length vs ≤ fuel)%nat →
  LinkedList.find_loop fuel st hd v = Ok (bool_decide (v ∈ vs)).
Proof.
  intros Hc. revert fuel.
  induction Hc as [|l x nx ls vs Hl _ IH]; intros fuel Hf.
  - rewrite bool_decide_eq_false_2 by apply not_elem_of_nil.
    by destruct fuel.
  - destruct fuel as [|fuel]; [simpl in Hf; lia|].
    cbn [LinkedList.find_loop]. rewrite (deref_lookup _ _ _ Hl), bind_Ok.
    cbn [val next]. destruct (decide (x = v)) as [Hx|Hx].
    + subst. rewrite bool_decide_eq_true_2; [done | apply list_elem_of_here].
    + rewrite IH by (simpl in Hf; lia). f_equal.
      apply bool_decide_ext. rewrite elem_of_cons. split; [auto|].
      intros [?|?]; [congruence | done].
Qed.

Lemma get_length_loop_spec fuel st hd ls vs count :
  chain st hd ls vs → (length vs ≤ fuel)%nat →
  get_length_loop fuel st hd count = Ok (count + Z.of_nat (length vs)).
Proof.
  intros Hc. revert fuel count.
  induction Hc as [|l x nx ls vs Hl _ IH]; intros fuel count Hf.
  - destruct fuel; simpl; f_equal; lia.
  - destruct fuel as [|fuel]; [simpl in Hf; lia|].
    cbn [get_length_loop]. rewrite (deref_lookup _ _ _ Hl), bind_Ok.
    cbn [next]. rewrite IH by (simpl in Hf; lia). f_equal. simpl. lia.
Qed.

Lemma from_list_loop_spec st cur cv arr :
  st !! cur = Some (ListNode cv None) →
  ∃ st' ls,
    from_list_loop st cur arr = Ok st' ∧
    chain st' (Some cur) (cur :: ls) (cv :: arr) ∧
    (∀ l, l ∈ dom st → l ≠ cur → st' !! l = st !! l) ∧
    (∀ l, l ∈ ls → l ∉ dom st).
Proof.
  revert st cur cv. induction arr as [|v arr IH]; intros st cur cv Hcur.
  - exists st, []. split; [done|].
    split; [econstructor; [done | constructor]|].
    split; [done|]. by intros l ?%elem_of_nil.
  - cbn [from_list_loop]. unfold alloc.
    set (n := fresh (dom st)).
    assert (n ∉ dom st) as Hn by apply is_fresh.
    assert (cur ≠ n) as Hne by (intros ->; apply Hn, elem_of_dom; eauto).
    rewrite (deref_lookup _ _ (ListNode cv None))
      by by rewrite lookup_insert_ne.
    rewrite bind_Ok. cbn [val].
    set (st2 := <[cur := ListNode cv (Some n)]> (<[n := ListNode v None]> st)).
    destruct (IH st2 n v) as (st' & ls & Hloop & Hchain & Hfr & Hfresh).
    { unfold st2. by rewrite lookup_insert_ne, lookup_insert_eq. }
    assert (dom st2 = {[cur]} ∪ ({[n]} ∪ dom st)) as Hdom.
    { unfold st2. by rewrite !dom_insert_L. }
    exists st', (n :: ls). split; [done|]. split; [|split].
    + econstructor; [|done]. rewrite Hfr.
      * unfold st2. by rewrite lookup_insert_eq.
      * rewrite Hdom, elem_of_union, elem_of_singleton. by left.
      * done.
    + intros l Hl Hlc. rewrite Hfr.
      * unfold st2. rewrite !lookup_insert_ne; [done | | done].
        intros ->. done.
      * rewrite Hdom, !elem_of_union. by right; right.
      * intros ->. done.
    + intros l [->|Hl]%elem_of_cons; [done|].
      specialize (Hfresh l Hl). rewrite Hdom, !elem_of_union in Hfresh.
      intros ?. apply Hfresh. by right; right.
Qed.

(** The two-pointer loops. *)

Lemma middle_loop_unfold fuel st slow fast :
  middle_loop fuel st slow fast =
  match fast with
  | None => Ok slow
  | Some f =>
      fn ← deref st f;
      match next fn with
      | None => Ok slow
      | Some f1 =>
          match fuel with
          | O => Stuck
          | S fuel' =>
              sn ← (match slow with Some s => deref st s | None => Stuck end);
              f1n ← deref st f1;
              middle_loop fuel' st (next sn) (next f1n)
          end
      end
  end.
Proof. by destruct fuel. Qed.

Lemma has_cycle_loop_unfold fuel st slow fast :
  has_cycle_loop fuel st slow fast =
  match fast with
  | None => Ok false
  | Some f =>
      fn ← deref st f;
      match next fn with
      | None => Ok false
      | Some f1 =>
          match fuel with
          | O => Stuck
          | S fuel' =>
              sn ← (match slow with Some s => deref st s | None => Stuck end);
              f1n ← deref st f1;
              if decide (next sn = next f1n) then Ok true
              else has_cycle_loop fuel' st (next sn) (next f1n)
          end
      end
  end.
Proof. by destruct fuel. Qed.

Lemma chain_step st hd ls vs i l :
  chain st hd ls vs → ls !! i = Some l →
  ∃ nd, deref st l = Ok nd ∧ next nd = ls !! S i ∧ vs !! i = Some (val nd).
Proof.
  intros Hc Hl. destruct (chain_lookup _ _ _ _ _ _ Hc Hl) as (v & Hv & Hst).
  eexists. split; [by apply deref_lookup|]. done.
Qed.

Local Ltac step_chain Hc H :=
  let nd := fresh "nd" in
  let Hd := fresh "Hd" in
  let Hn := fresh "Hn" in
  destruct (chain_step _ _ _ _ _ _ Hc H) as (nd & Hd & Hn & _);
  rewrite Hd, bind_Ok; cbv beta; rewrite Hn; clear nd Hd Hn.

Lemma middle_loop_spec fuel st hd ls vs k :
  chain st hd ls vs →
  (2 * k ≤ length ls)%nat → (length ls / 2 ≤ k + fuel)%nat →
  middle_loop fuel st (ls !! k) (ls !! (2 * k)%nat)
  = Ok (ls !! (length ls / 2)%nat).
Proof.
  intros Hc. revert k. induction fuel as [|fuel IH]; intros k Hk Hf;
    rewrite middle_loop_unfold.
  - destruct (ls !! (2 * k)%nat) as [f|] eqn:Hfast.
    + apply lookup_lt_Some in Hfast as Hlt.
      step_chain Hc Hfast.
      rewrite (lookup_ge_None_2 ls (S (2 * k))) by lia.
      do 2 f_equal. lia.
    + apply lookup_ge_None in Hfast. do 2 f_equal. lia.
  - destruct (ls !! (2 * k)%nat) as [f|] eqn:Hfast.
    + apply lookup_lt_Some in Hfast as Hlt.
      step_chain Hc Hfast.
      destruct (ls !! S (2 * k)) as [f1|] eqn:Hf1.
      * apply lookup_lt_Some in Hf1 as Hlt1.
        destruct (lookup_lt_is_Some_2 ls k) as [s Hs]; [lia|].
        rewrite Hs.
        step_chain Hc Hs.
        step_chain Hc Hf1.
        replace (S (S (2 * k))) with (2 * S k)%nat by lia.
        apply IH; lia.
      * apply lookup_ge_None in Hf1. do 2 f_equal. lia.
    + apply lookup_ge_None in Hfast. do 2 f_equal. lia.
Qed.

Lemma has_cycle_loop_chain fuel st hd ls vs k :
  chain st hd ls vs →
  (2 * k ≤ length ls)%nat → (length ls / 2 ≤ k + fuel)%nat →
  has_cycle_loop fuel st (ls !! k) (ls !! (2 * k)%nat) = Ok false.
Proof.
  intros Hc. pose proof (chain_NoDup _ _ _ _ Hc) as Hnd.
  revert k. induction fuel as [|fuel IH]; intros k Hk Hf;
    rewrite has_cycle_loop_unfold.
  - destruct (ls !! (2 * k)%nat) as [f|] eqn:Hfast; [|done].
    apply lookup_lt_Some in Hfast as Hlt.
    step_chain Hc Hfast.
    by rewrite (lookup_ge_None_2 ls (S (2 * k))) by lia.
  - destruct (ls !! (2 * k)%nat) as [f|] eqn:Hfast; [|done].
    apply lookup_lt_Some in Hfast as Hlt.
    step_chain Hc Hfast.
    destruct (ls !! S (2 * k)) as [f1|] eqn:Hf1; [|done].
    apply lookup_lt_Some in Hf1 as Hlt1.
    destruct (lookup_lt_is_Some_2 ls k) as [s Hs]; [lia|].
    rewrite Hs.
    step_chain Hc Hs.
    step_chain Hc Hf1.
    destruct (decide (ls !! S k = ls !! S (S (2 * k)))) as [He|_].
    + exfalso. destruct (lookup_lt_is_Some_2 ls (S k)) as [s1 Hs1]; [lia|].
      rewrite Hs1 in He. symmetry in He.
      pose proof (NoDup_lookup _ _ _ _ Hnd Hs1 He). lia.
    + replace (S (S (2 * k))) with (2 * S k)%nat by lia.
      apply IH; lia.
Qed.

Lemma has_cycle_loop_lasso fuel st hd pre cyc k :
  lasso st hd pre cyc →
  (∃ j, (k < j ≤ k + fuel)%nat ∧ walk pre cyc j = walk pre cyc (2 * j)) →
  has_cycle_loop fuel st (Some (walk pre cyc k)) (Some (walk pre cyc (2 * k)))
  = Ok true.
Proof.
  intros (Hne & Hhd & Hstep). revert k.
  induction fuel as [|fuel IH]; intros k (j & Hj & Hmeet);
    rewrite has_cycle_loop_unfold; [lia|].
  destruct (Hstep (2 * k)%nat) as [v1 H1].
  destruct (Hstep (S (2 * k))) as [v2 H2].
  destruct (Hstep k) as [v3 H3].
  rewrite (deref_lookup _ _ _ H1), bind_Ok. cbn [next].
  rewrite (deref_lookup _ _ _ H3), bind_Ok. cbn [next].
  rewrite (deref_lookup _ _ _ H2), bind_Ok. cbn [next].
  destruct (decide (Some (walk pre cyc (S k))
                    = Some (walk pre cyc (S (S (2 * k)))))) as [|Hd];
    [done|].
  replace (S (S (2 * k))) with (2 * S k)%nat in * by lia.
  apply IH. exists j. split; [|done].
  destruct (decide (j = S k)) as [->|]; [|lia]. by rewrite Hmeet in Hd.
Qed.

Lemma lasso_meet pre cyc :
  cyc ≠ [] →
  ∃ j, (0 < j ≤ length pre + length cyc)%nat
       ∧ walk pre cyc j = walk pre cyc (2 * j).
Proof.
  intros Hne.
  assert (0 < length cyc)%nat as Hlam by (destruct cyc; [done | simpl; lia]).
  set (lam := length cyc) in *. set (mu := length pre).
  exists (lam * (mu / lam + 1))%nat.
  assert (mu < lam * (mu / lam + 1))%nat as Hgt.
  { pose proof (Nat.div_mod_eq mu lam).
    pose proof (Nat.mod_upper_bound mu lam). lia. }
  assert (lam * (mu / lam) ≤ mu)%nat as Hle by (apply Nat.Div0.mul_div_le).
  split; [lia|]. unfold walk. fold lam mu.
  rewrite !decide_False by lia. f_equal.
  replace (2 * (lam * (mu / lam + 1)) - mu)%nat
    with ((lam * (mu / lam + 1) - mu) + (mu / lam + 1) * lam)%nat by lia.
  by rewrite Nat.Div0.mod_add.
Qed.

(** Merging. *)

Lemma merge_loop_unfold fuel st cur l1 l2 :
  merge_loop fuel st cur l1 l2 =
  match l1, l2 with
  | Some a, Some b =>
      match fuel with
      | O => Stuck
      | S fuel' =>
          an ← deref st a;
          bn ← deref st b;
          cn ← deref st cur;
          if decide (val an < val bn) then
            merge_loop fuel' (<[cur := ListNode (val cn) (Some a)]> st)
              a (next an) l2
          else
            merge_loop fuel' (<[cur := ListNode (val cn) (Some b)]> st)
              b l1 (next bn)
      end
  | _, _ =>
      cn ← deref st cur;
      Ok (<[cur := ListNode (val cn)
                     (match l1 with Some _ => l1 | None => l2 end)]> st)
  end.
Proof. by destruct fuel. Qed.

Lemma merge_vals_nil_l ys : merge_vals [] ys = ys.
Proof. by destruct ys. Qed.

Lemma merge_vals_nil_r xs : merge_vals xs [] = xs.
Proof. by destruct xs. Qed.

Lemma merge_vals_cons x xs y ys :
  merge_vals (x :: xs) (y :: ys) =
  if decide (x < y) then x :: merge_vals xs (y :: ys)
  else y :: merge_vals (x :: xs) ys.
Proof. done. Qed.

Lemma merge_vals_perm xs ys : merge_vals xs ys ≡ₚ xs ++ ys.
Proof.
  revert ys. induction xs as [|x xs IHx]; intros ys.
  - by rewrite merge_vals_nil_l.
  - induction ys as [|y ys IHy].
    + by rewrite merge_vals_nil_r, app_nil_r.
    + rewrite merge_vals_cons. destruct (decide (x < y)).
      * cbn [app]. by rewrite IHx.
      * rewrite IHy. by rewrite <-Permutation_middle.
Qed.

Lemma merge_vals_sorted xs ys :
  Sorted Z.le xs → Sorted Z.le ys → Sorted Z.le (merge_vals xs ys).
Proof.
  intros Hx%Sorted_StronglySorted Hy%Sorted_StronglySorted;
    [|intros ???; lia|intros ???; lia].
  revert ys Hy. induction Hx as [|x xs Hx IHx Hfx]; intros ys Hy.
  - rewrite merge_vals_nil_l. by apply StronglySorted_Sorted.
  - induction Hy as [|y ys Hy IHy Hfy].
    + rewrite merge_vals_nil_r. apply StronglySorted_Sorted.
      by constructor.
    + rewrite merge_vals_cons. destruct (decide (x < y)) as [Hlt|Hge].
      * apply Sorted_cons_Forall; [|apply IHx; by constructor].
        rewrite merge_vals_perm. apply Forall_app. split; [done|].
        constructor; [lia|]. eapply Forall_impl; [exact Hfy|].
        intros z ?. simpl in *. lia.
      * apply Sorted_cons_Forall; [|apply IHy].
        rewrite merge_vals_perm. apply Forall_app. split; [|done].
        constructor; [lia|]. eapply Forall_impl; [exact Hfx|].
        intros z ?. simpl in *. lia.
Qed.

Lemma merge_loop_spec fuel st cur cv cnx l1 l2 ls1 vs1 ls2 vs2 :
  chain st l1 ls1 vs1 → chain st l2 ls2 vs2 →
  (∀ l, l ∈ ls1 → l ∉ ls2) → cur ∉ ls1 → cur ∉ ls2 →
  st !! cur = Some (ListNode cv cnx) →
  (length ls1 + length ls2 ≤ fuel)%nat →
  ∃ st' ls,
    merge_loop fuel st cur l1 l2 = Ok st' ∧
    chain st' (Some cur) (cur :: ls) (cv :: merge_vals vs1 vs2) ∧
    ls ≡ₚ ls1 ++ ls2 ∧
    (∀ l, l ≠ cur → l ∉ ls1 → l ∉ ls2 → st' !! l = st !! l).
Proof.
  revert st cur cv cnx l1 l2 ls1 vs1 ls2 vs2.
  induction fuel as [|fuel IH];
    intros st cur cv cnx l1 l2 ls1 vs1 ls2 vs2 Hc1 Hc2 Hdisj Hcur1 Hcur2
      Hcur Hf; rewrite merge_loop_unfold.
  - assert (ls1 = [] ∧ ls2 = []) as [-> ->]
      by (split; apply nil_length_inv; lia).
    apply chain_nil_inv in Hc1 as [-> ->].
    apply chain_nil_inv in Hc2 as [-> ->].
    rewrite (deref_lookup _ _ _ Hcur), bind_Ok. cbn [val].
    exists (<[cur := ListNode cv None]> st), []. split; [done|].
    split; [|split; [done|]].
    + econstructor; [by rewrite lookup_insert_eq | constructor].
    + intros l Hl _ _. by rewrite lookup_insert_ne.
  - destruct Hc1 as [|a va nxa ls1 vs1 Ha Hc1].
    { rewrite (deref_lookup _ _ _ Hcur), bind_Ok. cbn [val].
      exists (<[cur := ListNode cv l2]> st), ls2. split; [done|].
      rewrite merge_vals_nil_l. split; [|split; [done|]].
      - econstructor; [by rewrite lookup_insert_eq|].
        by apply chain_insert_ne.
      - intros l Hl _ _. by rewrite lookup_insert_ne. }
    destruct Hc2 as [|b vb nxb ls2 vs2 Hb Hc2].
    { rewrite (deref_lookup _ _ _ Hcur), bind_Ok. cbn [val].
      exists (<[cur := ListNode cv (Some a)]> st), (a :: ls1).
      split; [done|]. rewrite merge_vals_nil_r, app_nil_r.
      split; [|split; [done|]].
      - econstructor; [by rewrite lookup_insert_eq|].
        apply chain_insert_ne; [done|]. by econstructor.
      - intros l Hl _ _. by rewrite lookup_insert_ne. }
    rewrite (deref_lookup _ _ _ Ha), bind_Ok.
    rewrite (deref_lookup _ _ _ Hb), bind_Ok.
    rewrite (deref_lookup _ _ _ Hcur), bind_Ok. cbn [val next].
    rewrite merge_vals_cons.
    assert (chain st (Some a) (a :: ls1) (va :: vs1)) as Hca
      by by econstructor.
    assert (chain st (Some b) (b :: ls2) (vb :: vs2)) as Hcb
      by by econstructor.
    pose proof (chain_NoDup _ _ _ _ Hca) as [Ha1 _]%NoDup_cons.
    pose proof (chain_NoDup _ _ _ _ Hcb) as [Hb2 _]%NoDup_cons.
    apply not_elem_of_cons in Hcur1 as [Hcura Hcur1].
    apply not_elem_of_cons in Hcur2 as [Hcurb Hcur2].
    assert (a ≠ b) as Hab.
    { intros ->. apply (Hdisj b); apply list_elem_of_here. }
    assert (a ∉ ls2) as Ha2.
    { intros Hin. apply (Hdisj a); [apply list_elem_of_here|].
      by apply list_elem_of_further. }
    assert (b ∉ ls1) as Hb1.
    { intros Hin. apply (Hdisj b); [by apply list_elem_of_further|].
      apply list_elem_of_here. }
    destruct (decide (va < vb)) as [Hlt|Hge].
    + destruct (IH (<[cur := ListNode cv (Some a)]> st) a va nxa nxa (Some b)
                  ls1 vs1 (b :: ls2) (vb :: vs2))
        as (st' & ls & Hloop & Hch & Hperm & Hfr).
      * by apply chain_insert_ne.
      * apply chain_insert_ne; [|done].
        apply not_elem_of_cons. by split.
      * intros l Hl. apply Hdisj. by apply list_elem_of_further.
      * done.
      * apply not_elem_of_cons. by split.
      * by rewrite lookup_insert_ne.
      * simpl in *. lia.
      * exists st', (a :: ls). split; [done|]. split; [|split].
        -- econstructor; [|done]. rewrite Hfr; [|done|done|].
           ++ by rewrite lookup_insert_eq.
           ++ apply not_elem_of_cons. by split.
        -- cbn [app]. by rewrite Hperm.
        -- intros l Hl [Hla Hl1]%not_elem_of_cons Hl2.
           rewrite Hfr by done. by rewrite lookup_insert_ne.
    + destruct (IH (<[cur := ListNode cv (Some b)]> st) b vb nxb (Some a) nxb
                  (a :: ls1) (va :: vs1) ls2 vs2)
        as (st' & ls & Hloop & Hch & Hperm & Hfr).
      * apply chain_insert_ne; [|done].
        apply not_elem_of_cons. by split.
      * by apply chain_insert_ne.
      * intros l Hl Hin. apply (Hdisj l Hl). by apply list_elem_of_further.
      * apply not_elem_of_cons. by split.
      * done.
      * by rewrite lookup_insert_ne.
      * simpl in *. lia.
      * exists st', (b :: ls). split; [done|]. split; [|split].
        -- econstructor; [|done]. rewrite Hfr; [|done| |done].
           ++ by rewrite lookup_insert_eq.
           ++ apply not_elem_of_cons. by split.
        -- rewrite Hperm. by rewrite <-Permutation_middle.
        -- intros l Hl Hl1 [Hlb Hl2]%not_elem_of_cons.
           rewrite Hfr by done. by rewrite lookup_insert_ne.
Qed.

(** ** Properties *)

(** X18. [insert_end] on a list whose fields agree appends a new node
    with the value: the values become [vs ++ [v]], [tail] is the new node,
    and no other object of the store changes but the old tail. *)
Theorem insert_end_appends st ll ls vs v :
  consistent st ll ls vs →
  ∃ st' ll' n,
    insert_end st ll v = Ok (st', ll') ∧ st !! n = None ∧
    consistent st' ll' (ls ++ [n]) (vs ++ [v]) ∧
    tail ll' = Some n ∧
    to_list (S (length vs)) st' (head ll') = Ok (vs ++ [v]).
Proof.
  intros Hc.
  destruct (insert_end_spec st ll ls vs v Hc)
    as (st' & ll' & n & Hi & Hn & Hc' & _).
  exists st', ll', n. split; [done|]. split; [done|]. split; [done|].
  destruct Hc' as [Hch Ht]. split; [by rewrite Ht, last_snoc|].
  eapply to_list_spec; [done|]. rewrite length_app. simpl. lia.
Qed.

Lemma insert_end_appends_witness :
  ∃ st' ll' n,
    insert_end {[ 0%nat := ListNode 4 (Some 1%nat);
                  1%nat := ListNode 9 None ]}
      {| head := Some 0%nat; tail := Some 1%nat |} 7 = Ok (st', ll') ∧
    ({[ 0%nat := ListNode 4 (Some 1%nat);
        1%nat := ListNode 9 None ]} : store) !! n = None ∧
    consistent st' ll' ([0; 1]%nat ++ [n]) ([4; 9] ++ [7]) ∧
    tail ll' = Some n ∧
    to_list 3 st' (head ll') = Ok ([4; 9] ++ [7]).
Proof.
  apply (insert_end_appends
           {[ 0%nat := ListNode 4 (Some 1%nat); 1%nat := ListNode 9 None ]}
           {| head := Some 0%nat; tail := Some 1%nat |}
           [0; 1]%nat [4; 9] 7).
  split; [|reflexivity].
  repeat (econstructor; [reflexivity|]). constructor.
Defined.

(** X19. [insert_front] on a list whose fields agree puts a new node
    with the value in front: the values become [v :: vs], [head] is the
    new node, and no existing object of the store changes. *)
Theorem insert_front_prepends st ll ls vs v :
  consistent st ll ls vs →
  ∃ st' ll' n,
    insert_front st ll v = Ok (st', ll') ∧ st !! n = None ∧
    consistent st' ll' (n :: ls) (v :: vs) ∧
    head ll' = Some n ∧
    (∀ l, l ≠ n → st' !! l = st !! l) ∧
    to_list (S (length vs)) st' (head ll') = Ok (v :: vs).
Proof.
  intros Hc.
  destruct (insert_front_spec st ll ls vs v Hc)
    as (st' & ll' & n & Hi & Hn & Hc' & Hfr).
  exists st', ll', n. split; [done|]. split; [done|]. split; [done|].
  destruct Hc' as [Hch Ht].
  split; [by rewrite (chain_head _ _ _ _ Hch)|]. split; [done|].
  eapply to_list_spec; [done | simpl; lia].
Qed.

Lemma insert_front_prepends_witness :
  ∃ st' ll' n,
    insert_front {[ 0%nat := ListNode 4 (Some 1%nat);
                    1%nat := ListNode 9 None ]}
      {| head := Some 0%nat; tail := Some 1%nat |} 7 = Ok (st', ll') ∧
    ({[ 0%nat := ListNode 4 (Some 1%nat);
        1%nat := ListNode 9 None ]} : store) !! n = None ∧
    consistent st' ll' (n :: [0; 1]%nat) (7 :: [4; 9]) ∧
    head ll' = Some n ∧
    (∀ l, l ≠ n →
       st' !! l = ({[ 0%nat := ListNode 4 (Some 1%nat);
                      1%nat := ListNode 9 None ]} : store) !! l) ∧
    to_list 3 st' (head ll') = Ok (7 :: [4; 9]).
Proof.
  apply (insert_front_prepends
           {[ 0%nat := ListNode 4 (Some 1%nat); 1%nat := ListNode 9 None ]}
           {| head := Some 0%nat; tail := Some 1%nat |}
           [0; 1]%nat [4; 9] 7).
  split; [|reflexivity].
  repeat (econstructor; [reflexivity|]). constructor.
Defined.

(** X20. [find] returns [True] exactly when the value is among the values
    of the list (so [False] on the empty list); it raises nothing and
    leaves the store alone. *)
Theorem find_membership fuel st ll ls vs v :
  chain st (head ll) ls vs → (length vs ≤ fuel)%nat →
  LinkedList.find fuel st ll v = Ok (bool_decide (v ∈ vs)).
Proof. intros Hc Hf. by eapply list_find_loop_spec. Qed.

Lemma find_membership_witness :
  LinkedList.find 2 {[ 0%nat := ListNode 4 (Some 1%nat);
                      1%nat := ListNode 9 None ]}
    {| head := Some 0%nat; tail := Some 1%nat |} 9
  = Ok (bool_decide (9 ∈ [4; 9])).
Proof.
  refine (find_membership 2 _ {| head := Some 0%nat; tail := Some 1%nat |}
            [0; 1]%nat [4; 9] 9 _ _); [|simpl; lia].
  repeat (econstructor; [reflexivity|]). constructor.
Defined.

(** X21. [delete_val] on a list whose fields agree removes the first
    node that holds the value from the chain and no other; when the value
    is absent (or the list empty) the list object is left as it was; and
    the fields agree afterwards whenever the list was not just that one
    node. *)
Theorem delete_val_removes_first fuel st ll ls vs v :
  consistent st ll ls vs → (length vs ≤ fuel)%nat →
  ∃ st' ll' ls',
    delete_val fuel st ll v = Ok (st', ll') ∧
    chain st' (head ll') ls' (remove_one v vs) ∧
    to_list fuel st' (head ll') = Ok (remove_one v vs) ∧
    (v ∉ vs → ll' = ll ∧ ls' = ls) ∧
    (vs ≠ [v] → consistent st' ll' ls' (remove_one v vs)).
Proof.
  intros Hc Hf.
  destruct (delete_val_spec fuel st ll ls vs v Hc Hf)
    as (st' & ll' & ls' & Hd & Hch & Hno & Hcons & _).
  exists st', ll', ls'. split; [done|]. split; [done|].
  split; [|done]. eapply to_list_spec; [done|].
  apply chain_length in Hch. destruct Hc as [Hc _].
  apply chain_length in Hc.
  assert (length (remove_one v vs) ≤ length vs)%nat; [|lia].
  clear. induction vs as [|x vs IH]; simpl; [done|].
  case_decide; simpl; lia.
Qed.

Lemma delete_val_removes_first_witness :
  ∃ st' ll' ls',
    delete_val 2 {[ 0%nat := ListNode 4 (Some 1%nat);
                    1%nat := ListNode 9 None ]}
      {| head := Some 0%nat; tail := Some 1%nat |} 9 = Ok (st', ll') ∧
    chain st' (head ll') ls' [4] ∧
    to_list 2 st' (head ll') = Ok [4] ∧
    consistent st' ll' ls' [4].
Proof.
  destruct (delete_val_removes_first 2
              {[ 0%nat := ListNode 4 (Some 1%nat); 1%nat := ListNode 9 None ]}
              {| head := Some 0%nat; tail := Some 1%nat |}
              [0; 1]%nat [4; 9] 9) as (st' & ll' & ls' & H1 & H2 & H3 & _ & H4).
  - split; [|reflexivity].
    repeat (econstructor; [reflexivity|]). constructor.
  - simpl. lia.
  - exists st', ll', ls'. split; [exact H1|]. split; [exact H2|].
    split; [exact H3|]. apply H4. discriminate.
Defined.

(** X22. [from_list] builds a list whose values, read back by [to_list],
    are the given array; the nodes are new objects and no object already
    in the store changes. [get_length] of the result is the length of the
    array. *)
Theorem from_list_to_list st arr :
  ∃ st' hd ls,
    from_list st arr = Ok (st', hd) ∧
    chain st' hd ls arr ∧
    to_list (length arr) st' hd = Ok arr ∧
    get_length (length arr) st' hd = Ok (Z.of_nat (length arr)) ∧
    (∀ l, l ∈ ls → st !! l = None) ∧
    (∀ l, l ∈ dom st → st' !! l = st !! l).
Proof.
  unfold from_list, alloc. set (d := fresh (dom st)).
  assert (d ∉ dom st) as Hd by apply is_fresh.
  destruct (from_list_loop_spec (<[d := ListNode 0 None]> st) d 0 arr)
    as (st' & ls & Hloop & Hchain & Hfr & Hfresh);
    [by rewrite lookup_insert_eq|].
  rewrite Hloop, bind_Ok.
  inversion Hchain as [|d' z nx ls' vs' Hdl Hc']; subst.
  rewrite (deref_lookup _ _ _ Hdl), bind_Ok. cbn [next].
  exists st', nx, ls. split; [done|]. split; [done|].
  split; [by eapply to_list_spec|].
  split; [unfold get_length; by erewrite get_length_loop_spec|].
  split.
  - intros l Hl. apply not_elem_of_dom. intros Hin.
    apply (Hfresh l Hl). rewrite dom_insert_L, elem_of_union. by right.
  - intros l Hl. rewrite Hfr.
    + rewrite lookup_insert_ne; [done|]. by intros ->.
    + rewrite dom_insert_L, elem_of_union. by right.
    + by intros ->.
Qed.

(** X23. On a list that ends, [middle_node] returns the node at index
    [len // 2] (the second of the two middle nodes when the length is
    even), and [None] on the empty list. *)
Theorem middle_node_index fuel st hd ls vs :
  chain st hd ls vs → (length ls / 2 ≤ fuel)%nat →
  middle_node fuel st hd = Ok (ls !! (length ls / 2)%nat).
Proof.
  intros Hc Hf. unfold middle_node.
  rewrite (chain_head _ _ _ _ Hc).
  apply (middle_loop_spec fuel st hd ls vs 0 Hc); lia.
Qed.

Lemma middle_node_index_witness :
  middle_node 1 {[ 0%nat := ListNode 4 (Some 1%nat);
                   1%nat := ListNode 9 None ]} (Some 0%nat)
  = Ok ([0; 1]%nat !! (length [0; 1]%nat / 2)%nat).
Proof.
  refine (middle_node_index 1 _ (Some 0%nat) [0; 1]%nat [4; 9] _ _);
    [|simpl; lia].
  repeat (econstructor; [reflexivity|]). constructor.
Defined.

Lemma has_cycle_chain fuel st hd ls vs :
  chain st hd ls vs → (length ls / 2 ≤ fuel)%nat →
  has_cycle fuel st hd = Ok false.
Proof.
  intros Hc Hf. unfold has_cycle.
  rewrite (chain_head _ _ _ _ Hc).
  apply (has_cycle_loop_chain fuel st hd ls vs 0 Hc); lia.
Qed.

Lemma has_cycle_lasso fuel st hd pre cyc :
  lasso st hd pre cyc → (length pre + length cyc ≤ fuel)%nat →
  has_cycle fuel st hd = Ok true.
Proof.
  intros Hl Hf. unfold has_cycle.
  pose proof Hl as (Hne & Hhd & Hstep). rewrite Hhd.
  change (Some (walk pre cyc 0)) with (Some (walk pre cyc (2 * 0))) at 2.
  apply (has_cycle_loop_lasso fuel st hd pre cyc 0); [done|].
  destruct (lasso_meet pre cyc Hne) as (j & Hj & Hm).
  exists j. split; [lia | done].
Qed.

(** X24. [has_cycle] tells whether the list runs into a cycle: on a list
    that ends (nodes [pre], no cycle) it returns [False], and on a list
    that leads through the nodes [pre] into a cycle of the nodes [cyc] it
    returns [True], after at most as many rounds as there are nodes. *)
Theorem has_cycle_correct fuel st hd pre cyc vs :
  (cyc = [] ∧ chain st hd pre vs) ∨ lasso st hd pre cyc →
  (length pre + length cyc ≤ fuel)%nat →
  has_cycle fuel st hd = Ok (bool_decide (cyc ≠ [])).
Proof.
  intros [[-> Hc]|Hl] Hf.
  - rewrite bool_decide_eq_false_2 by (by intros ?).
    apply (has_cycle_chain fuel st hd pre vs Hc).
    simpl in Hf. lia.
  - rewrite bool_decide_eq_true_2 by apply Hl.
    by apply (has_cycle_lasso fuel st hd pre cyc).
Qed.

Lemma has_cycle_correct_witness :
  has_cycle 3 {[ 0%nat := ListNode 4 (Some 1%nat);
                 1%nat := ListNode 9 (Some 2%nat);
                 2%nat := ListNode 5 (Some 1%nat) ]} (Some 0%nat)
  = Ok (bool_decide ([1; 2]%nat ≠ [])).
Proof.
  refine (has_cycle_correct 3 _ (Some 0%nat) [0%nat] [1; 2]%nat [] _ _);
    [|simpl; lia].
  right. split; [discriminate|]. split; [reflexivity|].
  intros i. unfold walk. simpl length.
  destruct i as [|i]; [by eexists|].
  rewrite !decide_False by lia.
  assert (((S i - 1) `mod` 2 = 0 ∧ (S (S i) - 1) `mod` 2 = 1)
          ∨ ((S i - 1) `mod` 2 = 1 ∧ (S (S i) - 1) `mod` 2 = 0))%nat
    as [[-> ->]|[-> ->]] by lia; by eexists.
Defined.

(** X25. [merge] of two lists that share no node links the nodes of both
    into one list, making no new node but the dummy and changing no other
    object. The values of the result are those of the two lists together;
    when both lists are sorted, so is the result. *)
Theorem merge_sorted_lists fuel st l1 l2 ls1 vs1 ls2 vs2 :
  chain st l1 ls1 vs1 → chain st l2 ls2 vs2 →
  (∀ l, l ∈ ls1 → l ∉ ls2) →
  (length ls1 + length ls2 ≤ fuel)%nat →
  ∃ st' hd ls,
    merge fuel st l1 l2 = Ok (st', hd) ∧
    chain st' hd ls (merge_vals vs1 vs2) ∧
    ls ≡ₚ ls1 ++ ls2 ∧
    merge_vals vs1 vs2 ≡ₚ vs1 ++ vs2 ∧
    (Sorted Z.le vs1 → Sorted Z.le vs2 → Sorted Z.le (merge_vals vs1 vs2)) ∧
    (∀ l, l ∈ dom st → l ∉ ls1 → l ∉ ls2 → st' !! l = st !! l).
Proof.
  intros Hc1 Hc2 Hdisj Hf. unfold merge, alloc.
  set (d := fresh (dom st)).
  assert (d ∉ dom st) as Hd by apply is_fresh.
  assert (d ∉ ls1) as Hd1.
  { intros Hin. by apply Hd, (chain_dom _ _ _ _ _ Hc1). }
  assert (d ∉ ls2) as Hd2.
  { intros Hin. by apply Hd, (chain_dom _ _ _ _ _ Hc2). }
  destruct (merge_loop_spec fuel (<[d := ListNode 0 None]> st) d 0 None
              l1 l2 ls1 vs1 ls2 vs2)
    as (st' & ls & Hloop & Hch & Hperm & Hfr);
    [by apply chain_insert_ne | by apply chain_insert_ne | done | done | done
    | by rewrite lookup_insert_eq | done |].
  rewrite Hloop, bind_Ok.
  inversion Hch as [|d' z nx ls' vs' Hdl Hc']; subst.
  rewrite (deref_lookup _ _ _ Hdl), bind_Ok. cbn [next].
  exists st', nx, ls. split; [done|]. split; [done|]. split; [done|].
  split; [apply merge_vals_perm|]. split; [apply merge_vals_sorted|].
  intros l Hl Hl1 Hl2. rewrite Hfr; [|by intros ->|done|done].
  rewrite lookup_insert_ne; [done|]. by intros ->.
Qed.

Lemma merge_sorted_lists_witness :
  ∃ st' hd ls,
    merge 2 {[ 0%nat := ListNode 4 None; 1%nat := ListNode 2 None ]}
      (Some 0%nat) (Some 1%nat) = Ok (st', hd) ∧
    chain st' hd ls [2; 4] ∧ ls ≡ₚ [0; 1]%nat.
Proof.
  destruct (merge_sorted_lists 2
              {[ 0%nat := ListNode 4 None; 1%nat := ListNode 2 None ]}
              (Some 0%nat) (Some 1%nat) [0%nat] [4] [1%nat] [2])
    as (st' & hd & ls & H1 & H2 & H3 & _).
  - econstructor; [reflexivity | constructor].
  - econstructor; [reflexivity | constructor].
  - intros l ->%list_elem_of_singleton [=]%list_elem_of_singleton.
  - simpl. lia.
  - exists st', hd, ls. split; [exact H1|]. split; [exact H2 | exact H3].
Defined.

End linked_list_more_facts.

(** * Array algorithms: proofs *)

Section misc_algos_facts.
Import MiscAlgos.
Implicit Types arr nums : list Z.

Lemma getitem_int_lookup arr i x :
  0 ≤ i → arr !! Z.to_nat i = Some x → getitem_int arr i = Ok x.
Proof.
  intros Hi Hx. unfold getitem_int. rewrite decide_True by done.
  by apply getitem_lookup.
Qed.

Lemma sorted_lookup_le arr i j x y :
  Sorted Z.le arr → arr !! i = Some x → arr !! j = Some y →
  (i ≤ j)%nat → x ≤ y.
Proof.
  intros Hs%Sorted_StronglySorted; [|intros ???; lia].
  revert i j. induction Hs as [|a l Hs IH Hfa]; intros i j Hi Hj Hij;
    [done|].
  destruct i as [|i], j as [|j]; simpl in *; try lia.
  - simplify_eq. lia.
  - injection Hi as ->. rewrite Forall_forall in Hfa.
    apply Hfa. by eapply list_elem_of_lookup_2.
  - apply (IH i j); [done | done | lia].
Qed.

Lemma zsum_app xs ys : zsum (xs ++ ys) = zsum xs + zsum ys.
Proof. induction xs as [|x xs IH]; simpl; [done|]. unfold zsum in *. simpl. lia. Qed.

Lemma zsum_singleton x : zsum [x] = x.
Proof. unfold zsum. simpl. lia. Qed.

(** Binary search. *)

Lemma binary_search_loop_unfold fuel arr target left right :
  binary_search_loop fuel arr target left right =
  if decide (left ≤ right) then
    match fuel with
    | O => Stuck
    | S fuel' =>
        x ← getitem_int arr ((left + right) `div` 2);
        if decide (x = target) then Ok ((left + right) `div` 2)
        else if decide (x < target) then
          binary_search_loop fuel' arr target ((left + right) `div` 2 + 1)
            right
        else
          binary_search_loop fuel' arr target left
            ((left + right) `div` 2 - 1)
    end
  else Ok (-1).
Proof. by destruct fuel. Qed.

Lemma binary_search_loop_spec fuel arr target left right :
  0 ≤ left → right < Z.of_nat (length arr) →
  right - left + 1 < 2 ^ Z.of_nat fuel →
  ∃ r, binary_search_loop fuel arr target left right = Ok r ∧
       (r = -1 ∨ (left ≤ r ≤ right ∧ arr !! Z.to_nat r = Some target)) ∧
       (Sorted Z.le arr →
        (∀ i, arr !! i = Some target → left ≤ Z.of_nat i ≤ right) →
        target ∈ arr → r ≠ -1).
Proof.
  revert left right. induction fuel as [|fuel IH];
    intros left right Hl Hr Hsz; rewrite binary_search_loop_unfold.
  - rewrite decide_False by (simpl in Hsz; lia).
    exists (-1). split; [done|]. split; [by left|].
    intros _ Hin [i Hi]%list_elem_of_lookup. apply Hin in Hi.
    simpl in Hsz. lia.
  - rewrite Nat2Z.inj_succ, Z.pow_succ_r in Hsz by lia.
    destruct (decide (left ≤ right)) as [Hle|Hgt].
    2:{ exists (-1). split; [done|]. split; [by left|].
        intros _ Hin [i Hi]%list_elem_of_lookup. apply Hin in Hi. lia. }
    set (mid := (left + right) `div` 2).
    assert (left ≤ mid ≤ right) as Hmid by (unfold mid; lia).
    destruct (lookup_lt_is_Some_2 arr (Z.to_nat mid)) as [x Hx]; [lia|].
    rewrite (getitem_int_lookup _ _ x) by (done || lia). rewrite bind_Ok.
    destruct (decide (x = target)) as [->|Hne].
    { exists mid. split; [done|]. split; [right; split; [lia | done]|].
      intros. lia. }
    destruct (decide (x < target)) as [Hlt|Hge].
    + destruct (IH (mid + 1) right) as (r & Hloop & Hsound & Hfound);
        [lia | lia | unfold mid; lia |].
      exists r. split; [done|]. split.
      * destruct Hsound as [?|[? ?]]; [by left | right; split; [lia | done]].
      * intros Hs Hin Hel. apply Hfound; [done | | done].
        intros i Hi. specialize (Hin i Hi).
        destruct (decide (Z.of_nat i ≤ mid)) as [Him|]; [|lia].
        pose proof (sorted_lookup_le arr i (Z.to_nat mid) _ _ Hs Hi Hx).
        lia.
    + destruct (IH left (mid - 1)) as (r & Hloop & Hsound & Hfound);
        [lia | lia | unfold mid; lia |].
      exists r. split; [done|]. split.
      * destruct Hsound as [?|[? ?]]; [by left | right; split; [lia | done]].
      * intros Hs Hin Hel. apply Hfound; [done | | done].
        intros i Hi. specialize (Hin i Hi).
        destruct (decide (mid ≤ Z.of_nat i)) as [Him|]; [|lia].
        pose proof (sorted_lookup_le arr (Z.to_nat mid) i _ _ Hs Hx Hi).
        lia.
Qed.

(** Lower bound. *)

Lemma lower_bound_loop_unfold fuel arr target left right :
  lower_bound_loop fuel arr target left right =
  if decide (left < right) then
    match fuel with
    | O => Stuck
    | S fuel' =>
        x ← getitem_int arr ((left + right) `div` 2);
        if decide (x < target) then
          lower_bound_loop fuel' arr target ((left + right) `div` 2 + 1) right
        else
          lower_bound_loop fuel' arr target left ((left + right) `div` 2)
    end
  else Ok left.
Proof. by destruct fuel. Qed.

Lemma lower_bound_loop_spec fuel arr target left right :
  0 ≤ left ≤ right → right ≤ Z.of_nat (length arr) →
  right - left < 2 ^ Z.of_nat fuel →
  ∃ r, lower_bound_loop fuel arr target left right = Ok r ∧
       left ≤ r ≤ right ∧
       (Sorted Z.le arr →
        (∀ i x, arr !! i = Some x → Z.of_nat i < left → x < target) →
        (∀ i x, arr !! i = Some x → right ≤ Z.of_nat i → target ≤ x) →
        ∀ i x, arr !! i = Some x → (x < target ↔ Z.of_nat i < r)).
Proof.
  revert left right. induction fuel as [|fuel IH];
    intros left right Hl Hr Hsz; rewrite lower_bound_loop_unfold.
  - rewrite decide_False by (simpl in Hsz; lia).
    exists left. split; [done|]. split; [lia|].
    intros _ Hlo Hhi i x Hi. simpl in Hsz. split.
    + intros Hlt. destruct (decide (Z.of_nat i < left)); [done|].
      specialize (Hhi i x Hi). lia.
    + apply Hlo, Hi.
  - rewrite Nat2Z.inj_succ, Z.pow_succ_r in Hsz by lia.
    destruct (decide (left < right)) as [Hlt|Hge].
    2:{ exists left. split; [done|]. split; [lia|].
        intros _ Hlo Hhi i x Hi. split.
        - intros Hx. destruct (decide (Z.of_nat i < left)); [done|].
          specialize (Hhi i x Hi). lia.
        - apply Hlo, Hi. }
    set (mid := (left + right) `div` 2).
    assert (left ≤ mid < right) as Hmid by (unfold mid; lia).
    destruct (lookup_lt_is_Some_2 arr (Z.to_nat mid)) as [x Hx]; [lia|].
    rewrite (getitem_int_lookup _ _ x) by (done || lia). rewrite bind_Ok.
    destruct (decide (x < target)) as [Hxt|Hxt].
    + destruct (IH (mid + 1) right) as (r & Hloop & Hrange & Hsplit);
        [lia | lia | unfold mid; lia |].
      exists r. split; [done|]. split; [lia|].
      intros Hs Hlo Hhi. apply Hsplit; [done | | done].
      intros i y Hi Him.
      pose proof (sorted_lookup_le arr i (Z.to_nat mid) _ _ Hs Hi Hx). lia.
    + destruct (IH left mid) as (r & Hloop & Hrange & Hsplit);
        [lia | lia | unfold mid; lia |].
      exists r. split; [done|]. split; [lia|].
      intros Hs Hlo Hhi. apply Hsplit; [done | done |].
      intros i y Hi Him.
      pose proof (sorted_lookup_le arr (Z.to_nat mid) i _ _ Hs Hx Hi). lia.
Qed.

(** Prefix sums. *)

Lemma prefix_sum_loop_spec arr m k pre :
  (k + m = length arr)%nat → length pre = S (length arr) →
  (∀ i, (i ≤ k)%nat → pre !! i = Some (zsum (take i arr))) →
  ∃ pre',
    prefix_sum_loop arr (seq k m) pre = Ok pre' ∧
    length pre' = S (length arr) ∧
    ∀ i, (i ≤ length arr)%nat → pre' !! i = Some (zsum (take i arr)).
Proof.
  revert k pre. induction m as [|m IH]; intros k pre Hk Hlen Hpre.
  - exists pre. split; [done|]. split; [done|].
    intros i Hi. apply Hpre. lia.
  - cbn [seq prefix_sum_loop].
    rewrite (getitem_lookup _ _ _ (Hpre k (le_n k))), bind_Ok.
    destruct (lookup_lt_is_Some_2 arr k) as [b Hb]; [lia|].
    rewrite (getitem_lookup _ _ _ Hb), bind_Ok.
    rewrite setitem_lt, bind_Ok by lia.
    apply IH; [lia | by rewrite length_insert |].
    intros i Hi. destruct (decide (i = S k)) as [->|Hne].
    + rewrite list_lookup_insert_eq by lia.
      by rewrite (take_S_r _ _ _ Hb), zsum_app, zsum_singleton.
    + rewrite list_lookup_insert_ne by done. apply Hpre. lia.
Qed.

(** Kadane's algorithm. *)

Lemma snoc_split_suffix (xs p s : list Z) x :
  xs ++ [x] = p ++ s → s ≠ [] → ∃ s', s = s' ++ [x] ∧ xs = p ++ s'.
Proof.
  intros Heq Hs. destruct s as [|y s _] using rev_ind; [done|].
  rewrite app_assoc in Heq. apply app_inj_tail in Heq as [-> ->]. eauto.
Qed.

Lemma ends_at_singleton x : ends_at [x] x.
Proof.
  split.
  - exists [], [x]. split; [done|]. split; [done|]. apply zsum_singleton.
  - intros p s Heq Hs.
    destruct (snoc_split_suffix [] p s x Heq Hs) as (s' & -> & Hnil).
    symmetry in Hnil. apply app_eq_nil in Hnil as [_ ->].
    cbn [app]. by rewrite zsum_singleton.
Qed.

Lemma ends_at_snoc xs c x :
  ends_at xs c → ends_at (xs ++ [x]) (Z.max x (c + x)).
Proof.
  intros [(p & s & -> & Hs & Hsum) Hmax]. split.
  - destruct (decide (c + x ≤ x)).
    + exists (p ++ s), [x]. split; [done|]. split; [done|].
      rewrite zsum_singleton. lia.
    + exists p, (s ++ [x]). split; [by rewrite app_assoc|].
      split; [by destruct s|]. rewrite zsum_app, zsum_singleton. lia.
  - intros p' s' Heq Hs'.
    destruct (snoc_split_suffix _ _ _ _ Heq Hs') as (s'' & -> & Heq').
    rewrite zsum_app, zsum_singleton.
    destruct s'' as [|y s'']; [unfold zsum; simpl; lia|].
    specialize (Hmax p' (y :: s'') Heq' ltac:(done)). lia.
Qed.

Lemma best_singleton x : best [x] x.
Proof.
  split.
  - exists [x]. split; [|apply zsum_singleton].
    split; [done|]. by exists [], [].
  - intros s [Hs (p & q & Heq)].
    destruct q as [|y q _] using rev_ind.
    + rewrite app_nil_r in Heq.
      destruct (snoc_split_suffix [] p s x Heq Hs) as (s' & -> & Hnil).
      symmetry in Hnil. apply app_eq_nil in Hnil as [_ ->].
      cbn [app]. by rewrite zsum_singleton.
    + rewrite !app_assoc in Heq.
      change [x] with ([] ++ [x]) in Heq.
      apply app_inj_tail in Heq as [Hnil _].
      symmetry in Hnil. apply app_eq_nil in Hnil as [[_ ->]%app_eq_nil _].
      done.
Qed.

Lemma best_snoc xs c m x :
  ends_at xs c → best xs m →
  best (xs ++ [x]) (Z.max m (Z.max x (c + x))).
Proof.
  intros Hc [(s & [Hs (p & q & ->)] & Hsum) Hmax].
  pose proof (ends_at_snoc _ _ x Hc) as [(p' & s' & Heq' & Hs' & Hsum') Hmax'].
  split.
  - destruct (decide (Z.max x (c + x) ≤ m)).
    + exists s. split; [|lia]. split; [done|].
      exists p, (q ++ [x]). by rewrite <-!app_assoc.
    + exists s'. split; [|lia]. split; [done|].
      exists p', []. by rewrite app_nil_r.
  - intros t [Ht (p2 & q2 & Heq)].
    destruct q2 as [|y q2 _] using rev_ind.
    + rewrite app_nil_r in Heq. specialize (Hmax' p2 t Heq Ht). lia.
    + replace (p2 ++ t ++ q2 ++ [y]) with ((p2 ++ t ++ q2) ++ [y]) in Heq
        by (by rewrite <-!app_assoc).
      apply app_inj_tail in Heq as [Heq _].
      assert (zsum t ≤ m); [|lia].
      apply Hmax. split; [done|]. by exists p2, q2.
Qed.

Lemma max_subarray_loop_spec arr m k curr res :
  (k + m = length arr)%nat →
  ends_at (take k arr) curr → best (take k arr) res →
  ∃ r, max_subarray_loop arr (seq k m) curr res = Ok r ∧ best arr r.
Proof.
  revert k curr res. induction m as [|m IH]; intros k curr res Hk Hc Hb.
  - exists res. split; [done|]. by rewrite take_ge in Hb by lia.
  - cbn [seq max_subarray_loop].
    destruct (lookup_lt_is_Some_2 arr k) as [x Hx]; [lia|].
    rewrite (getitem_lookup _ _ _ Hx), bind_Ok. cbv zeta.
    apply IH; [lia | |]; rewrite (take_S_r _ _ _ Hx).
    + by apply ends_at_snoc.
    + by apply best_snoc.
Qed.

(** Majority vote. *)

Lemma majority_loop_spec v nums count candidate :
  0 ≤ count →
  0 < 2 * Z.of_nat (count_occ v nums) - Z.of_nat (length nums)
      + weight v candidate count →
  majority_loop nums count candidate = Some v.
Proof.
  revert count candidate.
  induction nums as [|num nums IH]; intros count candidate Hc Hw.
  - unfold weight in Hw. change (count_occ v []) with 0%nat in Hw.
    simpl in *. destruct (decide (candidate = Some v)); [done | lia].
  - cbn [majority_loop]. rewrite count_occ_cons in Hw. cbn [length] in Hw.
    unfold weight in Hw.
    apply IH; unfold weight; revert Hw;
      destruct (decide (count = 0)) as [->|?];
      destruct (decide (num = v)) as [->|?];
      destruct (decide (candidate = Some v)) as [->|?];
      repeat match goal with
             | |- context [decide ?P] => destruct (decide P)
             end; intros; simplify_eq; lia.
Qed.

Lemma majority_loop_elem nums count candidate c :
  majority_loop nums count candidate = Some c →
  candidate = Some c ∨ c ∈ nums.
Proof.
  revert count candidate.
  induction nums as [|num nums IH]; intros count candidate; [by left|].
  cbn [majority_loop]. intros [Hc|Hc]%IH.
  - case_decide; [|by left]. injection Hc as ->. right. apply list_elem_of_here.
  - right. by apply list_elem_of_further.
Qed.

Lemma majority_loop_is_Some nums count c :
  is_Some (majority_loop nums count (Some c)).
Proof.
  revert count c. induction nums as [|num nums IH]; intros count c; [done|].
  cbn [majority_loop]. destruct (decide (count = 0)); apply IH.
Qed.

(** ** Properties *)

(** X26. [binary_search] raises nothing and returns either [-1] or an
    index at which the array holds the target; on a sorted array it
    returns [-1] exactly when the target is not in the array. The number
    of rounds is logarithmic in the length. *)
Theorem binary_search_correct fuel arr target :
  Z.of_nat (length arr) < 2 ^ Z.of_nat fuel →
  ∃ r, binary_search fuel arr target = Ok r ∧
       (r = -1 ∨ (0 ≤ r < Z.of_nat (length arr)
                  ∧ arr !! Z.to_nat r = Some target)) ∧
       (Sorted Z.le arr → (r = -1 ↔ target ∉ arr)).
Proof.
  intros Hf. unfold binary_search.
  destruct (binary_search_loop_spec fuel arr target 0
              (Z.of_nat (length arr) - 1))
    as (r & Hloop & Hsound & Hfound); [lia | lia | lia |].
  exists r. split; [done|]. split.
  - destruct Hsound as [?|[? ?]]; [by left | right; split; [lia | done]].
  - intros Hs. split.
    + intros -> Hin. apply (Hfound Hs); [|done|done].
      intros i Hi%lookup_lt_Some. lia.
    + intros Hnot. destruct Hsound as [?|[_ Hr]]; [done|].
      exfalso. apply Hnot. by eapply list_elem_of_lookup_2.
Qed.

Lemma binary_search_correct_witness :
  ∃ r, binary_search 3 [1; 3; 5; 7; 9] 7 = Ok r ∧
       (r = -1 ∨ (0 ≤ r < 5 ∧ [1; 3; 5; 7; 9] !! Z.to_nat r = Some 7)) ∧
       (Sorted Z.le [1; 3; 5; 7; 9] → (r = -1 ↔ 7 ∉ [1; 3; 5; 7; 9])).
Proof. apply (binary_search_correct 3 [1; 3; 5; 7; 9] 7). simpl. lia. Defined.

(** X27. [lower_bound] raises nothing and returns an index between 0 and
    the length; on a sorted array the items before that index are those
    smaller than the target, so it is the index of the first item that is
    not smaller (the length if there is none). *)
Theorem lower_bound_correct fuel arr target :
  Z.of_nat (length arr) < 2 ^ Z.of_nat fuel →
  ∃ r : nat,
    lower_bound fuel arr target = Ok (Z.of_nat r) ∧
    (r ≤ length arr)%nat ∧
    (Sorted Z.le arr →
     ∀ i x, arr !! i = Some x → (x < target ↔ (i < r)%nat)).
Proof.
  intros Hf. unfold lower_bound.
  destruct (lower_bound_loop_spec fuel arr target 0 (Z.of_nat (length arr)))
    as (r & Hloop & Hrange & Hsplit); [lia | lia | lia |].
  exists (Z.to_nat r). rewrite Z2Nat.id by lia. split; [done|].
  split; [lia|]. intros Hs i x Hi.
  rewrite (Hsplit Hs) by first
    [ done | intros ????; lia
    | intros j y Hj%lookup_lt_Some ?; lia ].
  lia.
Qed.

Lemma lower_bound_correct_witness :
  ∃ r : nat,
    lower_bound 3 [1; 3; 3; 5] 3 = Ok (Z.of_nat r) ∧
    (r ≤ 4)%nat ∧
    (Sorted Z.le [1; 3; 3; 5] →
     ∀ i x, [1; 3; 3; 5] !! i = Some x → (x < 3 ↔ (i < r)%nat)).
Proof. apply (lower_bound_correct 3 [1; 3; 3; 5] 3). simpl. lia. Defined.

(** X28. [prefix_sum] returns a list one longer than the array whose
    item [i] is the sum of the first [i] items of the array, so that the
    sum of the items [l..r] is [pre[r+1] - pre[l]]. *)
Theorem prefix_sum_range_sum arr :
  ∃ pre,
    prefix_sum arr = Ok pre ∧ length pre = S (length arr) ∧
    (∀ i, (i ≤ length arr)%nat → pre !! i = Some (zsum (take i arr))) ∧
    (∀ l r, (l ≤ r < length arr)%nat →
       pre !!! S r - pre !!! l = zsum (take (S r - l) (drop l arr))).
Proof.
  unfold prefix_sum.
  destruct (prefix_sum_loop_spec arr (length arr) 0
              (replicate (length arr + 1) 0))
    as (pre & Hloop & Hlen & Hpre).
  - done.
  - rewrite length_replicate. lia.
  - intros i Hi. assert (i = 0%nat) as -> by lia.
    rewrite take_0. apply lookup_replicate_2. lia.
  - exists pre. split; [done|]. split; [done|]. split; [done|].
    intros l r Hlr.
    rewrite (list_lookup_total_correct pre (S r) _ (Hpre (S r) ltac:(lia))).
    rewrite (list_lookup_total_correct pre l _ (Hpre l ltac:(lia))).
    rewrite take_drop_commute.
    replace (l + (S r - l))%nat with (S r) by lia.
    rewrite <-(take_drop l (take (S r) arr)) at 1.
    rewrite zsum_app, take_take, Nat.min_l by lia. lia.
Qed.

(** X29. Kadane's algorithm: on a non-empty array [max_subarray] returns
    the largest sum of a contiguous non-empty part of the array; on the
    empty array it raises [IndexError]. *)
Theorem max_subarray_best arr :
  arr ≠ [] →
  max_subarray [] = Raise IndexError ∧
  ∃ m, max_subarray arr = Ok m ∧
       (∃ s, segment arr s ∧ zsum s = m) ∧
       (∀ s, segment arr s → zsum s ≤ m).
Proof.
  intros Hne. split; [done|]. unfold max_subarray.
  destruct arr as [|x arr]; [done|].
  rewrite (getitem_lookup _ 0 x) by done. rewrite bind_Ok.
  destruct (max_subarray_loop_spec (x :: arr) (length (x :: arr) - 1) 1 x x)
    as (m & Hloop & Hbest).
  - simpl. lia.
  - cbn [take]. rewrite take_0. apply ends_at_singleton.
  - cbn [take]. rewrite take_0. apply best_singleton.
  - exists m. split; [done|]. exact Hbest.
Qed.

Lemma max_subarray_best_witness :
  max_subarray [] = Raise IndexError ∧
  ∃ m, max_subarray [-2; 1; -3; 4] = Ok m ∧
       (∃ s, segment [-2; 1; -3; 4] s ∧ zsum s = m) ∧
       (∀ s, segment [-2; 1; -3; 4] s → zsum s ≤ m).
Proof. apply (max_subarray_best [-2; 1; -3; 4]). discriminate. Defined.

(** X30. Boyer-Moore vote: when a value takes more than half of the
    places of the list, [majority_element] returns it. In any case the
    result is an item of the list, and [None] for the empty list only. *)
Theorem majority_element_finds nums v :
  (length nums < 2 * count_occ v nums)%nat →
  majority_element nums = Some v ∧
  (∀ other c, majority_element other = Some c → c ∈ other) ∧
  (∀ other, majority_element other = None ↔ other = []).
Proof.
  intros Hmaj. split; [|split].
  - apply majority_loop_spec; [done|]. unfold weight. case_decide; lia.
  - intros other c [?|?]%majority_loop_elem; done.
  - intros other. split; [|by intros ->].
    destruct other as [|x other]; [done|].
    unfold majority_element. cbn [majority_loop].
    rewrite !decide_True by done. intros Hnone.
    match type of Hnone with
    | majority_loop ?o ?k (Some ?y) = None =>
        destruct (majority_loop_is_Some o k y) as [c Hc]; congruence
    end.
Qed.

Lemma majority_element_finds_witness :
  majority_element [2; 2; 1; 1; 2] = Some 2.
Proof.
  refine (proj1 (majority_element_finds [2; 2; 1; 1; 2] 2 _)).
  vm_compute. lia.
Defined.

End misc_algos_facts.
